(** * qats.signal: crossing, peak, windowing and filter primitives

    A shallow embedding of [src/qats/signal.py].  One-dimensional numpy
    arrays are lists, numpy integers are [Z], array positions are [nat],
    and the samples live in a scalar type [R] that carries the float64
    operations the module uses.  Two instances are given: Rocq's primitive
    binary64 floats (what numpy computes with) and the canonical rationals
    [Qc] (arithmetic without round-off).  Python exceptions are values of
    [exn] threaded through a small error monad. *)

From Stdlib Require Import String Ascii.
From Stdlib Require Import ZArith List Bool Lia Permutation Sorted.
From Stdlib Require Import PrimFloat Floats Uint63 QArith Qabs Qround Qcanon.
Import ListNotations.
Open Scope Z_scope.

(** ** Python exceptions and fallible computations *)

Inductive exn : Type :=
| ValueError
| TypeError
| IndexError
| AttributeError
| ZeroDivisionError.

Inductive result (A : Type) : Type :=
| Ok (a : A)
| Raise (e : exn).

Arguments Ok {A} a.
Arguments Raise {A} e.

Definition bind {A B : Type} (c : result A) (k : A -> result B) : result B :=
  match c with
  | Ok a => k a
  | Raise e => Raise e
  end.

Notation "x <- c ;; k" := (bind c (fun x => k))
  (at level 61, c at next level, right associativity).

Fixpoint mapM {A B : Type} (f : A -> result B) (l : list A) : result (list B) :=
  match l with
  | [] => Ok []
  | a :: tl => b <- f a ;; bs <- mapM f tl ;; Ok (b :: bs)
  end.

(** ** Scalars *)

(** The float64 operations used by the module.  [of_int] is the int to
    float conversion numpy applies in mixed expressions, [rint] rounds to
    the nearest integer with ties to even, [feps] is
    [sys.float_info.epsilon]. *)
Class Scalar (R : Type) : Type := {
  fzero : R;
  fone : R;
  fadd : R -> R -> R;
  fsub : R -> R -> R;
  fmul : R -> R -> R;
  fdiv : R -> R -> R;
  flt : R -> R -> bool;
  fle : R -> R -> bool;
  feq : R -> R -> bool;
  fabs : R -> R;
  of_int : Z -> R;
  rint : R -> R;
  feps : R
}.

Module Float64.

(** The conversion is exact below 2^53 and rounds to nearest from there
    on; integers are taken below 2^63 in absolute value. *)
Definition of_int (z : Z) : float :=
  if z <? 0 then PrimFloat.opp (PrimFloat.of_uint63 (Uint63.of_Z (- z)))
  else PrimFloat.of_uint63 (Uint63.of_Z z).

(** Round to nearest, ties to even: adding and removing 2^52 leaves the
    integer nearest to a positive float below 2^52; larger floats are
    integers, and the sign is kept, also on a zero result. *)
Definition rint (x : float) : float :=
  if PrimFloat.ltb (PrimFloat.abs x) 0x1p52%float then
    if PrimFloat.eqb x 0%float then x
    else if PrimFloat.ltb x 0%float
    then PrimFloat.opp
           (PrimFloat.sub (PrimFloat.add (PrimFloat.opp x) 0x1p52%float)
                          0x1p52%float)
    else PrimFloat.sub (PrimFloat.add x 0x1p52%float) 0x1p52%float
  else x.

End Float64.

#[export] Instance float64 : Scalar float := {
  fzero := 0%float;
  fone := 1%float;
  fadd := PrimFloat.add;
  fsub := PrimFloat.sub;
  fmul := PrimFloat.mul;
  fdiv := PrimFloat.div;
  flt := PrimFloat.ltb;
  fle := PrimFloat.leb;
  feq := PrimFloat.eqb;
  fabs := PrimFloat.abs;
  of_int := Float64.of_int;
  rint := Float64.rint;
  feps := 0x1p-52%float
}.

Module Exact.

Definition of_int (z : Z) : Qc := Q2Qc (inject_Z z).

Definition ltb (a b : Qc) : bool := negb (Qle_bool (this b) (this a)).
Definition leb (a b : Qc) : bool := Qle_bool (this a) (this b).
Definition eqb (a b : Qc) : bool := Qeq_bool (this a) (this b).

Definition abs (a : Qc) : Qc := Q2Qc (Qabs (this a)).

(** Nearest integer, ties to even. *)
Definition rint (a : Qc) : Qc :=
  let q := this a in
  let lo := Qfloor q in
  let twice := Qfloor (q * inject_Z 2) - 2 * lo in
  let exact_half := Qeq_bool (q * inject_Z 2) (inject_Z (2 * lo + 1)) in
  if exact_half then of_int (if Z.even lo then lo else lo + 1)
  else of_int (lo + twice).

End Exact.

#[export] Instance rationals : Scalar Qc := {
  fzero := Q2Qc 0;
  fone := Q2Qc 1;
  fadd := Qcplus;
  fsub := Qcminus;
  fmul := Qcmult;
  fdiv := Qcdiv;
  flt := Exact.ltb;
  fle := Exact.leb;
  feq := Exact.eqb;
  fabs := Exact.abs;
  of_int := Exact.of_int;
  rint := Exact.rint;
  feps := Qcdiv (Q2Qc 1) (Exact.of_int (2 ^ 52))
}.

(** ** Python and numpy operations on one-dimensional arrays *)

Section Arrays.

Context {A : Type}.

(** [l[i]] with Python's negative positions; [IndexError] out of range. *)
Definition getitem (l : list A) (i : Z) : result A :=
  let n := Z.of_nat (length l) in
  let j := if i <? 0 then i + n else i in
  if (j <? 0) || (n <=? j) then Raise IndexError
  else match nth_error l (Z.to_nat j) with
       | Some a => Ok a
       | None => Raise IndexError
       end.

(** [l[j] = v] as a new list; [IndexError] out of range. *)
Fixpoint setitem (l : list A) (j : nat) (v : A) : result (list A) :=
  match l, j with
  | [], _ => Raise IndexError
  | _ :: tl, O => Ok (v :: tl)
  | a :: tl, S j' => tl' <- setitem tl j' v ;; Ok (a :: tl')
  end.

(** Bounds of a forward slice, Python's [slice.indices] with step 1. *)
Definition clamp_fwd (n i : Z) : Z :=
  let j := if i <? 0 then i + n else i in
  if j <? 0 then 0 else if n <? j then n else j.

(** [l[a:b]] *)
Definition slice (l : list A) (a b : Z) : list A :=
  let n := Z.of_nat (length l) in
  let s := clamp_fwd n a in
  let e := clamp_fwd n b in
  firstn (Z.to_nat (e - s)) (skipn (Z.to_nat s) l).

(** Bounds of a backward slice, Python's [slice.indices] with step -1. *)
Definition clamp_bwd (n i : Z) : Z :=
  let j := if i <? 0 then i + n else i in
  if j <? 0 then -1 else if n <=? j then n - 1 else j.

(** [l[a:b:-1]]: positions [a], [a-1], ... down to [b+1]. *)
Definition slice_rev (l : list A) (a b : Z) : list A :=
  let n := Z.of_nat (length l) in
  let s := clamp_bwd n a in
  let e := clamp_bwd n b in
  rev (firstn (Z.to_nat (s - e)) (skipn (Z.to_nat (e + 1)) l)).

(** [l[mask]] for a boolean mask. *)
Fixpoint compress (mask : list bool) (l : list A) : list A :=
  match mask, l with
  | true :: m, a :: tl => a :: compress m tl
  | false :: m, _ :: tl => compress m tl
  | _, _ => []
  end.

(** [l[idx]] for an integer position array. *)
Definition take (l : list A) (idx : list nat) : result (list A) :=
  mapM (fun i => getitem l (Z.of_nat i)) idx.

(** [h[cond] = v] *)
Fixpoint assign_where (h : list A) (cond : list bool) (v : A) : list A :=
  match h, cond with
  | a :: tl, c :: cs => (if c then v else a) :: assign_where tl cs v
  | _, _ => h
  end.

(** [np.diff] with the subtraction of the element type. *)
Fixpoint np_diff (minus : A -> A -> A) (l : list A) : list A :=
  match l with
  | a :: (b :: _) as tl => minus b a :: np_diff minus tl
  | _ => []
  end.

End Arrays.

(** [np.where(mask)[0]], numbering positions from [i]. *)
Fixpoint where_from (i : nat) (mask : list bool) : list nat :=
  match mask with
  | [] => []
  | true :: m => i :: where_from (S i) m
  | false :: m => where_from (S i) m
  end.

Definition np_where (mask : list bool) : list nat := where_from 0 mask.

Definition sumZ (l : list Z) : Z := fold_left Z.add l 0.

Definition b2z (b : bool) : Z := if b then 1 else 0.

Section Numpy.

Context {R : Type} `{Scalar R}.

Definition isnan (a : R) : bool := negb (feq a a).

(** [np.sum], adding from left to right.  numpy adds a float64 array of
    eight elements or more in pairs of partial sums; the order of the
    additions, and with it the rounding of the sum, can differ. *)
Definition np_sum (l : list R) : R := fold_left fadd l fzero.

Definition np_mean (l : list R) : R :=
  fdiv (np_sum l) (of_int (Z.of_nat (length l))).

(** [np.maximum]: the first argument wins when it is a NaN or not smaller. *)
Definition np_maximum (a b : R) : R :=
  if fle b a || isnan a then a else b.

(** [a.max()]; numpy refuses an empty array. *)
Definition np_max (l : list R) : result R :=
  match l with
  | [] => Raise ValueError
  | a :: tl => Ok (fold_left np_maximum tl a)
  end.

(** The scan of [np.argmax]: [mp] is the running maximum at position
    [best], [i] the position of the head of [l]; the scan stops at a NaN. *)
Fixpoint argmax_from (mp : R) (best i : nat) (l : list R) : nat :=
  match l with
  | [] => best
  | a :: tl =>
      if isnan mp then best
      else if negb (fle a mp) then argmax_from a i (S i) tl
      else argmax_from mp best (S i) tl
  end.

Definition np_argmax (l : list R) : result nat :=
  match l with
  | [] => Raise ValueError
  | a :: tl => Ok (argmax_from a 0 1 tl)
  end.

(** numpy's sorting order on floats: NaNs last. *)
Definition sort_lt (a b : R) : bool :=
  flt a b || (isnan b && negb (isnan a)).

(** [np.argsort]: positions in ascending order of value.  numpy leaves the
    order of equal values to the sorting routine; this one keeps them in
    input order. *)
Fixpoint insert_sorted (p : R * nat) (l : list (R * nat)) : list (R * nat) :=
  match l with
  | [] => [p]
  | q :: tl => if sort_lt (fst p) (fst q) then p :: q :: tl
               else q :: insert_sorted p tl
  end.

Definition np_argsort (l : list R) : list nat :=
  map snd (fold_left (fun acc p => insert_sorted p acc)
                     (combine l (seq 0 (length l))) []).

(** Element-wise binary operation of two arrays of one shape. *)
Fixpoint zip_with (f : R -> R -> R) (a b : list R) : list R :=
  match a, b with
  | x :: a', y :: b' => f x y :: zip_with f a' b'
  | _, _ => []
  end.

(** [round(v, 3)] on a numpy float: scale, round to nearest even, unscale. *)
Definition round3 (v : R) : R :=
  fdiv (rint (fmul v (of_int 1000))) (of_int 1000).

End Numpy.

(** ** Crossing and peak analysis *)

Section Crossings.

Context {R : Type} `{Scalar R}.

(** The lines shared by [average_frequency] and [find_maxima]: the
    demeaned signal, the 0/1 side indicator, its first difference with
    the entries other than [indicator] cleared. *)
Definition demean (x : list R) : list R :=
  let m := np_mean x in map (fun a => fsub a m) x.

Definition indicator (up : bool) : Z := if up then 1 else -1.

Definition crossings (x : list R) (up : bool) : list Z :=
  let x_ := demean x in
  let side := if up then map (fun a => 1 * b2z (flt fzero a)) x_
              else map (fun a => 1 * b2z (flt a fzero)) x_ in
  let d := np_diff Z.sub side in
  map (fun c => if negb (c =? indicator up) then 0 else c) d.

(** [np.where(crossings == indicator)[0] + 1] *)
Definition crossing_positions (x : list R) (up : bool) : list nat :=
  map (fun k => (k + 1)%nat)
      (np_where (map (fun c => c =? indicator up) (crossings x up))).

Definition average_frequency (t x : list R) (up : bool) : result R :=
  let cr := crossings x up in
  let i := crossing_positions x up in
  i_last <- getitem i (-1) ;;
  t_last <- getitem t (Z.of_nat i_last) ;;
  i_first <- getitem i 0 ;;
  t_first <- getitem t (Z.of_nat i_first) ;;
  let d := fdiv (fsub t_last t_first) (of_int (Z.abs (sumZ cr) - 1)) in
  Ok (fdiv fone d).

(** A Python object given as [threshold]: only a float is accepted. *)
Inductive pyobj : Type :=
| PyFloat (v : R)
| PyInt (z : Z)
| PyStr (s : string).

(** The loop [for j, start in enumerate(crossing_indices[:-1])] of the
    global branch; the state is [(maxima, maxima_indices)]. *)
Fixpoint global_loop (x : list R) (crossing_indices : list nat) (j : nat)
         (starts : list nat) (st : list R * list nat)
  : result (list R * list nat) :=
  match starts with
  | [] => Ok st
  | start :: rest =>
      stop <- getitem crossing_indices (Z.of_nat (j + 1)) ;;
      let window := slice x (Z.of_nat start) (Z.of_nat stop) in
      m <- np_max window ;;
      a <- np_argmax window ;;
      maxima <- setitem (fst st) j m ;;
      maxima_indices <- setitem (snd st) j (start + a)%nat ;;
      global_loop x crossing_indices (S j) rest (maxima, maxima_indices)
  end.

Definition global_maxima (x : list R) (crossing_indices : list nat)
           (n_crossings : Z) : result (list R * list nat) :=
  let maxima := repeat fzero (Z.to_nat n_crossings) in
  let maxima_indices := repeat 0%nat (Z.to_nat n_crossings) in
  global_loop x crossing_indices 0 (removelast crossing_indices)
              (maxima, maxima_indices).

Definition local_maxima (x : list R) : result (list R * list nat) :=
  let ds := map (fun d => 1 * b2z (flt d fzero)) (np_diff fsub x) in
  let ds := ds ++ [0] in
  let d2s := np_diff Z.sub ds in
  let d2s := 0 :: d2s in
  let maxima_indices := np_where (map (fun c => c =? 1) d2s) in
  maxima <- take x maxima_indices ;;
  Ok (maxima, maxima_indices).

(** The block "discard maxima lower than specified threshold". *)
Definition apply_threshold (threshold : option pyobj)
           (found : list R * list nat) : result (list R * list nat) :=
  match threshold with
  | Some (PyFloat thr) =>
      let above_threshold := map (fun m => fle thr m) (fst found) in
      Ok (compress above_threshold (fst found),
          compress above_threshold (snd found))
  | Some _ => Raise TypeError
  | None => Ok found
  end.

(** The result is [maxima] when [retind] is false and
    [(maxima, maxima_indices)] when it is true. *)
Definition find_maxima (x : list R) (local : bool) (threshold : option pyobj)
           (up retind : bool) : result (list R * option (list nat)) :=
  let x_ := demean x in
  let cr := crossings x up in
  let n_crossings := sumZ cr in
  if n_crossings <? 2 then
    if retind then Ok ([], Some []) else Ok ([], None)
  else
    let crossing_indices := crossing_positions x up in
    last_crossing <- getitem crossing_indices (-1) ;;
    let crossing_indices :=
      if Z.of_nat last_crossing <? Z.of_nat (length x_) - 1
      then crossing_indices ++ [(length x_ - 1)%nat]
      else crossing_indices in
    found <- (if negb local
              then global_maxima x crossing_indices n_crossings
              else local_maxima x) ;;
    kept <- apply_threshold threshold found ;;
    let ascending := np_argsort (fst kept) in
    maxima <- take (fst kept) ascending ;;
    maxima_indices <- take (snd kept) ascending ;;
    if retind then Ok (maxima, Some maxima_indices) else Ok (maxima, None).

(** The last lines of [find_maxima] on their own: the kept maxima and
    their positions sorted by value, returned as [retind] asks. *)
Definition sort_kept (kept : list R * list nat) (retind : bool)
  : result (list R * option (list nat)) :=
  let ascending := np_argsort (fst kept) in
  maxima <- take (fst kept) ascending ;;
  maxima_indices <- take (snd kept) ascending ;;
  if retind then Ok (maxima, Some maxima_indices) else Ok (maxima, None).

End Crossings.

Arguments pyobj R : clear implicits.
Arguments PyFloat {R} v.
Arguments PyInt {R} z.
Arguments PyStr {R} s.

(** ** Autocorrelation *)

Section Autocorrelation.

Context {R : Type} `{Scalar R}.

(** [np.arange(n)] *)
Definition arange (n : nat) : list Z := map Z.of_nat (seq 0 n).

(** The inner function [r] of [autocorrelation], closed over [data],
    [n], [mean] and [c0]. *)
Definition acf_r (data : list R) (n : Z) (mean c0 : R) (h : Z) : R :=
  let head := map (fun a => fsub a mean) (slice data 0 (n - h)) in
  let tail := map (fun a => fsub a mean) (slice data h n) in
  let acf_lag := fdiv (fdiv (np_sum (zip_with fmul head tail)) (of_int n)) c0 in
  round3 acf_lag.

(** The values the returned [map] object yields, in order. *)
Definition autocorrelation (series : list R) : list R :=
  let n := length series in
  let data := series in
  let mean := np_mean data in
  let c0 := fdiv (np_sum (map (fun a => let d := fsub a mean in fmul d d) data))
                 (of_int (Z.of_nat n)) in
  let x := arange n in
  map (acf_r data (Z.of_nat n) mean c0) x.

End Autocorrelation.

(** ** Windowing *)

(** [str.lower] on ASCII letters. *)
Definition lower_ascii (c : ascii) : ascii :=
  let n := nat_of_ascii c in
  if ((65 <=? n) && (n <=? 90))%nat then ascii_of_nat (n + 32) else c.

Fixpoint lower (s : string) : string :=
  match s with
  | EmptyString => EmptyString
  | String c tl => String (lower_ascii c) (lower tl)
  end.

(** A numpy array as [smooth] sees it after [np.asarray]: the number of
    dimensions and the elements in storage order. *)
Record ndarray (R : Type) : Type := mk_ndarray {
  ndim : nat;
  flat : list R
}.

Arguments mk_ndarray {R} ndim flat.
Arguments ndim {R} n.
Arguments flat {R} n.

Definition size {R : Type} (a : ndarray R) : Z := Z.of_nat (length (flat a)).

Definition array1 {R : Type} (l : list R) : ndarray R := mk_ndarray 1%nat l.

Definition known_windows : list string :=
  ["rectangular"; "hanning"; "hamming"; "bartlett"; "blackman"]%string.

Section Windowing.

Context {R : Type} `{Scalar R}.

(** numpy functions the module calls and does not define:
    [np_named_window name n] is [eval('np.' + name + '(n)')] with whatever
    that raises, [np_kaiser n alpha] is [np.kaiser(n, alpha)]. *)
Variable np_named_window : string -> Z -> result (list R).
Variable np_kaiser : Z -> R -> result (list R).
Variables np_cos np_sin : R -> R.
Variable np_pi : R.

(** Division of Python floats. *)
Definition py_div (a b : R) : result R :=
  if feq b fzero then Raise ZeroDivisionError else Ok (fdiv a b).

(** The full discrete convolution, [out[k] = sum_j a[j] * v[k - j]], the
    products added from left to right; numpy accumulates them in an
    order of its own, so the rounding of a float64 entry can differ. *)
Definition conv_full (a v : list R) : list R :=
  let la := length a in
  let lv := length v in
  map (fun k =>
         np_sum (map (fun j => fmul (nth j a fzero) (nth (k - j) v fzero))
                     (seq (k + 1 - lv) (Nat.min k (la - 1) + 1 - (k + 1 - lv)))))
      (seq 0 (la + lv - 1)).

(** [np.convolve(a, v, mode)]: the longer operand first, then the part of
    the full convolution the mode keeps. *)
Definition np_convolve (a v : list R) (mode : string) : result (list R) :=
  match a, v with
  | [], _ | _, [] => Raise ValueError
  | _, _ =>
      let '(a, v) := if (length a <? length v)%nat then (v, a) else (a, v) in
      let la := Z.of_nat (length a) in
      let lv := Z.of_nat (length v) in
      let full := conv_full a v in
      if String.eqb mode "full" then Ok full
      else if String.eqb mode "valid" then Ok (slice full (lv - 1) la)
      else if String.eqb mode "same"
           then Ok (slice full ((lv - 1) / 2) ((lv - 1) / 2 + la))
      else Raise ValueError
  end.

Definition smooth (x : ndarray R) (window_len : Z) (window mode : string)
  : result (ndarray R) :=
  if negb (ndim x =? 1)%nat then Raise ValueError
  else if size x <? window_len then Raise ValueError
  else if window_len <? 3 then Ok x
  else if negb (existsb (String.eqb window) known_windows) then Raise ValueError
  else
    w <- (if String.eqb window "rectangular"
          then Ok (repeat fone (Z.to_nat window_len))
          else np_named_window window window_len) ;;
    let kernel := map (fun a => fdiv a (np_sum w)) w in
    let xs := flat x in
    if String.eqb mode "valid" then
      let s := slice_rev xs (window_len - 1) 0 ++ xs
               ++ slice_rev xs (-1) (- window_len) in
      y <- np_convolve kernel s mode ;;
      Ok (array1 y)
    else
      x_first <- getitem xs 0 ;;
      x_last <- getitem xs (-1) ;;
      let s := map (fun a => fsub (fmul (of_int 2) x_first) a)
                   (slice_rev xs window_len 1)
               ++ xs
               ++ map (fun a => fsub (fmul (of_int 2) x_last) a)
                      (slice_rev xs (-1) (- window_len)) in
      y <- np_convolve kernel s mode ;;
      Ok (array1 (slice y (window_len - 1) (- window_len + 1))).

(** The literal [0.5]. *)
Definition half : R := fdiv fone (of_int 2).

(** One pass of the Tukey loop: the value left in [w[i]] by the three
    consecutive [if] statements, starting from the zero of [np.zeros]. *)
Definition tukey_weight (alpha : R) (window_len i : Z) : result R :=
  let wl := of_int window_len in
  let fi := of_int i in
  let w := fzero in
  w <- (if (0 <=? i) && flt fi (fdiv (fmul alpha wl) (of_int 2)) then
          q <- py_div (of_int (2 * i)) (fmul alpha wl) ;;
          Ok (fmul half (fadd fone (np_cos (fmul np_pi (fsub q fone)))))
        else Ok w) ;;
  w <- (if fle (fdiv (fmul alpha wl) (of_int 2)) fi
           && fle fi (fmul wl (fsub fone (fdiv alpha (of_int 2))))
        then Ok fone else Ok w) ;;
  w <- (if flt (fmul wl (fsub fone (fdiv alpha (of_int 2)))) fi
           && (i <=? window_len) then
          q <- py_div (of_int (2 * i)) (fmul alpha wl) ;;
          q' <- py_div (of_int 2) alpha ;;
          Ok (fmul half
                   (fadd fone (np_cos (fmul np_pi (fadd (fsub q q') fone)))))
        else Ok w) ;;
  Ok w.

(** The window [w] chosen by [taper]. *)
Definition taper_window (window : string) (window_len : nat) (alpha : R)
  : result (list R) :=
  let wl := Z.of_nat window_len in
  if String.eqb window "rectangular" then Ok (repeat fone window_len)
  else if String.eqb window "tukey" then
    mapM (tukey_weight alpha wl) (map Z.of_nat (seq 0 window_len))
  else if String.eqb window "cosine" then
    Ok (map (fun n => np_sin (fdiv (fmul np_pi (of_int n)) (of_int (wl - 1))))
            (map Z.of_nat (seq 0 window_len)))
  else if String.eqb window "kaiser" then np_kaiser wl alpha
  else np_named_window window wl.

(** The result is the pair [(y, wcorr)]. *)
Definition taper (x : list R) (window : string) (alpha : R)
  : result (list R * R) :=
  let window_len := length x in
  let window := lower window in
  w <- taper_window window window_len alpha ;;
  y <- (if (length w =? length x)%nat then Ok (zip_with fmul x w)
        else Raise ValueError) ;;
  let wcorr := fdiv (np_sum (map (fun a => fmul a a) w))
                    (of_int (Z.of_nat window_len)) in
  Ok (y, wcorr).

End Windowing.

(** ** Frequency-domain filters *)

(** The input of a filter: a numpy array of real or of complex dtype, a
    complex number being the pair of its real and imaginary parts. *)
Inductive signal (R : Type) : Type :=
| RealSig (l : list R)
| ComplexSig (l : list (R * R)).

Arguments RealSig {R} l.
Arguments ComplexSig {R} l.

(** [int(pow(2, np.ceil(np.log(n) / np.log(2))))]: the least power of two
    not below [n]; for [n = 0] the logarithm is minus infinity and the
    power is 0.  The code takes the quotient of two float64 logarithms,
    which can round above an exact integer: at [n = 2^29] it pads to
    [2^30]. *)
Definition nfft_of (n : nat) : nat :=
  match n with
  | O => O
  | _ => (2 ^ Nat.log2_up n)%nat
  end.

Section Filters.

Context {R : Type} `{Scalar R}.

(** The transforms of [scipy.fftpack], of the given output length, and
    the modulus of a complex number ([abs] on a complex array). *)
Variables rfft irfft : list R -> nat -> list R.
Variables fft ifft : list (R * R) -> nat -> list (R * R).
Variable np_hypot : R -> R -> R.

Definition sig_size (x : signal R) : nat :=
  match x with
  | RealSig l => length l
  | ComplexSig l => length l
  end.

(** [np.all(np.isreal(x))] *)
Definition all_isreal (x : signal R) : bool :=
  match x with
  | RealSig _ => true
  | ComplexSig l => forallb (fun c => feq (snd c) fzero) l
  end.

(** The checks [scipy.fftpack] makes before transforming: [rfft] wants a
    real dtype, every transform wants at least one point. *)
Definition fftpack_rfft (x : signal R) (n : nat) : result (list R) :=
  match x with
  | ComplexSig _ => Raise TypeError
  | RealSig l => if (n <? 1)%nat then Raise ValueError else Ok (rfft l n)
  end.

Definition fftpack_irfft (a : list R) (n : nat) : result (list R) :=
  if (n <? 1)%nat then Raise ValueError else Ok (irfft a n).

Definition fftpack_fft (x : signal R) (n : nat) : result (list (R * R)) :=
  if (n <? 1)%nat then Raise ValueError
  else Ok (fft (match x with
                | RealSig l => map (fun a => (a, fzero)) l
                | ComplexSig l => l
                end) n).

Definition fftpack_ifft (a : list (R * R)) (n : nat) : result (list (R * R)) :=
  if (n <? 1)%nat then Raise ValueError else Ok (ifft a n).

(** [scipy.fftpack.rfftfreq(n, d)]:
    [(arange(1, n + 1, dtype=int) // 2) / float(n * d)] *)
Definition rfftfreq (n : nat) (d : R) : list R :=
  map (fun k => fdiv (of_int (Z.of_nat k / 2)) (fmul (of_int (Z.of_nat n)) d))
      (seq 1 n).

(** [fftfreq(n, d)]: the bins [0 .. (n-1)//2] then [-(n//2) .. -1],
    times [val = 1.0 / (n * d)].  [val] is computed first and on Python
    numbers: a product [n * d] equal to zero raises [ZeroDivisionError]. *)
Definition fftfreq (n : nat) (d : R) : result (list R) :=
  val <- py_div fone (fmul (of_int (Z.of_nat n)) d) ;;
  let N := ((n - 1) / 2 + 1)%nat in
  let results := map Z.of_nat (seq 0 (Nat.min N n))
                 ++ map (fun k => Z.of_nat k - Z.of_nat (n / 2)) (seq 0 (n - N)) in
  Ok (map (fun k => fmul (of_int k) val) results).

(** A complex array times a real one. *)
Definition cmul_real (fa : list (R * R)) (h : list R) : list (R * R) :=
  map (fun p => let '((re, im), g) := p in
                (fsub (fmul re g) (fmul im fzero),
                 fadd (fmul re fzero) (fmul im g)))
      (combine fa h).

(** Python's built-in [max] over a sequence. *)
Definition py_max (l : list R) : result R :=
  match l with
  | [] => Raise ValueError
  | a :: tl => Ok (fold_left (fun m v => if flt m v then v else m) tl a)
  end.

Definition zeros (n : nat) : list R := repeat fzero n.
Definition ones (n : nat) : list R := repeat fone n.

(** The gain masks [h] over the bin frequencies [f]. *)
Definition lowpass_mask (f : list R) (fc : R) : list R :=
  assign_where (zeros (length f)) (map (fun fi => fle (fabs fi) fc) f) fone.

Definition highpass_mask (f : list R) (fc : R) : list R :=
  assign_where (zeros (length f)) (map (fun fi => fle fc (fabs fi)) f) fone.

Definition band (f : list R) (flow fupp : R) : list bool :=
  map (fun fi => fle flow (fabs fi) && fle (fabs fi) fupp) f.

Definition bandpass_mask (f : list R) (flow fupp : R) : list R :=
  assign_where (zeros (length f)) (band f flow fupp) fone.

Definition bandblock_mask (f : list R) (flow fupp : R) : list R :=
  assign_where (ones (length f)) (band f flow fupp) fzero.

(** The mask of [threshold] over the amplitudes [abs(fa)]. *)
Definition threshold_mask (amp : list R) (lth uth : R) : result (list R) :=
  top <- py_max amp ;;
  Ok (assign_where (zeros (length amp))
                   (map (fun a => flt (fmul lth top) a && fle a (fmul uth top)) amp)
                   fone).

(** The two branches every filter ends with: transform, multiply by the
    mask built from the transform and its length, transform back, keep
    the first [n] samples. *)
Definition real_branch (x : signal R) (n nfft : nat)
           (mask : list R -> result (list R)) : result (signal R) :=
  fa <- fftpack_rfft x nfft ;;
  h <- mask fa ;;
  x1 <- fftpack_irfft (zip_with fmul fa h) nfft ;;
  Ok (RealSig (slice x1 0 (Z.of_nat n))).

Definition complex_branch (x : signal R) (n nfft : nat)
           (mask : list (R * R) -> result (list R)) : result (signal R) :=
  fa <- fftpack_fft x nfft ;;
  h <- mask fa ;;
  x1 <- fftpack_ifft (cmul_real fa h) nfft ;;
  Ok (ComplexSig (slice x1 0 (Z.of_nat n))).

Definition lowpass (x : signal R) (dt fc : R) : result (signal R) :=
  let fc := if feq fc fzero then feps else fc in
  let real_signal := all_isreal x in
  let n := sig_size x in
  let nfft := nfft_of n in
  if real_signal
  then real_branch x n nfft (fun _ => Ok (lowpass_mask (rfftfreq nfft dt) fc))
  else complex_branch x n nfft
         (fun _ => f <- fftfreq nfft dt ;; Ok (lowpass_mask f fc)).

Definition highpass (x : signal R) (dt fc : R) : result (signal R) :=
  let fc := if feq fc fzero then feps else fc in
  let real_signal := all_isreal x in
  let n := sig_size x in
  let nfft := nfft_of n in
  if real_signal
  then real_branch x n nfft (fun _ => Ok (highpass_mask (rfftfreq nfft dt) fc))
  else complex_branch x n nfft
         (fun _ => f <- fftfreq nfft dt ;; Ok (highpass_mask f fc)).

Definition bandpass (x : signal R) (dt flow fupp : R) : result (signal R) :=
  let real_signal := all_isreal x in
  let n := sig_size x in
  let nfft := nfft_of n in
  let flow := if feq flow fzero then feps else flow in
  let fupp := if feq fupp fzero then feps else fupp in
  if real_signal
  then real_branch x n nfft
         (fun _ => Ok (bandpass_mask (rfftfreq nfft dt) flow fupp))
  else complex_branch x n nfft
         (fun _ => f <- fftfreq nfft dt ;; Ok (bandpass_mask f flow fupp)).

Definition bandblock (x : signal R) (dt flow fupp : R) : result (signal R) :=
  let real_signal := all_isreal x in
  let n := sig_size x in
  let nfft := nfft_of n in
  let flow := if feq flow fzero then feps else flow in
  let fupp := if feq fupp fzero then feps else fupp in
  if real_signal
  then real_branch x n nfft
         (fun _ => Ok (bandblock_mask (rfftfreq nfft dt) flow fupp))
  else complex_branch x n nfft
         (fun _ => f <- fftfreq nfft dt ;; Ok (bandblock_mask f flow fupp)).

Definition threshold (x : signal R) (thresholds : R * R) : result (signal R) :=
  let real_signal := all_isreal x in
  let n := sig_size x in
  let nfft := nfft_of n in
  let '(lth, uth) := thresholds in
  if real_signal
  then real_branch x n nfft (fun fa => threshold_mask (map fabs fa) lth uth)
  else complex_branch x n nfft
         (fun fa => threshold_mask (map (fun c => np_hypot (fst c) (snd c)) fa)
                                   lth uth).

End Filters.

(** ** The transforms on one and two points

    On one point the discrete Fourier transform is the identity, on two
    points it is the sum and the difference; neither needs trigonometry,
    so both are exact in any scalar type.  They stand for
    [scipy.fftpack]'s transforms in the examples below, which all have at
    most two points.  As [scipy] does, the input is first cut or
    zero-padded to the requested length; past two points these
    definitions stop there and are not the Fourier transform. *)

Section SmallTransforms.

Context {R : Type} `{Scalar R}.

Definition resize {A : Type} (pad : A) (l : list A) (n : nat) : list A :=
  firstn n l ++ repeat pad (n - length l).

Definition cadd (a b : R * R) : R * R := (fadd (fst a) (fst b), fadd (snd a) (snd b)).
Definition csub (a b : R * R) : R * R := (fsub (fst a) (fst b), fsub (snd a) (snd b)).
Definition chalf (a : R * R) : R * R :=
  (fdiv (fst a) (of_int 2), fdiv (snd a) (of_int 2)).

Definition rfft2 (l : list R) (n : nat) : list R :=
  match resize fzero l n with
  | [a; b] => [fadd a b; fsub a b]
  | v => v
  end.

Definition irfft2 (l : list R) (n : nat) : list R :=
  match resize fzero l n with
  | [u; v] => [fdiv (fadd u v) (of_int 2); fdiv (fsub u v) (of_int 2)]
  | v => v
  end.

Definition fft2 (l : list (R * R)) (n : nat) : list (R * R) :=
  match resize (fzero, fzero) l n with
  | [a; b] => [cadd a b; csub a b]
  | v => v
  end.

Definition ifft2 (l : list (R * R)) (n : nat) : list (R * R) :=
  match resize (fzero, fzero) l n with
  | [u; v] => [chalf (cadd u v); chalf (csub u v)]
  | v => v
  end.

End SmallTransforms.

(** ** Arithmetic without round-off on small integers

    What the exact statements below ask of the scalars: counting by ones
    from zero up to [n] and dividing a positive integer up to [n] by
    itself give the expected integers.  float64 meets it for every [n] up
    to 2^53, the rationals for every [n]. *)

Definition counts_exactly {R : Type} `{Scalar R} (n : Z) : Prop :=
  of_int 0 = fzero
  /\ fmul fone fone = fone
  /\ (forall k, 0 <= k < n -> fadd (of_int k) fone = of_int (k + 1))
  /\ (forall m, 0 < m <= n -> fdiv (of_int m) (of_int m) = fone).

(** ** Shape of a filter's result *)

(** The call returned an array with as many samples as [x] and of the
    dtype of [x]. *)
Definition keeps_shape {R : Type} (x : signal R) (r : result (signal R)) : Prop :=
  match r with
  | Ok y =>
      match x, y with
      | RealSig l, RealSig l' => length l' = length l
      | ComplexSig l, ComplexSig l' => length l' = length l
      | _, _ => False
      end
  | Raise _ => False
  end.

(** Positions in strictly increasing order. *)
Fixpoint increasing (l : list nat) : Prop :=
  match l with
  | [] => True
  | a :: tl => Forall (fun b => (a < b)%nat) tl /\ increasing tl
  end.

(** ** Notions used to describe the maxima *)

Section PeakNotions.

Context {R : Type} `{Scalar R}.

(** [crossing_indices] as the global branch of [find_maxima] uses it: the
    up-crossings, followed by the last position of the signal when the
    last crossing comes before it.  The branch reads each pair of
    consecutive entries as the slice [x[start:stop]], [stop] excluded. *)
Definition closed_crossings (x : list R) : list nat :=
  let cp := crossing_positions x true in
  if Z.of_nat (last cp 0%nat) <? Z.of_nat (length x) - 1
  then cp ++ [(length x - 1)%nat]
  else cp.

(** The signal descends from position [k] to the next one. *)
Definition descends (x : list R) (k : nat) : bool :=
  match nth_error x k, nth_error x (S k) with
  | Some a, Some b => flt (fsub b a) fzero
  | _, _ => false
  end.

(** The signal does not descend into position [i] and descends out of
    it. *)
Definition turning_point (x : list R) (i : nat) : Prop :=
  (1 <= i)%nat
  /\ exists a b c,
      nth_error x (i - 1) = Some a
      /\ nth_error x i = Some b
      /\ nth_error x (i + 1) = Some c
      /\ flt (fsub b a) fzero = false
      /\ flt (fsub c b) fzero = true.

(** The samples are comparable with each other: none is a NaN, and [<=]
    is total and transitive on them. *)
Definition ordered_samples (x : list R) : Prop :=
  (forall a, In a x -> feq a a = true)
  /\ (forall a b, In a x -> In b x -> fle a b = true \/ fle b a = true)
  /\ (forall a b c, In a x -> In b x -> In c x ->
                    fle a b = true -> fle b c = true -> fle a c = true).

(** Position [j] lies in the window from [start] up to [stop], excluded,
    and no sample of the window is larger than the one at [j]. *)
Definition window_maximum (x : list R) (start stop j : nat) : Prop :=
  (start <= j < stop)%nat
  /\ forall p a b, (start <= p < stop)%nat ->
                   nth_error x p = Some a -> nth_error x j = Some b ->
                   fle a b = true.

End PeakNotions.

(** * Properties *)

(** ** The error monad and the array operations *)

Lemma getitem_nil {A : Type} (i : Z) : getitem (@nil A) i = Raise IndexError.
Proof.
  unfold getitem. cbn [length Z.of_nat].
  destruct (i <? 0) eqn:E.
  - replace (i + 0) with i by lia. rewrite E. reflexivity.
  - destruct (0 <=? i) eqn:E'; [now rewrite orb_true_r|]. apply Z.leb_gt in E'.
    apply Z.ltb_ge in E. lia.
Qed.

Lemma getitem_nat {A : Type} (l : list A) (i : nat) :
  getitem l (Z.of_nat i) =
  match nth_error l i with Some a => Ok a | None => Raise IndexError end.
Proof.
  unfold getitem. cbv zeta.
  assert (E : (Z.of_nat i <? 0) = false) by (apply Z.ltb_ge; lia).
  rewrite !E, Nat2Z.id. cbn [orb].
  destruct (Z.of_nat (length l) <=? Z.of_nat i) eqn:E'; [|reflexivity].
  apply Z.leb_le in E'.
  assert (Hn : nth_error l i = None) by (apply nth_error_None; lia).
  now rewrite Hn.
Qed.

Lemma sumZ_acc (l : list Z) (a : Z) : fold_left Z.add l a = a + sumZ l.
Proof.
  unfold sumZ. revert a. induction l as [|c l IH]; intros a; cbn.
  - lia.
  - rewrite IH, (IH c). lia.
Qed.

Lemma sumZ_cons (c : Z) (l : list Z) : sumZ (c :: l) = c + sumZ l.
Proof. unfold sumZ at 1. cbn. now rewrite sumZ_acc. Qed.

Lemma where_from_length (i : nat) (mask : list bool) :
  length (where_from i mask) = length (filter (fun b => b) mask).
Proof.
  revert i. induction mask as [|[|] m IH]; intros i; cbn; auto.
Qed.

(** The cleared difference holds [indicator] at the crossings and 0
    elsewhere, so its sum counts them with the sign of [indicator]. *)
Lemma cleared_sum (ind : Z) (d : list Z) :
  ind <> 0 ->
  let cr := map (fun c => if negb (c =? ind) then 0 else c) d in
  sumZ cr = ind * Z.of_nat (length (np_where (map (fun c => c =? ind) cr))).
Proof.
  intros Hind. cbn zeta. unfold np_where. generalize 0%nat.
  induction d as [|c d IH]; intros i; [cbn; lia|].
  cbn [map]. rewrite sumZ_cons.
  destruct (c =? ind) eqn:E; cbn [negb].
  - rewrite E. cbn [where_from length]. rewrite (IH (S i)).
    apply Z.eqb_eq in E. lia.
  - assert (E0 : (0 =? ind) = false) by (apply Z.eqb_neq; lia).
    rewrite E0. cbn [where_from]. rewrite (IH (S i)). lia.
Qed.

Section CrossingFacts.

Context {R : Type} `{Scalar R}.

Lemma crossings_sum (x : list R) (up : bool) :
  sumZ (crossings x up)
  = indicator up * Z.of_nat (length (crossing_positions x up)).
Proof.
  unfold crossing_positions. rewrite length_map.
  unfold crossings. apply cleared_sum. destruct up; cbn; lia.
Qed.

Lemma few_crossings_sum (x : list R) (up : bool) :
  (length (crossing_positions x up) < 2)%nat ->
  sumZ (crossings x up) < 2.
Proof.
  intros Hlt. rewrite crossings_sum. destruct up; cbn [indicator]; lia.
Qed.

(** With the direction [up = False] the sum is never positive. *)
Lemma down_sum_nonpositive (x : list R) : sumZ (crossings x false) <= 0.
Proof. rewrite crossings_sum. cbn [indicator]. lia. Qed.

Lemma average_frequency_no_crossing (t x : list R) (up : bool) :
  crossing_positions x up = [] ->
  average_frequency t x up = Raise IndexError.
Proof.
  intros E. unfold average_frequency. rewrite E, getitem_nil. reflexivity.
Qed.

Lemma average_frequency_one_crossing (t x : list R) (up : bool) (i : nat) :
  crossing_positions x up = [i] ->
  average_frequency t x up
  = (t_i <- getitem t (Z.of_nat i) ;;
     Ok (fdiv fone (fdiv (fsub t_i t_i) (of_int 0)))).
Proof.
  intros E. unfold average_frequency.
  rewrite crossings_sum, E. cbn [length].
  replace (Z.abs (indicator up * Z.of_nat 1) - 1) with 0
    by (destruct up; cbn; lia).
  cbn [getitem length Z.of_nat Z.ltb Z.compare Z.add Z.opp Pos.of_succ_nat
       Z.pos_sub orb Z.leb Z.to_nat nth_error bind].
  destruct (getitem t (Z.of_nat i)); reflexivity.
Qed.

End CrossingFacts.

(** In float64, the inverse of a zero or undefined duration over zero
    counted periods is the NaN. *)
Lemma float_sub_self (a : float) :
  Prim2SF (PrimFloat.sub a a) = S754_zero false
  \/ Prim2SF (PrimFloat.sub a a) = S754_nan.
Proof.
  rewrite FloatAxioms.sub_spec. destruct (Prim2SF a) as [s|s| |s m e]; cbn.
  - destruct s; auto.
  - destruct s; auto.
  - auto.
  - left. unfold SF64sub, SFsub. rewrite Z.sub_diag. reflexivity.
Qed.

Lemma float_inverse_of_undefined (a : float) :
  PrimFloat.div 1 (PrimFloat.div (PrimFloat.sub a a) 0) = nan.
Proof.
  apply Prim2SF_inj. rewrite !FloatAxioms.div_spec.
  destruct (float_sub_self a) as [E|E]; rewrite E; reflexivity.
Qed.

(** ** [average_frequency] and [find_maxima] at the crossing test *)

(** C1 (as amended).  With [up = True] and fewer than two up-crossings
    [average_frequency] never raises a dedicated error: without any
    up-crossing the access [i[-1]] raises [IndexError]; with exactly one
    up-crossing, at position [i], the call fails only if [t] has no
    position [i], and otherwise returns the float64 NaN, the inverse of
    [(t[i] - t[i]) / 0]. *)
Theorem average_frequency_few_crossings (t x : list float) :
  (length (crossing_positions x true) < 2)%nat ->
  average_frequency t x true
  = match crossing_positions x true with
    | [] => Raise IndexError
    | i :: _ => if (i <? length t)%nat then Ok nan else Raise IndexError
    end.
Proof.
  intros Hlt.
  destruct (crossing_positions x true) as [|i [|j tl]] eqn:E; cbn in Hlt;
    [| |lia].
  - now apply average_frequency_no_crossing.
  - rewrite (average_frequency_one_crossing t x true i E), getitem_nat.
    destruct (i <? length t)%nat eqn:Ei.
    + apply Nat.ltb_lt in Ei.
      destruct (nth_error t i) as [a|] eqn:Ea.
      * cbn [bind]. f_equal. apply float_inverse_of_undefined.
      * apply nth_error_None in Ea. lia.
    + apply Nat.ltb_ge in Ei.
      assert (Ea : nth_error t i = None) by now apply nth_error_None.
      now rewrite Ea.
Qed.

Lemma average_frequency_few_crossings_witness :
  (length (crossing_positions [1; 2; 0; 5]%float true) < 2)%nat
  /\ average_frequency [0; 0.5; 1; 1.5]%float [1; 2; 0; 5]%float true = Ok nan.
Proof.
  split.
  - vm_compute. lia.
  - apply (average_frequency_few_crossings [0; 0.5; 1; 1.5]%float
             [1; 2; 0; 5]%float).
    vm_compute. lia.
Defined.

(** C1, counterexample.  The signal rises through its mean once, between
    positions 1 and 2; the call returns the NaN instead of failing. *)
Lemma average_frequency_single_crossing_returns :
  crossing_positions [-1; -1; 1; 1]%float true = [2%nat]
  /\ average_frequency [0; 1; 2; 3]%float [-1; -1; 1; 1]%float true = Ok nan.
Proof. split; reflexivity. Qed.

(** With [up = False] the positions collected are those where the signal
    leaves the negative side.  The first signal below falls through its
    mean once and is counted two crossings; the second falls twice and
    is counted one. *)
Lemma average_frequency_down_direction_counts_rises :
  average_frequency [0; 1; 2; 3]%float [-1; 1; -1; 1]%float false
  = Ok 0.5%float
  /\ average_frequency [0; 1; 2; 3]%float [1; -1; 1; -1]%float false = Ok nan.
Proof. split; reflexivity. Qed.

(** C2 (as amended).  With [up = True] and fewer than two up-crossings,
    and with [up = False] on every signal, [find_maxima] returns the
    empty maxima array, with an empty position array when [retind] is
    set, whatever the other arguments; it does not raise.  On the same
    condition, with [up = True], [average_frequency] has no failure of
    its own to set against it: without an up-crossing it raises
    [IndexError], and with exactly one, at a position [t] has, it
    returns a value, the inverse of [(t[i] - t[i]) / 0]. *)
Theorem find_maxima_few_crossings {R : Type} `{Scalar R} (x : list R)
        (local : bool) (threshold : option (pyobj R)) (up retind : bool) :
  (up = true -> (length (crossing_positions x true) < 2)%nat) ->
  find_maxima x local threshold up retind
  = Ok ([], if retind then Some [] else None)
  /\ (up = true ->
      match crossing_positions x true with
      | [] => forall t, average_frequency t x true = Raise IndexError
      | i :: _ =>
          forall t a,
            nth_error t i = Some a ->
            average_frequency t x true
            = Ok (fdiv fone (fdiv (fsub a a) (of_int 0)))
      end).
Proof.
  intros Hfew. split.
  - unfold find_maxima.
    assert (E : (sumZ (crossings x up) <? 2) = true).
    { apply Z.ltb_lt. destruct up.
      - now apply few_crossings_sum, Hfew.
      - pose proof (down_sum_nonpositive x). lia. }
    rewrite E. now destruct retind.
  - intros Hup. specialize (Hfew Hup).
    destruct (crossing_positions x true) as [|i [|j tl]] eqn:E;
      cbn in Hfew; [| |lia].
    + intros t. now apply average_frequency_no_crossing.
    + intros t a Ea.
      rewrite (average_frequency_one_crossing t x true i E), getitem_nat, Ea.
      reflexivity.
Qed.

Lemma find_maxima_few_crossings_witness :
  (length (crossing_positions [0; 3; 1; 0.5]%float true) < 2)%nat
  /\ find_maxima [0; 3; 1; 0.5]%float true (Some (PyFloat 0.5%float)) true true
     = Ok ([], Some [])
  /\ find_maxima [0; 3; 1; 0.5]%float false None false true
     = Ok ([], Some [])
  /\ average_frequency [0; 1; 2; 3]%float [0; 3; 1; 0.5]%float true = Ok nan.
Proof.
  assert (Hfew : true = true ->
                 (length (crossing_positions [0; 3; 1; 0.5]%float true) < 2)%nat)
    by (intros _; vm_compute; lia).
  split; [now apply Hfew|]. split; [|split].
  - exact (proj1 (find_maxima_few_crossings [0; 3; 1; 0.5]%float true
                    (Some (PyFloat 0.5%float)) true true Hfew)).
  - refine (proj1 (find_maxima_few_crossings [0; 3; 1; 0.5]%float false
                     None false true _)).
    discriminate.
  - exact (proj2 (find_maxima_few_crossings [0; 3; 1; 0.5]%float true
                    None true true Hfew) eq_refl
                 [0; 1; 2; 3]%float 1%float eq_refl).
Defined.

(** C2, counterexample.  The signal rises through its mean once, at
    position 2: [find_maxima] returns the empty result, and
    [average_frequency] returns too, the NaN, where the claim has it
    fail. *)
Lemma average_frequency_returns_where_find_maxima_is_empty :
  crossing_positions [-2; -1; 3]%float true = [2%nat]
  /\ find_maxima [-2; -1; 3]%float false None true false = Ok ([], None)
  /\ average_frequency [0; 1; 2]%float [-2; -1; 3]%float true = Ok nan.
Proof. repeat split; reflexivity. Qed.

(** C3.  The signal below rises through its mean at positions 1 and 3,
    the last one being the last sample.  No closing position is appended,
    the loop fills one of the two preallocated slots, and the other one
    is returned as it was allocated: value [0.0] at position [0], although
    [x[0]] is [-1.0] and is no maximum of any kind. *)
Theorem find_maxima_returns_unfilled_slot :
  crossing_positions [-1; 1; -1; 1]%float true = [1%nat; 3%nat]
  /\ find_maxima [-1; 1; -1; 1]%float false None true true
     = Ok ([0; 1]%float, Some [0%nat; 1%nat])
  /\ nth_error [-1; 1; -1; 1]%float 0 = Some (-1)%float.
Proof. repeat split; reflexivity. Qed.

(** ** [autocorrelation] *)

(** C4.  The lags run over [np.arange(n)], from 0 to [n - 1]: the result
    has [n] entries, not [n - 1], and the first one is the coefficient of
    lag 0. *)
Theorem autocorrelation_includes_lag_zero :
  (forall series : list float,
      length (autocorrelation series) = length series)
  /\ autocorrelation [1; 2; 3]%float = [1; 0; -0.5]%float.
Proof.
  split.
  - intros series. unfold autocorrelation, arange.
    now rewrite !length_map, length_seq.
  - reflexivity.
Qed.

(** ** [smooth] *)

Lemma existsb_eqb_In (w : string) (l : list string) :
  existsb (String.eqb w) l = true <-> In w l.
Proof.
  rewrite existsb_exists. split.
  - intros [v [Hin E]]. apply String.eqb_eq in E. now subst.
  - intros Hin. exists w. split; [assumption|apply String.eqb_refl].
Qed.

(** C7 (as amended).  A window name outside the known set makes [smooth]
    raise [ValueError] unless the call has already returned: a 1-D input
    at least as long as a window shorter than 3 is returned unchanged
    before the name is looked at.  In every other case the call raises
    [ValueError], for the name or for one of the two earlier checks. *)
Theorem smooth_unknown_window {R : Type} `{Scalar R}
        (np_named_window : string -> Z -> result (list R))
        (x : ndarray R) (window_len : Z) (window mode : string) :
  ~ In window known_windows ->
  smooth np_named_window x window_len window mode
  = if (ndim x =? 1)%nat && (window_len <=? size x) && (window_len <? 3)
    then Ok x else Raise ValueError.
Proof.
  intros Hw. unfold smooth.
  destruct (ndim x =? 1)%nat; cbn [negb andb]; [|reflexivity].
  rewrite Z.leb_antisym.
  destruct (size x <? window_len); cbn [negb andb]; [reflexivity|].
  destruct (window_len <? 3); [reflexivity|].
  destruct (existsb (String.eqb window) known_windows) eqn:E; [|reflexivity].
  apply existsb_eqb_In in E. contradiction.
Qed.

Lemma smooth_unknown_window_witness :
  ~ In "triangular"%string known_windows
  /\ smooth (fun _ _ => Raise AttributeError) (array1 [1; 2; 3; 4]%float) 3
           "triangular" "same"
     = Raise ValueError.
Proof.
  assert (Hw : ~ In "triangular"%string known_windows)
    by (cbn; intuition discriminate).
  split; [exact Hw|].
  exact (smooth_unknown_window (fun _ _ => Raise AttributeError)
           (array1 [1; 2; 3; 4]%float) 3 "triangular" "same" Hw).
Defined.

(** C7, counterexample.  With [window_len = 2] the unknown name
    "triangular" raises nothing, whatever numpy's window functions are:
    the three samples come back. *)
Lemma smooth_unknown_window_not_checked :
  (fun np_named_window =>
     smooth np_named_window (array1 [1; 2; 3]%float) 2 "triangular" "same")
  = (fun _ => Ok (array1 [1; 2; 3]%float)).
Proof. reflexivity. Qed.

(** C10.  A 1-D input at least as long as a window shorter than 3 comes
    back unchanged for every window name and every mode: neither is
    looked at. *)
Theorem smooth_short_window_is_identity {R : Type} `{Scalar R}
        (np_named_window : string -> Z -> result (list R))
        (x : ndarray R) (window_len : Z) (window mode : string) :
  ndim x = 1%nat ->
  window_len <= size x ->
  window_len < 3 ->
  smooth np_named_window x window_len window mode = Ok x.
Proof.
  intros Hdim Hsize Hlen. unfold smooth.
  rewrite Hdim. cbn [Nat.eqb negb].
  assert (E1 : (size x <? window_len) = false) by (apply Z.ltb_ge; lia).
  assert (E2 : (window_len <? 3) = true) by (apply Z.ltb_lt; lia).
  now rewrite E1, E2.
Qed.

Lemma smooth_short_window_is_identity_witness :
  smooth (fun _ _ => Raise AttributeError) (array1 [4; 5; 6]%float) 2
         "no such window" "no such mode"
  = Ok (array1 [4; 5; 6]%float).
Proof.
  apply (smooth_short_window_is_identity (fun _ _ => Raise AttributeError)
           (array1 [4; 5; 6]%float) 2 "no such window" "no such mode").
  - reflexivity.
  - vm_compute. discriminate.
  - lia.
Defined.

(** ** [taper] *)

Section TaperFacts.

Context {R : Type} `{Scalar R}.

Lemma zip_with_ones (x : list R) :
  Forall (fun a => fmul a fone = a) x ->
  zip_with fmul x (repeat fone (length x)) = x.
Proof.
  induction 1 as [|a x Ha _ IH]; cbn; [reflexivity|]. now rewrite Ha, IH.
Qed.

Lemma count_ones (n : Z) (k : nat) (j : Z) :
  (forall i, 0 <= i < n -> fadd (of_int i) fone = of_int (i + 1)) ->
  0 <= j -> j + Z.of_nat k <= n ->
  fold_left fadd (repeat fone k) (of_int j) = of_int (j + Z.of_nat k).
Proof.
  intros Hcount. revert j. induction k as [|k IH]; intros j Hj Hle.
  - cbn. f_equal. lia.
  - cbn [repeat fold_left]. rewrite Hcount by lia. rewrite IH by lia.
    f_equal. lia.
Qed.

Lemma sum_of_ones (n : nat) :
  counts_exactly (Z.of_nat n) -> np_sum (repeat fone n) = of_int (Z.of_nat n).
Proof.
  intros (Hzero & _ & Hcount & _). unfold np_sum. rewrite <- Hzero.
  rewrite (count_ones (Z.of_nat n)); [reflexivity|assumption|lia|lia].
Qed.

Lemma squares_of_ones (n : nat) :
  fmul fone fone = fone ->
  map (fun a : R => fmul a a) (repeat fone n) = repeat fone n.
Proof. intros Hone. rewrite map_repeat. now rewrite Hone. Qed.

End TaperFacts.

(** The rationals count exactly up to every bound. *)
Lemma exact_of_int_succ (k : Z) :
  fadd (Exact.of_int k) fone = Exact.of_int (k + 1).
Proof.
  cbn [fadd fone rationals]. unfold Exact.of_int.
  apply Qc_is_canon. unfold Qcplus, Q2Qc. cbn [this].
  rewrite !Qred_correct. rewrite inject_Z_plus. reflexivity.
Qed.

Lemma exact_of_int_ratio (m : Z) :
  0 < m -> fdiv (Exact.of_int m) (Exact.of_int m) = fone.
Proof.
  intros Hm. cbn [fdiv fone rationals].
  apply Qcmult_inv_r. intros E. apply (f_equal this) in E.
  unfold Exact.of_int, Q2Qc in E. cbn [this] in E.
  assert (E' : Qred (inject_Z m) == Qred 0) by now rewrite E.
  rewrite !Qred_correct in E'. unfold Qeq, inject_Z in E'. cbn in E'. lia.
Qed.

Lemma rationals_count_exactly (n : Z) : counts_exactly (R := Qc) n.
Proof.
  repeat split.
  - intros k _. apply exact_of_int_succ.
  - intros m [Hm _]. now apply exact_of_int_ratio.
Qed.

(** C9 (as amended).  For every window, the correction factor [taper]
    returns is [sum(w^2) / length] of the window it used.  For a
    non-empty signal whose samples are unchanged by a product with 1.0,
    and of a length up to which the scalars count without round-off, the
    rectangular window returns the signal itself and the factor 1.0. *)
Theorem taper_rectangular {R : Type} `{Scalar R}
        (np_named_window : string -> Z -> result (list R))
        (np_kaiser : Z -> R -> result (list R))
        (np_cos np_sin : R -> R) (np_pi : R) (x : list R) (alpha : R) :
  x <> [] ->
  Forall (fun a => fmul a fone = a) x ->
  counts_exactly (Z.of_nat (length x)) ->
  taper np_named_window np_kaiser np_cos np_sin np_pi x "rectangular" alpha
  = Ok (x, fone)
  /\ forall window y wcorr,
      taper np_named_window np_kaiser np_cos np_sin np_pi x window alpha
      = Ok (y, wcorr) ->
      exists w,
        taper_window np_named_window np_kaiser np_cos np_sin np_pi
                     (lower window) (length x) alpha = Ok w
        /\ y = zip_with fmul x w
        /\ wcorr = fdiv (np_sum (map (fun a => fmul a a) w))
                        (of_int (Z.of_nat (length x))).
Proof.
  intros Hne Hunit Hexact. split.
  - unfold taper. change (lower "rectangular") with "rectangular"%string.
    unfold taper_window. rewrite String.eqb_refl. cbn [bind].
    rewrite repeat_length, Nat.eqb_refl. cbn [bind].
    rewrite zip_with_ones by assumption.
    destruct Hexact as (Hzero & Hone & Hcount & Hratio).
    rewrite squares_of_ones by assumption.
    rewrite sum_of_ones by (repeat split; assumption).
    rewrite Hratio; [reflexivity|].
    destruct x; [contradiction|]. cbn [length]. lia.
  - intros window y wcorr. unfold taper.
    destruct (taper_window _ _ _ _ _ (lower window) (length x) alpha)
      as [w|e]; cbn [bind]; [|discriminate].
    destruct (length w =? length x)%nat; cbn [bind]; [|discriminate].
    intros E. injection E as Ey Ew. exists w. now subst.
Qed.

Lemma taper_rectangular_witness :
  taper (fun _ _ => Raise AttributeError) (fun _ _ => Raise AttributeError)
        (fun a => a) (fun a => a) 3%float
        [1.5; -2; 0.25]%float "rectangular" 0.5%float
  = Ok ([1.5; -2; 0.25]%float, 1%float).
Proof.
  refine (proj1 (taper_rectangular (fun _ _ => Raise AttributeError)
                  (fun _ _ => Raise AttributeError) (fun a => a) (fun a => a)
                  3%float [1.5; -2; 0.25]%float 0.5%float _ _ _)).
  - discriminate.
  - repeat constructor.
  - repeat split.
    + intros k Hk. cbn [length Z.of_nat Pos.of_succ_nat Pos.succ] in Hk.
      assert (E : k = 0 \/ k = 1 \/ k = 2) by lia.
      destruct E as [E|[E|E]]; subst k; reflexivity.
    + intros m Hm. cbn [length Z.of_nat Pos.of_succ_nat Pos.succ] in Hm.
      assert (E : m = 1 \/ m = 2 \/ m = 3) by lia.
      destruct E as [E|[E|E]]; subst m; reflexivity.
Defined.

(** C9, counterexample.  On the empty signal the factor is [0.0 / 0],
    the NaN, whatever numpy's window functions are. *)
Lemma taper_rectangular_empty_signal :
  (fun np_named_window np_kaiser np_cos np_sin np_pi =>
     taper np_named_window np_kaiser np_cos np_sin np_pi
           (@nil float) "rectangular" 0.5%float)
  = (fun _ _ _ _ _ => Ok ([], nan)).
Proof. reflexivity. Qed.

(** ** The filters *)

Lemma nfft_of_ge (n : nat) : (n <= nfft_of n)%nat.
Proof.
  destruct n as [|[|n]]; cbn [nfft_of]; [lia|cbn; lia|].
  apply Nat.log2_up_spec. lia.
Qed.

Lemma nfft_of_pos (n : nat) : n <> 0%nat -> (nfft_of n <? 1)%nat = false.
Proof. intros Hn. apply Nat.ltb_ge. pose proof (nfft_of_ge n). lia. Qed.

Lemma slice_prefix {A : Type} (l : list A) (n : nat) :
  slice l 0 (Z.of_nat n) = firstn n l.
Proof.
  unfold slice, clamp_fwd. cbn [Z.ltb Z.compare].
  assert (E : (Z.of_nat n <? 0) = false) by (apply Z.ltb_ge; lia).
  rewrite !E.
  assert (E0 : (Z.of_nat (length l) <? 0) = false) by (apply Z.ltb_ge; lia).
  rewrite E0. cbn [Z.to_nat skipn].
  destruct (Z.of_nat (length l) <? Z.of_nat n) eqn:E1.
  - apply Z.ltb_lt in E1. rewrite Z.sub_0_r, Nat2Z.id.
    rewrite firstn_all. symmetry. apply firstn_all2. lia.
  - now rewrite Z.sub_0_r, Nat2Z.id.
Qed.

Lemma slice_prefix_length {A : Type} (l : list A) (n : nat) :
  (n <= length l)%nat -> length (slice l 0 (Z.of_nat n)) = n.
Proof. intros Hle. rewrite slice_prefix, length_firstn. lia. Qed.

Lemma assign_where_length {A : Type} (h : list A) (cond : list bool) (v : A) :
  length (assign_where h cond v) = length h.
Proof.
  revert cond. induction h as [|a h IH]; intros [|c cs]; cbn; auto.
Qed.

Section FilterFacts.

Context {R : Type} `{Scalar R}.

Variables rfft irfft : list R -> nat -> list R.
Variables fft ifft : list (R * R) -> nat -> list (R * R).
Variable np_hypot : R -> R -> R.

Hypothesis rfft_length : forall a n, length (rfft a n) = n.
Hypothesis irfft_length : forall a n, length (irfft a n) = n.
Hypothesis fft_length : forall a n, length (fft a n) = n.
Hypothesis ifft_length : forall a n, length (ifft a n) = n.

Lemma real_branch_shape (l : list R) (mask : list R -> result (list R)) :
  l <> [] ->
  (forall fa, fa <> [] -> exists h, mask fa = Ok h) ->
  keeps_shape (RealSig l)
    (real_branch rfft irfft (RealSig l) (length l) (nfft_of (length l)) mask).
Proof.
  intros Hne Hmask. unfold real_branch, fftpack_rfft, fftpack_irfft.
  assert (Hn : length l <> 0%nat) by (destruct l; [contradiction|discriminate]).
  rewrite (nfft_of_pos _ Hn). cbn [bind].
  destruct (Hmask (rfft l (nfft_of (length l)))) as [h Eh].
  { intros E. pose proof (rfft_length l (nfft_of (length l))) as Hl.
    rewrite E in Hl. cbn in Hl. pose proof (nfft_of_ge (length l)). lia. }
  rewrite Eh. cbn [bind keeps_shape].
  apply slice_prefix_length. rewrite irfft_length. apply nfft_of_ge.
Qed.

Lemma complex_branch_shape (l : list (R * R)) (mask : list (R * R) -> result (list R)) :
  l <> [] ->
  (forall fa, fa <> [] -> exists h, mask fa = Ok h) ->
  keeps_shape (ComplexSig l)
    (complex_branch fft ifft (ComplexSig l) (length l) (nfft_of (length l)) mask).
Proof.
  intros Hne Hmask. unfold complex_branch, fftpack_fft, fftpack_ifft.
  assert (Hn : length l <> 0%nat) by (destruct l; [contradiction|discriminate]).
  rewrite (nfft_of_pos _ Hn). cbn [bind].
  destruct (Hmask (fft l (nfft_of (length l)))) as [h Eh].
  { intros E. pose proof (fft_length l (nfft_of (length l))) as Hl.
    rewrite E in Hl. cbn in Hl. pose proof (nfft_of_ge (length l)). lia. }
  rewrite Eh. cbn [bind keeps_shape].
  apply slice_prefix_length. rewrite ifft_length. apply nfft_of_ge.
Qed.

Lemma threshold_mask_returns (amp : list R) (lth uth : R) :
  amp <> [] -> exists h, threshold_mask amp lth uth = Ok h.
Proof.
  intros Hne. destruct amp as [|a amp]; [contradiction|].
  unfold threshold_mask, py_max. cbn [bind]. eauto.
Qed.

Lemma map_not_nil {A B : Type} (f : A -> B) (l : list A) :
  l <> [] -> map f l <> [].
Proof. destruct l; [contradiction|discriminate]. Qed.

Lemma fftfreq_returns (n : nat) (d : R) :
  feq (fmul (of_int (Z.of_nat n)) d) fzero = false ->
  exists f, fftfreq n d = Ok f.
Proof.
  intros E. unfold fftfreq, py_div. rewrite E. cbn [bind]. eauto.
Qed.

Lemma fftfreq_zero_step (n : nat) (d : R) :
  feq (fmul (of_int (Z.of_nat n)) d) fzero = true ->
  fftfreq n d = Raise ZeroDivisionError.
Proof. intros E. unfold fftfreq, py_div. now rewrite E. Qed.

Lemma complex_branch_zero_step (l : list (R * R)) (dt : R)
      (mask : list R -> list R) :
  l <> [] ->
  feq (fmul (of_int (Z.of_nat (nfft_of (length l)))) dt) fzero = true ->
  complex_branch fft ifft (ComplexSig l) (length l) (nfft_of (length l))
    (fun _ => f <- fftfreq (nfft_of (length l)) dt ;; Ok (mask f))
  = Raise ZeroDivisionError.
Proof.
  intros Hne E. unfold complex_branch, fftpack_fft.
  assert (Hn : length l <> 0%nat) by (destruct l; [contradiction|discriminate]).
  rewrite (nfft_of_pos _ Hn). cbn [bind].
  now rewrite (fftfreq_zero_step _ _ E).
Qed.

(** A signal the filters send down one of their two branches: stored
    with a real dtype, or with a complex dtype and a non-zero imaginary
    part somewhere.  On the complex branch the four frequency filters
    call [fftfreq], which refuses a time step with [nfft * dt == 0]. *)
Lemma filter_shapes (x : signal R) (dt fc flow fupp : R) (thresholds : R * R) :
  sig_size x <> 0%nat ->
  (forall l, x = ComplexSig l -> all_isreal x = false) ->
  keeps_shape x (threshold rfft irfft fft ifft np_hypot x thresholds)
  /\ ((forall l, x = ComplexSig l ->
                 feq (fmul (of_int (Z.of_nat (nfft_of (sig_size x)))) dt) fzero
                 = false) ->
      keeps_shape x (lowpass rfft irfft fft ifft x dt fc)
      /\ keeps_shape x (highpass rfft irfft fft ifft x dt fc)
      /\ keeps_shape x (bandpass rfft irfft fft ifft x dt flow fupp)
      /\ keeps_shape x (bandblock rfft irfft fft ifft x dt flow fupp))
  /\ (forall l, x = ComplexSig l ->
                feq (fmul (of_int (Z.of_nat (nfft_of (sig_size x)))) dt) fzero
                = true ->
                lowpass rfft irfft fft ifft x dt fc = Raise ZeroDivisionError
                /\ highpass rfft irfft fft ifft x dt fc
                   = Raise ZeroDivisionError
                /\ bandpass rfft irfft fft ifft x dt flow fupp
                   = Raise ZeroDivisionError
                /\ bandblock rfft irfft fft ifft x dt flow fupp
                   = Raise ZeroDivisionError).
Proof.
  intros Hn Hc. destruct thresholds as [lth uth].
  unfold lowpass, highpass, bandpass, bandblock, threshold.
  destruct x as [l|l]; cbn [sig_size] in *.
  - assert (Hne : l <> []) by (intros ->; now apply Hn).
    cbn [all_isreal]. split; [|split].
    + apply real_branch_shape; [assumption|].
      intros fa Hfa. apply threshold_mask_returns. now apply map_not_nil.
    + intros _. repeat split; apply real_branch_shape; try assumption; eauto.
    + intros l' E. discriminate.
  - assert (Hne : l <> []) by (intros ->; now apply Hn).
    rewrite (Hc l eq_refl). split; [|split].
    + apply complex_branch_shape; [assumption|].
      intros fa Hfa. apply threshold_mask_returns. now apply map_not_nil.
    + intros Hdt. specialize (Hdt l eq_refl).
      destruct (fftfreq_returns _ _ Hdt) as [f Ef].
      repeat split; apply complex_branch_shape; try assumption;
        intros fa Hfa; rewrite Ef; cbn [bind]; eauto.
    + intros l' _ Hdt.
      repeat split; now apply complex_branch_zero_step.
Qed.

End FilterFacts.

Section TransformFacts.

Context {R : Type} `{Scalar R}.

Lemma resize_length {A : Type} (pad : A) (l : list A) (n : nat) :
  length (resize pad l n) = n.
Proof.
  unfold resize. rewrite length_app, length_firstn, repeat_length. lia.
Qed.

Lemma rfft2_length (a : list R) (n : nat) : length (rfft2 a n) = n.
Proof.
  unfold rfft2. rewrite <- (resize_length fzero a n) at 2.
  now destruct (resize fzero a n) as [|u [|v [|w l]]].
Qed.

Lemma irfft2_length (a : list R) (n : nat) : length (irfft2 a n) = n.
Proof.
  unfold irfft2. rewrite <- (resize_length fzero a n) at 2.
  now destruct (resize fzero a n) as [|u [|v [|w l]]].
Qed.

Lemma fft2_length (a : list (R * R)) (n : nat) : length (fft2 a n) = n.
Proof.
  unfold fft2. rewrite <- (resize_length (fzero, fzero) a n) at 2.
  now destruct (resize (fzero, fzero) a n) as [|u [|v [|w l]]].
Qed.

Lemma ifft2_length (a : list (R * R)) (n : nat) : length (ifft2 a n) = n.
Proof.
  unfold ifft2. rewrite <- (resize_length (fzero, fzero) a n) at 2.
  now destruct (resize (fzero, fzero) a n) as [|u [|v [|w l]]].
Qed.

End TransformFacts.

(** C6 (as amended).  With transforms that return the requested number
    of points, for a non-empty signal stored as real, or stored as
    complex with a non-zero imaginary part somewhere: [threshold]
    returns an array of the length of the signal and of its dtype, real
    for a real signal and complex for a complex one; [lowpass],
    [highpass], [bandpass] and [bandblock] do the same, except that on
    the complex signal a time step with [nfft * dt == 0] makes each of
    them raise [ZeroDivisionError], from [fftfreq]. *)
Theorem filters_keep_length_and_dtype {R : Type} `{Scalar R}
        (rfft irfft : list R -> nat -> list R)
        (fft ifft : list (R * R) -> nat -> list (R * R))
        (np_hypot : R -> R -> R)
        (x : signal R) (dt fc flow fupp : R) (thresholds : R * R) :
  (forall a n, length (rfft a n) = n) ->
  (forall a n, length (irfft a n) = n) ->
  (forall a n, length (fft a n) = n) ->
  (forall a n, length (ifft a n) = n) ->
  sig_size x <> 0%nat ->
  (forall l, x = ComplexSig l -> all_isreal x = false) ->
  keeps_shape x (threshold rfft irfft fft ifft np_hypot x thresholds)
  /\ ((forall l, x = ComplexSig l ->
                 feq (fmul (of_int (Z.of_nat (nfft_of (sig_size x)))) dt) fzero
                 = false) ->
      keeps_shape x (lowpass rfft irfft fft ifft x dt fc)
      /\ keeps_shape x (highpass rfft irfft fft ifft x dt fc)
      /\ keeps_shape x (bandpass rfft irfft fft ifft x dt flow fupp)
      /\ keeps_shape x (bandblock rfft irfft fft ifft x dt flow fupp))
  /\ (forall l, x = ComplexSig l ->
                feq (fmul (of_int (Z.of_nat (nfft_of (sig_size x)))) dt) fzero
                = true ->
                lowpass rfft irfft fft ifft x dt fc = Raise ZeroDivisionError
                /\ highpass rfft irfft fft ifft x dt fc
                   = Raise ZeroDivisionError
                /\ bandpass rfft irfft fft ifft x dt flow fupp
                   = Raise ZeroDivisionError
                /\ bandblock rfft irfft fft ifft x dt flow fupp
                   = Raise ZeroDivisionError).
Proof. intros. now apply filter_shapes. Qed.

Lemma filters_keep_length_and_dtype_witness :
  let x := ComplexSig [(1, 2); (0.5, -1)]%float in
  let hypot := fun a b : float => PrimFloat.sqrt (a * a + b * b)%float in
  (keeps_shape x (threshold rfft2 irfft2 fft2 ifft2 hypot x (0, 1))%float
   /\ keeps_shape x (lowpass rfft2 irfft2 fft2 ifft2 x 0.5 1)%float
   /\ keeps_shape x (highpass rfft2 irfft2 fft2 ifft2 x 0.5 1)%float
   /\ keeps_shape x (bandpass rfft2 irfft2 fft2 ifft2 x 0.5 0.25 2)%float
   /\ keeps_shape x (bandblock rfft2 irfft2 fft2 ifft2 x 0.5 0.25 2)%float)
  /\ ((lowpass rfft2 irfft2 fft2 ifft2 x 0 1)%float = Raise ZeroDivisionError
      /\ (highpass rfft2 irfft2 fft2 ifft2 x 0 1)%float
         = Raise ZeroDivisionError
      /\ (bandpass rfft2 irfft2 fft2 ifft2 x 0 0.25 2)%float
         = Raise ZeroDivisionError
      /\ (bandblock rfft2 irfft2 fft2 ifft2 x 0 0.25 2)%float
         = Raise ZeroDivisionError).
Proof.
  cbv zeta.
  assert (Hx : sig_size (ComplexSig [(1, 2); (0.5, -1)]%float) <> 0%nat)
    by discriminate.
  assert (Hc : forall l, ComplexSig [(1, 2); (0.5, -1)]%float = ComplexSig l ->
                         all_isreal (ComplexSig [(1, 2); (0.5, -1)]%float)
                         = false)
    by (intros l _; reflexivity).
  split.
  - destruct (filters_keep_length_and_dtype rfft2 irfft2 fft2 ifft2
                (fun a b : float => PrimFloat.sqrt (a * a + b * b)%float)
                (ComplexSig [(1, 2); (0.5, -1)]%float)
                0.5%float 1%float 0.25%float 2%float (0%float, 1%float)
                rfft2_length irfft2_length fft2_length ifft2_length Hx Hc)
      as (Hthr & Hkeep & _).
    split; [exact Hthr|].
    destruct (Hkeep (fun l _ => eq_refl)) as (Hl & Hh & Hp & Hb).
    repeat split; assumption.
  - destruct (filters_keep_length_and_dtype rfft2 irfft2 fft2 ifft2
                (fun a b : float => PrimFloat.sqrt (a * a + b * b)%float)
                (ComplexSig [(1, 2); (0.5, -1)]%float)
                0%float 1%float 0.25%float 2%float (0%float, 1%float)
                rfft2_length irfft2_length fft2_length ifft2_length Hx Hc)
      as (_ & _ & Hzero).
    exact (Hzero _ eq_refl eq_refl).
Defined.

(** C6, counterexample.  The two-sample signal [i, -i] comes back from
    every filter with its imaginary parts: the result is a complex
    array, not a real-valued one. *)
Lemma filters_return_complex_samples :
  let x := ComplexSig [(0, 1); (0, -1)]%float in
  let hypot := fun a b : float => PrimFloat.sqrt (a * a + b * b)%float in
  (lowpass rfft2 irfft2 fft2 ifft2 x 1 1)%float = Ok x
  /\ (highpass rfft2 irfft2 fft2 ifft2 x 1 0.25)%float = Ok x
  /\ (bandpass rfft2 irfft2 fft2 ifft2 x 1 0.25 1)%float = Ok x
  /\ (bandblock rfft2 irfft2 fft2 ifft2 x 1 1 2)%float = Ok x
  /\ (threshold rfft2 irfft2 fft2 ifft2 hypot x (0, 1))%float = Ok x.
Proof. cbv zeta. repeat split; vm_compute; reflexivity. Qed.

(** A complex array whose imaginary parts are all zero passes the test
    [np.all(np.isreal(x))] and reaches [rfft], which refuses its dtype. *)
Lemma filters_refuse_real_values_of_complex_dtype :
  (fun rfft irfft fft ifft =>
     (lowpass rfft irfft fft ifft (ComplexSig [(1, 0); (2, 0)]) 0.5 1)%float)
  = (fun _ _ _ _ => Raise TypeError).
Proof. reflexivity. Qed.

(** ** [bandpass] and [bandblock] *)

Section BandFacts.

Context {R : Type} `{Scalar R}.

Lemma zip_with_length (g : R -> R -> R) (a b : list R) :
  length (zip_with g a b) = Nat.min (length a) (length b).
Proof.
  revert b. induction a as [|u a IH]; intros [|v b]; cbn; auto.
Qed.

Lemma zip_with_firstn (g : R -> R -> R) (n : nat) (a b : list R) :
  zip_with g (firstn n a) (firstn n b) = firstn n (zip_with g a b).
Proof.
  revert a b. induction n as [|n IH]; intros [|u a] [|v b]; cbn;
    try reflexivity.
  now rewrite IH.
Qed.

Lemma rfftfreq_length (n : nat) (d : R) : length (rfftfreq n d) = n.
Proof. unfold rfftfreq. now rewrite length_map, length_seq. Qed.

(** Bin by bin, one of the two masks holds 1 and the other 0. *)
Lemma masks_complementary (f : list R) (flow fupp : R) :
  Forall2 (fun p b => (p = fone /\ b = fzero) \/ (p = fzero /\ b = fone))
          (bandpass_mask f flow fupp) (bandblock_mask f flow fupp).
Proof.
  unfold bandpass_mask, bandblock_mask, band, zeros, ones.
  induction f as [|a f IH]; cbn [length repeat map assign_where].
  - constructor.
  - constructor; [|exact IH].
    destruct (fle flow (fabs a) && fle (fabs a) fupp); auto.
Qed.

Lemma masks_sum_to_ones (f : list R) (flow fupp : R) :
  fadd fone fzero = fone ->
  fadd fzero fone = fone ->
  zip_with fadd (bandpass_mask f flow fupp) (bandblock_mask f flow fupp)
  = ones (length f).
Proof.
  intros H10 H01. unfold bandpass_mask, bandblock_mask, band, zeros, ones.
  induction f as [|a f IH]; cbn [length repeat map assign_where zip_with].
  - reflexivity.
  - rewrite IH. f_equal.
    destruct (fle flow (fabs a) && fle (fabs a) fupp); assumption.
Qed.

Lemma masked_parts_sum (fa f : list R) (flow fupp : R) :
  (forall a, fadd (fmul a fone) (fmul a fzero) = a) ->
  (forall a, fadd (fmul a fzero) (fmul a fone) = a) ->
  length fa = length f ->
  zip_with fadd (zip_with fmul fa (bandpass_mask f flow fupp))
                (zip_with fmul fa (bandblock_mask f flow fupp))
  = fa.
Proof.
  intros Hpass Hblock. unfold bandpass_mask, bandblock_mask, band, zeros, ones.
  revert f. induction fa as [|u fa IH]; intros [|a f] Hlen;
    cbn [length repeat map assign_where zip_with]; try discriminate.
  - reflexivity.
  - rewrite IH by (cbn in Hlen; lia). f_equal.
    destruct (fle flow (fabs a) && fle (fabs a) fupp); auto.
Qed.

End BandFacts.

(** C5 (as amended).  The two masks are complements bin by bin and, where
    [1 + 0] and [0 + 1] are [1], sum to the all-ones mask.  For a
    non-empty signal stored as real, with scalars that split a product
    over the two masks without round-off and transforms that are additive
    and inverse to each other on the padded length, both filters return
    and their results sum, sample by sample, to the signal. *)
Theorem bandpass_plus_bandblock {R : Type} `{Scalar R}
        (rfft irfft : list R -> nat -> list R)
        (fft ifft : list (R * R) -> nat -> list (R * R))
        (x : list R) (dt flow fupp : R) :
  x <> [] ->
  fadd fone fzero = fone ->
  fadd fzero fone = fone ->
  (forall a, fadd (fmul a fone) (fmul a fzero) = a) ->
  (forall a, fadd (fmul a fzero) (fmul a fone) = a) ->
  (forall l, length (rfft l (nfft_of (length x))) = nfft_of (length x)) ->
  (forall u v, length u = nfft_of (length x) ->
               length v = nfft_of (length x) ->
               irfft (zip_with fadd u v) (nfft_of (length x))
               = zip_with fadd (irfft u (nfft_of (length x)))
                               (irfft v (nfft_of (length x)))) ->
  (forall l, (length l <= nfft_of (length x))%nat ->
             irfft (rfft l (nfft_of (length x))) (nfft_of (length x))
             = l ++ zeros (nfft_of (length x) - length l)) ->
  (forall f lo hi,
      Forall2 (fun p b => (p = fone /\ b = fzero) \/ (p = fzero /\ b = fone))
              (bandpass_mask f lo hi) (bandblock_mask f lo hi)
      /\ zip_with fadd (bandpass_mask f lo hi) (bandblock_mask f lo hi)
         = ones (length f))
  /\ exists y_pass y_block,
      bandpass rfft irfft fft ifft (RealSig x) dt flow fupp = Ok (RealSig y_pass)
      /\ bandblock rfft irfft fft ifft (RealSig x) dt flow fupp
         = Ok (RealSig y_block)
      /\ zip_with fadd y_pass y_block = x.
Proof.
  intros Hne H10 H01 Hpass Hblock Hlen Hadd Hinv. split.
  - intros f lo hi. split.
    + apply masks_complementary.
    + now apply masks_sum_to_ones.
  - assert (Hn : length x <> 0%nat) by (destruct x; [contradiction|discriminate]).
    unfold bandpass, bandblock, real_branch, fftpack_rfft, fftpack_irfft.
    cbn [all_isreal sig_size]. rewrite (nfft_of_pos _ Hn). cbn [bind].
    eexists. eexists. split; [reflexivity|]. split; [reflexivity|].
    rewrite !slice_prefix, zip_with_firstn, <- Hadd.
    + rewrite masked_parts_sum by
          (try assumption; now rewrite Hlen, rfftfreq_length).
      rewrite Hinv by apply nfft_of_ge.
      rewrite firstn_app, firstn_all, Nat.sub_diag. cbn [firstn].
      apply app_nil_r.
    + rewrite zip_with_length, Hlen. unfold bandpass_mask.
      rewrite assign_where_length. unfold zeros.
      rewrite repeat_length, rfftfreq_length. apply Nat.min_id.
    + rewrite zip_with_length, Hlen. unfold bandblock_mask.
      rewrite assign_where_length. unfold ones.
      rewrite repeat_length, rfftfreq_length. apply Nat.min_id.
Qed.

Lemma exact_two : Exact.of_int 2 = (Q2Qc 1 + Q2Qc 1)%Qc.
Proof. apply Qc_is_canon. reflexivity. Qed.

Lemma exact_two_nonzero : (Q2Qc 1 + Q2Qc 1)%Qc <> Q2Qc 0.
Proof. intros E. apply (f_equal this) in E. vm_compute in E. discriminate. Qed.

Lemma bandpass_plus_bandblock_witness :
  let x := [Q2Qc (3 # 2); Q2Qc (-1 # 4)] in
  exists y_pass y_block,
    bandpass rfft2 irfft2 fft2 ifft2 (RealSig x)
             (Q2Qc (1 # 2)) (Q2Qc (1 # 4)) (Q2Qc 1) = Ok (RealSig y_pass)
    /\ bandblock rfft2 irfft2 fft2 ifft2 (RealSig x)
                 (Q2Qc (1 # 2)) (Q2Qc (1 # 4)) (Q2Qc 1) = Ok (RealSig y_block)
    /\ zip_with fadd y_pass y_block = x.
Proof.
  cbv zeta.
  refine (proj2 (bandpass_plus_bandblock rfft2 irfft2 fft2 ifft2
                   [Q2Qc (3 # 2); Q2Qc (-1 # 4)]
                   (Q2Qc (1 # 2)) (Q2Qc (1 # 4)) (Q2Qc 1) _ _ _ _ _ _ _ _)).
  - discriminate.
  - reflexivity.
  - reflexivity.
  - intros a. cbn [fadd fmul fone fzero rationals]. ring.
  - intros a. cbn [fadd fmul fone fzero rationals]. ring.
  - intros l. apply rfft2_length.
  - change (nfft_of (length [Q2Qc (3 # 2); Q2Qc (-1 # 4)])) with 2%nat.
    intros [|u0 [|u1 [|u2 u]]] [|v0 [|v1 [|v2 v]]] Hu Hv; try discriminate.
    cbn [zip_with irfft2 resize firstn length Nat.sub repeat app
         fadd fsub fdiv of_int rationals].
    f_equal; [|f_equal]; field; discriminate.
  - change (nfft_of (length [Q2Qc (3 # 2); Q2Qc (-1 # 4)])) with 2%nat.
    intros [|a [|b [|c l]]] Hl; cbn [length] in Hl; try lia.
    + cbn [rfft2 irfft2 resize firstn length Nat.sub repeat app zeros
           fadd fsub fdiv of_int fzero rationals].
      rewrite exact_two.
      f_equal; [|f_equal]; field; exact exact_two_nonzero.
    + cbn [rfft2 irfft2 resize firstn length Nat.sub repeat app zeros
           fadd fsub fdiv of_int fzero rationals].
      rewrite exact_two.
      f_equal; [|f_equal]; field; exact exact_two_nonzero.
    + cbn [rfft2 irfft2 resize firstn length Nat.sub repeat app zeros
           fadd fsub fdiv of_int fzero rationals].
      rewrite exact_two.
      f_equal; [|f_equal]; field; exact exact_two_nonzero.
Defined.

(** C5, counterexample.  On the empty signal the padded length is 0 and
    the transform refuses it: both filters raise, whatever the transforms
    compute, and there is no sum to compare with the signal. *)
Lemma bandpass_bandblock_empty_signal :
  (fun rfft irfft fft ifft =>
     (bandpass rfft irfft fft ifft (RealSig (@nil float)) 0.5 1 2)%float)
  = (fun _ _ _ _ => Raise ValueError)
  /\ (fun rfft irfft fft ifft =>
        (bandblock rfft irfft fft ifft (RealSig (@nil float)) 0.5 1 2)%float)
     = (fun _ _ _ _ => Raise ValueError).
Proof. split; reflexivity. Qed.

(** ** [find_maxima] past the crossing test *)

Lemma np_diff_length {A : Type} (minus : A -> A -> A) (l : list A) :
  length (np_diff minus l) = (length l - 1)%nat.
Proof.
  induction l as [|a [|b l] IH]; cbn [np_diff length] in *; lia.
Qed.

Lemma where_from_bounds (i : nat) (mask : list bool) :
  Forall (fun p => (i <= p < i + length mask)%nat) (where_from i mask).
Proof.
  revert i. induction mask as [|[|] m IH]; intros i; cbn [where_from length].
  - constructor.
  - constructor; [lia|].
    eapply Forall_impl; [|apply (IH (S i))]. cbn. intros p Hp. lia.
  - eapply Forall_impl; [|apply (IH (S i))]. cbn. intros p Hp. lia.
Qed.

Lemma where_from_increasing (i : nat) (mask : list bool) :
  increasing (where_from i mask).
Proof.
  revert i. induction mask as [|[|] m IH]; intros i; cbn [where_from increasing];
    auto.
  split; [|apply IH].
  eapply Forall_impl; [|apply (where_from_bounds (S i) m)]. cbn. intros p Hp. lia.
Qed.

Lemma increasing_map_succ (l : list nat) :
  increasing l -> increasing (map (fun k => (k + 1)%nat) l).
Proof.
  induction l as [|a l IH]; cbn [map increasing]; [auto|].
  intros [Ha Hl]. split; [|now apply IH].
  rewrite Forall_map. eapply Forall_impl; [|exact Ha]. cbn. intros b Hb. lia.
Qed.

Lemma increasing_app_last (l : list nat) (e : nat) :
  increasing l -> Forall (fun a => (a < e)%nat) l -> increasing (l ++ [e]).
Proof.
  induction l as [|a l IH]; cbn [app increasing]; [auto|].
  intros [Ha Hl] Hlt. inversion Hlt as [|? ? Hae Hle]; subst.
  split; [|now apply IH].
  apply Forall_app. split; [assumption|]. now constructor.
Qed.

Lemma increasing_nth (l : list nat) (i j a b : nat) :
  increasing l -> (i < j)%nat ->
  nth_error l i = Some a -> nth_error l j = Some b -> (a < b)%nat.
Proof.
  revert i j. induction l as [|c l IH]; intros i j Hinc Hij Ha Hb.
  - destruct i; discriminate.
  - destruct Hinc as [Hc Hl]. destruct j as [|j]; [lia|]. cbn in Hb.
    destruct i as [|i].
    + cbn in Ha. injection Ha as ->.
      rewrite Forall_forall in Hc. apply Hc. eapply nth_error_In; eauto.
    + cbn in Ha. apply (IH i j); auto. lia.
Qed.

Lemma getitem_last {A : Type} (l : list A) (d : A) :
  l <> [] -> getitem l (-1) = Ok (last l d).
Proof.
  intros Hne. unfold getitem. cbv zeta. cbn [Z.ltb Z.compare].
  assert (Hlen : (0 < length l)%nat) by (destruct l; [contradiction|cbn; lia]).
  assert (E1 : (-1 + Z.of_nat (length l) <? 0) = false) by (apply Z.ltb_ge; lia).
  assert (E2 : (Z.of_nat (length l) <=? -1 + Z.of_nat (length l)) = false)
    by (apply Z.leb_gt; lia).
  rewrite E1, E2. cbn [orb].
  replace (Z.to_nat (-1 + Z.of_nat (length l))) with (length l - 1)%nat by lia.
  clear E1 E2 Hlen. induction l as [|a [|b l] IH]; [contradiction|reflexivity|].
  change (last (a :: b :: l) d) with (last (b :: l) d).
  rewrite <- IH by discriminate.
  cbn [length]. replace (S (S (length l)) - 1)%nat with (S (length l)) by lia.
  cbn [nth_error]. now replace (S (length l) - 1)%nat with (length l) by lia.
Qed.

Lemma increasing_le_last (l : list nat) (d : nat) :
  increasing l -> Forall (fun a => (a <= last l d)%nat) l.
Proof.
  induction l as [|a [|b l] IH]; intros Hinc.
  - constructor.
  - repeat constructor.
  - destruct Hinc as [Ha Hl]. specialize (IH Hl).
    change (last (a :: b :: l) d) with (last (b :: l) d).
    constructor; [|exact IH].
    inversion IH as [|? ? Hb _]; subst. inversion Ha; subst. lia.
Qed.

Lemma removelast_nth {A : Type} (l : list A) (i : nat) (s : A) :
  nth_error (removelast l) i = Some s ->
  nth_error l i = Some s /\ (S i < length l)%nat.
Proof.
  revert i. induction l as [|a [|b l] IH]; intros i Hs.
  - destruct i; discriminate.
  - destruct i; discriminate.
  - change (removelast (a :: b :: l)) with (a :: removelast (b :: l)) in Hs.
    destruct i as [|i].
    + cbn in *. split; [assumption|lia].
    + cbn [nth_error] in Hs. apply IH in Hs. cbn [nth_error length] in *.
      split; [tauto|lia].
Qed.

Lemma setitem_returns {A : Type} (l : list A) (j : nat) (v : A) :
  (j < length l)%nat ->
  exists l', setitem l j v = Ok l' /\ length l' = length l
             /\ forall p, p <> j -> nth_error l' p = nth_error l p.
Proof.
  revert j. induction l as [|a l IH]; intros j Hj; [cbn in Hj; lia|].
  destruct j as [|j]; cbn [setitem].
  - eexists. split; [reflexivity|]. split; [reflexivity|].
    intros [|p] Hp; [contradiction|reflexivity].
  - destruct (IH j) as [l' [E [Hl Hframe]]]; [cbn in Hj; lia|].
    rewrite E. cbn [bind]. eexists. split; [reflexivity|].
    split; [cbn; now rewrite Hl|].
    intros [|p] Hp; [reflexivity|]. cbn [nth_error]. apply Hframe. lia.
Qed.

Lemma slice_window_nonempty {A : Type} (l : list A) (a b : nat) :
  (a < b)%nat -> (a < length l)%nat ->
  slice l (Z.of_nat a) (Z.of_nat b) <> [].
Proof.
  intros Hab Ha. unfold slice, clamp_fwd.
  assert (E1 : (Z.of_nat a <? 0) = false) by (apply Z.ltb_ge; lia).
  assert (E2 : (Z.of_nat b <? 0) = false) by (apply Z.ltb_ge; lia).
  assert (E3 : (Z.of_nat (length l) <? Z.of_nat a) = false)
    by (apply Z.ltb_ge; lia).
  rewrite !E1, !E2, E3, Nat2Z.id.
  assert (Hs : exists c tl, skipn a l = c :: tl).
  { destruct (skipn a l) as [|c tl] eqn:E; [|eauto].
    apply (f_equal (@length A)) in E. rewrite length_skipn in E. cbn in E. lia. }
  destruct Hs as [c [tl ->]].
  destruct (Z.of_nat (length l) <? Z.of_nat b) eqn:E4.
  - apply Z.ltb_lt in E4.
    destruct (Z.to_nat (Z.of_nat (length l) - Z.of_nat a)) eqn:E5; [lia|].
    discriminate.
  - destruct (Z.to_nat (Z.of_nat b - Z.of_nat a)) eqn:E5; [lia|].
    discriminate.
Qed.

Section PeakFacts.

Context {R : Type} `{Scalar R}.

Lemma global_loop_returns (x : list R) (ci : list nat) :
  forall (starts : list nat) (j : nat) (maxima : list R) (idx : list nat),
    (forall i s, nth_error starts i = Some s ->
                 exists stop, nth_error ci (j + i + 1) = Some stop
                              /\ (s < stop)%nat /\ (s < length x)%nat) ->
    (j + length starts <= length maxima)%nat ->
    length idx = length maxima ->
    exists maxima' idx',
      global_loop x ci j starts (maxima, idx) = Ok (maxima', idx')
      /\ length maxima' = length maxima /\ length idx' = length maxima
      /\ forall p, (j + length starts <= p)%nat ->
                   nth_error maxima' p = nth_error maxima p
                   /\ nth_error idx' p = nth_error idx p.
Proof.
  induction starts as [|start rest IH]; intros j maxima idx Hwin Hj Hlen.
  - exists maxima, idx. auto.
  - cbn [global_loop fst snd].
    destruct (Hwin 0%nat start eq_refl) as [stop [Hstop [Hlt Hx]]].
    rewrite getitem_nat. replace (j + 0 + 1)%nat with (j + 1)%nat in Hstop by lia.
    rewrite Hstop. cbn [bind].
    pose proof (slice_window_nonempty x start stop Hlt Hx) as Hne.
    destruct (slice x (Z.of_nat start) (Z.of_nat stop)) as [|w0 w]; [contradiction|].
    cbn [np_max np_argmax bind].
    cbn [length] in Hj.
    destruct (setitem_returns maxima j (fold_left np_maximum w w0))
      as [maxima1 [E1 [L1 F1]]]; [lia|].
    destruct (setitem_returns idx j (start + argmax_from w0 0 1 w)%nat)
      as [idx1 [E2 [L2 F2]]]; [lia|].
    rewrite E1, E2. cbn [bind].
    destruct (IH (S j) maxima1 idx1) as [m' [i' [E [Lm [Li Fr]]]]].
    + intros i s Hs. destruct (Hwin (S i) s Hs) as [stop' [Hs' Hb]].
      exists stop'. split; [|exact Hb].
      now replace (S j + i + 1)%nat with (j + S i + 1)%nat by lia.
    + lia.
    + lia.
    + exists m', i'. split; [exact E|]. split; [lia|]. split; [lia|].
      intros p Hp. cbn [length] in Hp. destruct (Fr p) as [Fm Fi]; [lia|].
      rewrite Fm, Fi, F1, F2 by lia. split; reflexivity.
Qed.

Lemma take_nth {A : Type} (d : A) (l : list A) (idx : list nat) :
  Forall (fun i => (i < length l)%nat) idx ->
  take l idx = Ok (map (fun i => nth i l d) idx).
Proof.
  unfold take. induction 1 as [|i idx Hi _ IH]; [reflexivity|].
  cbn [mapM map]. rewrite getitem_nat.
  destruct (nth_error l i) as [a|] eqn:E.
  - cbn [bind]. rewrite IH. cbn [bind].
    now rewrite (nth_error_nth _ _ d E).
  - apply nth_error_None in E. lia.
Qed.

Lemma local_maxima_returns (x : list R) :
  exists maxima idx,
    local_maxima x = Ok (maxima, idx) /\ length maxima = length idx.
Proof.
  unfold local_maxima.
  set (ds := map (fun d => 1 * b2z (flt d fzero)) (np_diff fsub x)).
  set (mask := map (fun c => c =? 1) (0 :: np_diff Z.sub (ds ++ [0]))).
  assert (Hidx : Forall (fun i => (i < length x)%nat) (np_where mask)).
  { destruct x as [|a x]; [cbn; constructor|].
    eapply Forall_impl; [|apply where_from_bounds].
    cbn beta. intros p [_ Hp]. unfold mask in Hp.
    rewrite length_map in Hp. cbn [length] in Hp.
    rewrite np_diff_length, length_app in Hp. unfold ds in Hp.
    rewrite length_map, np_diff_length in Hp. cbn [length] in *. lia. }
  rewrite (take_nth fzero x _ Hidx). cbn [bind].
  eexists. eexists. split; [reflexivity|]. now rewrite length_map.
Qed.

Lemma insert_sorted_perm (p : R * nat) (l : list (R * nat)) :
  Permutation (insert_sorted p l) (p :: l).
Proof.
  induction l as [|q l IH]; cbn [insert_sorted]; [reflexivity|].
  destruct (sort_lt (fst p) (fst q)); [reflexivity|].
  rewrite IH. apply perm_swap.
Qed.

Lemma insertion_perm (ps acc : list (R * nat)) :
  Permutation (fold_left (fun a p => insert_sorted p a) ps acc) (ps ++ acc).
Proof.
  revert acc. induction ps as [|p ps IH]; intros acc; cbn [fold_left app].
  - reflexivity.
  - rewrite IH. rewrite insert_sorted_perm. symmetry. apply Permutation_middle.
Qed.

Lemma map_snd_combine {A B : Type} (a : list A) (b : list B) :
  length a = length b -> map snd (combine a b) = b.
Proof.
  revert b. induction a as [|u a IH]; intros [|v b] Hl; cbn in *;
    try discriminate; [reflexivity|].
  f_equal. apply IH. lia.
Qed.

Lemma np_argsort_perm (l : list R) :
  Permutation (np_argsort l) (seq 0 (length l)).
Proof.
  unfold np_argsort.
  rewrite (Permutation_map snd (insertion_perm _ [])), app_nil_r.
  rewrite map_snd_combine; [reflexivity|]. now rewrite length_seq.
Qed.

Lemma np_argsort_bounds (l : list R) :
  Forall (fun i => (i < length l)%nat) (np_argsort l).
Proof.
  eapply Permutation_Forall; [symmetry; apply np_argsort_perm|].
  apply Forall_forall. intros i Hi. apply in_seq in Hi. lia.
Qed.

End PeakFacts.

Lemma map_nth_seq {A : Type} (d : A) (l : list A) :
  map (fun i => nth i l d) (seq 0 (length l)) = l.
Proof.
  induction l as [|a l IH]; [reflexivity|].
  cbn [length seq map nth]. f_equal.
  rewrite <- seq_shift, map_map. exact IH.
Qed.

Lemma combine_map_same {A B C : Type} (f : C -> A) (g : C -> B) (l : list C) :
  combine (map f l) (map g l) = map (fun c => (f c, g c)) l.
Proof. induction l as [|c l IH]; cbn; [reflexivity|now rewrite IH]. Qed.

Lemma filter_perm {A : Type} (f : A -> bool) (l l' : list A) :
  Permutation l l' -> Permutation (filter f l) (filter f l').
Proof.
  induction 1 as [|a l l' _ IH|a b l|l l' l'' _ IH1 _ IH2]; cbn [filter].
  - reflexivity.
  - destruct (f a); [now constructor|assumption].
  - destruct (f a), (f b); try reflexivity. apply perm_swap.
  - now transitivity (filter f l').
Qed.

Lemma combine_compress {A B : Type} (f : A -> bool) (a : list A) (b : list B) :
  length a = length b ->
  combine (compress (map f a) a) (compress (map f a) b)
  = filter (fun p => f (fst p)) (combine a b)
  /\ length (compress (map f a) a) = length (compress (map f a) b).
Proof.
  revert b. induction a as [|u a IH]; intros [|v b] Hl; cbn in Hl;
    try discriminate; [split; reflexivity|].
  destruct (IH b) as [E L]; [lia|].
  cbn [map compress combine filter fst]. destruct (f u); cbn [combine length].
  - rewrite E. split; [reflexivity|lia].
  - split; assumption.
Qed.

Lemma combine_nth_error {A B : Type} (a : list A) (b : list B) (n : nat)
      (u : A) (v : B) :
  nth_error a n = Some u -> nth_error b n = Some v ->
  nth_error (combine a b) n = Some (u, v).
Proof.
  revert a b. induction n as [|n IH]; intros [|a0 a] [|b0 b] Ha Hb;
    try discriminate; cbn in *.
  - now injection Ha as ->; injection Hb as ->.
  - now apply IH.
Qed.

Lemma removelast_length {A : Type} (l : list A) :
  length (removelast l) = (length l - 1)%nat.
Proof.
  induction l as [|a [|b l] IH]; [reflexivity|reflexivity|].
  change (removelast (a :: b :: l)) with (a :: removelast (b :: l)).
  cbn [length] in *. lia.
Qed.

Section ThresholdFacts.

Context {R : Type} `{Scalar R}.

Lemma crossing_positions_increasing (x : list R) (up : bool) :
  increasing (crossing_positions x up).
Proof.
  unfold crossing_positions, np_where.
  apply increasing_map_succ, where_from_increasing.
Qed.

Lemma crossing_positions_bounds (x : list R) (up : bool) :
  Forall (fun p => (p < length x)%nat) (crossing_positions x up).
Proof.
  unfold crossing_positions, np_where. rewrite Forall_map.
  eapply Forall_impl; [|apply where_from_bounds].
  cbn beta. intros p [_ Hp]. unfold crossings in Hp.
  rewrite !length_map, np_diff_length in Hp.
  destruct up; rewrite length_map in Hp; unfold demean in Hp;
    rewrite length_map in Hp; lia.
Qed.

Lemma sort_kept_returns (km : list R) (ki : list nat) :
  length km = length ki ->
  exists m i,
    (forall retind,
        sort_kept (km, ki) retind = Ok (m, if retind then Some i else None))
    /\ length m = length i
    /\ Permutation (combine m i) (combine km ki).
Proof.
  intros Hl. unfold sort_kept. cbn [fst snd].
  pose proof (np_argsort_bounds km) as Hb.
  rewrite (take_nth fzero km _ Hb).
  rewrite Hl in Hb. rewrite (take_nth 0%nat ki _ Hb). cbn [bind].
  eexists. eexists. split; [intros [|]; reflexivity|].
  split; [now rewrite !length_map|].
  rewrite combine_map_same.
  rewrite (map_ext _ (fun j => nth j (combine km ki) (fzero, 0%nat)))
    by (intros j; symmetry; now apply combine_nth).
  rewrite (Permutation_map _ (np_argsort_perm km)).
  replace (length km) with (length (combine km ki))
    by (rewrite length_combine; lia).
  now rewrite map_nth_seq.
Qed.

(** Past the test [n_crossings < 2] the extraction of the maxima
    returns, with as many positions as values, and what follows depends
    on the threshold alone. *)
Lemma find_maxima_past_test (x : list R) (local up : bool) :
  2 <= sumZ (crossings x up) ->
  exists fm fi,
    length fm = length fi
    /\ (forall threshold retind,
           find_maxima x local threshold up retind
           = (kept <- apply_threshold threshold (fm, fi) ;; sort_kept kept retind))
    /\ (local = false ->
        last (crossing_positions x up) 0%nat = (length x - 1)%nat ->
        In (fzero, 0%nat) (combine fm fi)).
Proof.
  intros Hn.
  assert (Hup : up = true).
  { destruct up; [reflexivity|]. pose proof (down_sum_nonpositive x). lia. }
  subst up.
  pose proof (crossings_sum x true) as Hsum. cbn [indicator] in Hsum.
  pose proof (crossing_positions_increasing x true) as Hinc.
  pose proof (crossing_positions_bounds x true) as Hbound.
  remember (crossing_positions x true) as cp eqn:Ecp.
  assert (Hcp : cp <> [])
    by (intros E; rewrite E in Hsum; cbn [length Z.of_nat] in Hsum; lia).
  assert (Hlast : getitem cp (-1) = Ok (last cp 0%nat)) by now apply getitem_last.
  set (ci := if Z.of_nat (last cp 0%nat) <? Z.of_nat (length (demean x)) - 1
             then cp ++ [(length (demean x) - 1)%nat] else cp).
  assert (Hx : (0 < length x)%nat).
  { destruct cp as [|p cp']; [contradiction|]. inversion Hbound; subst. lia. }
  assert (Hci : increasing ci /\ Forall (fun p => (p < length x)%nat) ci
                /\ (length ci - 1 <= length cp)%nat).
  { unfold ci. unfold demean. rewrite length_map.
    destruct (Z.of_nat (last cp 0%nat) <? Z.of_nat (length x) - 1) eqn:E.
    - apply Z.ltb_lt in E. split; [|split].
      + apply increasing_app_last; [assumption|].
        eapply Forall_impl; [|apply (increasing_le_last cp 0%nat Hinc)].
        cbn beta. intros a Ha. lia.
      + apply Forall_app. split; [assumption|]. constructor; [lia|constructor].
      + rewrite length_app. cbn. lia.
    - repeat split; [assumption|assumption|lia]. }
  destruct Hci as (Hinc' & Hbound' & Hlen').
  assert (Hfound : exists fm fi,
             (if negb local then global_maxima x ci (sumZ (crossings x true))
              else local_maxima x) = Ok (fm, fi)
             /\ length fm = length fi
             /\ (local = false -> last cp 0%nat = (length x - 1)%nat ->
                 In (fzero, 0%nat) (combine fm fi))).
  { destruct local; cbn [negb].
    - destruct (local_maxima_returns x) as [fm [fi [E L]]].
      exists fm, fi. repeat split; [assumption|assumption|discriminate].
    - unfold global_maxima.
      destruct (global_loop_returns x ci (removelast ci) 0
                  (repeat fzero (Z.to_nat (sumZ (crossings x true))))
                  (repeat 0%nat (Z.to_nat (sumZ (crossings x true)))))
        as [m' [i' [E [Lm [Li Fr]]]]].
      + intros i s Hs. apply removelast_nth in Hs. destruct Hs as [Hs Hi].
        destruct (nth_error ci (S i)) as [stop|] eqn:Estop;
          [|apply nth_error_None in Estop; lia].
        exists stop. replace (0 + i + 1)%nat with (S i) by lia.
        split; [exact Estop|].
        assert (Hlt : (s < stop)%nat)
          by (apply (increasing_nth ci i (S i)); auto).
        split; [exact Hlt|].
        rewrite Forall_forall in Hbound'.
        specialize (Hbound' stop (nth_error_In _ _ Estop)). lia.
      + rewrite repeat_length, removelast_length, Hsum. lia.
      + now rewrite !repeat_length.
      + rewrite !repeat_length in *.
        exists m', i'. split; [exact E|]. split; [lia|].
        intros _ Hend.
        assert (Eci : ci = cp).
        { unfold ci, demean. rewrite length_map, Hend.
          assert (E' : (Z.of_nat (length x - 1) <? Z.of_nat (length x) - 1) = false)
            by (apply Z.ltb_ge; lia).
          now rewrite E'. }
        rewrite Eci, removelast_length in Fr.
        destruct (Fr (length cp - 1)%nat) as [Fm Fi]; [lia|].
        assert (Hk : (length cp - 1 < Z.to_nat (sumZ (crossings x true)))%nat)
          by (destruct cp; [contradiction|cbn [length] in *; lia]).
        rewrite (nth_error_repeat _ Hk) in Fm.
        rewrite (nth_error_repeat _ Hk) in Fi.
        apply (nth_error_In _ (length cp - 1)).
        now apply combine_nth_error. }
  destruct Hfound as [fm [fi [Efound [Hlen Hslot]]]].
  exists fm, fi. split; [exact Hlen|]. split; [|exact Hslot].
  intros threshold retind. unfold find_maxima.
  assert (E : (sumZ (crossings x true) <? 2) = false) by (apply Z.ltb_ge; lia).
  rewrite E, <- Ecp, Hlast. cbn [bind]. fold ci.
  rewrite Efound. cbn [bind]. reflexivity.
Qed.

End ThresholdFacts.

(** C8 (as amended).  The threshold is looked at only past the test
    [n_crossings < 2].  With fewer than two crossings in the requested
    direction the call returns the empty result whatever the type of the
    threshold.  With [up = True] and at least two up-crossings, a
    threshold that is not a float raises [TypeError], and a float
    threshold returns, up to order, the maxima and positions of the call
    without threshold whose value is not below it. *)
Theorem find_maxima_threshold {R : Type} `{Scalar R} (x : list R)
        (local up : bool) (thr : pyobj R) :
  ((length (crossing_positions x up) < 2)%nat ->
   forall retind,
     find_maxima x local (Some thr) up retind
     = Ok ([], if retind then Some [] else None))
  /\ (up = true -> (2 <= length (crossing_positions x up))%nat ->
      match thr with
      | PyFloat v =>
          exists m0 i0 m i,
            (forall retind,
                find_maxima x local None up retind
                = Ok (m0, if retind then Some i0 else None))
            /\ (forall retind,
                   find_maxima x local (Some thr) up retind
                   = Ok (m, if retind then Some i else None))
            /\ length m0 = length i0
            /\ length m = length i
            /\ Permutation (combine m i)
                           (filter (fun p => fle v (fst p)) (combine m0 i0))
      | _ =>
          forall retind,
            find_maxima x local (Some thr) up retind = Raise TypeError
      end).
Proof.
  split.
  - intros Hfew retind. unfold find_maxima.
    assert (E : (sumZ (crossings x up) <? 2) = true)
      by (apply Z.ltb_lt; now apply few_crossings_sum).
    rewrite E. now destruct retind.
  - intros -> Hmany.
    assert (Hn : 2 <= sumZ (crossings x true))
      by (rewrite crossings_sum; cbn [indicator]; lia).
    destruct (find_maxima_past_test x local true Hn) as [fm [fi [Hlen [Hfm _]]]].
    destruct thr as [v|z|s].
    + destruct (sort_kept_returns fm fi Hlen) as [m0 [i0 [E0 [L0 P0]]]].
      destruct (combine_compress (fun a => fle v a) fm fi Hlen) as [Ec Lc].
      destruct (sort_kept_returns _ _ Lc) as [m [i [E1 [L1 P1]]]].
      exists m0, i0, m, i. repeat split; try assumption.
      * intros retind. rewrite Hfm. cbn [apply_threshold bind]. apply E0.
      * intros retind. rewrite Hfm. cbn [apply_threshold bind fst snd].
        apply E1.
      * rewrite P1, Ec. apply filter_perm. now symmetry.
    + intros retind. now rewrite Hfm.
    + intros retind. now rewrite Hfm.
Qed.

Lemma find_maxima_threshold_witness :
  let x := [-1; 1; 3; -1; 1; 2; -1; 5; 7; 6; 0]%float in
  exists m0 i0 m i,
    (forall retind,
        find_maxima x true None true retind
        = Ok (m0, if retind then Some i0 else None))
    /\ (forall retind,
           find_maxima x true (Some (PyFloat 2.5%float)) true retind
           = Ok (m, if retind then Some i else None))
    /\ length m0 = length i0
    /\ length m = length i
    /\ Permutation (combine m i)
                   (filter (fun p => fle 2.5%float (fst p)) (combine m0 i0)).
Proof.
  cbv zeta.
  refine (proj2 (find_maxima_threshold
                   [-1; 1; 3; -1; 1; 2; -1; 5; 7; 6; 0]%float true true
                   (PyFloat 2.5%float)) eq_refl _).
  vm_compute. lia.
Defined.

(** C8, counterexample.  A threshold that is not a float raises nothing
    when the crossing test ends the call first, as on a flat signal. *)
Lemma find_maxima_threshold_type_not_checked :
  crossing_positions [0; 0; 0]%float true = []
  /\ find_maxima [0; 0; 0]%float false (Some (PyInt 1)) true true
     = Ok ([], Some []).
Proof. split; reflexivity. Qed.

(** X1.  With [up = False] the crossings are marked [-1], their sum is
    never positive, and the test [n_crossings < 2] ends every call: no
    maximum between down-crossings is ever returned. *)
Lemma find_maxima_down_direction_empty {R : Type} `{Scalar R} (x : list R)
      (local : bool) (threshold : option (pyobj R)) (retind : bool) :
  find_maxima x local threshold false retind
  = Ok ([], if retind then Some [] else None).
Proof.
  unfold find_maxima.
  assert (E : (sumZ (crossings x false) <? 2) = true)
    by (apply Z.ltb_lt; pose proof (down_sum_nonpositive x); lia).
  rewrite E. now destruct retind.
Qed.

(** X2.  The unfilled slot in general: in the global mode, whenever the
    last of at least two up-crossings is the last sample, the pair
    [(0.0, 0)] of the preallocated arrays is among the returned maxima,
    whatever the signal holds at position 0. *)
Lemma find_maxima_unfilled_slot {R : Type} `{Scalar R} (x : list R) :
  (2 <= length (crossing_positions x true))%nat ->
  last (crossing_positions x true) 0%nat = (length x - 1)%nat ->
  exists m i,
    (forall retind,
        find_maxima x false None true retind
        = Ok (m, if retind then Some i else None))
    /\ In (fzero, 0%nat) (combine m i).
Proof.
  intros Hmany Hend.
  assert (Hn : 2 <= sumZ (crossings x true))
    by (rewrite crossings_sum; cbn [indicator]; lia).
  destruct (find_maxima_past_test x false true Hn)
    as [fm [fi [Hlen [Hfm Hslot]]]].
  destruct (sort_kept_returns fm fi Hlen) as [m [i [E [L P]]]].
  exists m, i. split.
  - intros retind. rewrite Hfm. cbn [apply_threshold bind]. apply E.
  - apply (Permutation_in _ (Permutation_sym P)). now apply Hslot.
Qed.

(** * Further properties *)

(** ** Where the crossings are *)

Lemma where_from_In (s : nat) (mask : list bool) (p : nat) :
  In p (where_from s mask)
  <-> (s <= p)%nat /\ nth_error mask (p - s) = Some true.
Proof.
  revert s. induction mask as [|b m IH]; intros s.
  - cbn [where_from In]. split; [contradiction|].
    intros [_ E]. destruct (p - s)%nat; discriminate.
  - assert (Hstep : In p (where_from (S s) m)
                    <-> (s < p)%nat /\ nth_error m (p - S s) = Some true)
      by (rewrite IH; reflexivity).
    destruct b; cbn [where_from In]; rewrite ?Hstep; split.
    + intros [<- | [Hlt E]].
      * rewrite Nat.sub_diag. split; [lia|reflexivity].
      * split; [lia|]. replace (p - s)%nat with (S (p - S s)) by lia. exact E.
    + intros [Hle E]. destruct (Nat.eq_dec s p) as [->|Hne]; [now left|].
      right. split; [lia|].
      replace (p - s)%nat with (S (p - S s)) in E by lia. exact E.
    + intros [Hlt E]. split; [lia|].
      replace (p - s)%nat with (S (p - S s)) by lia. exact E.
    + intros [Hle E]. destruct (Nat.eq_dec s p) as [->|Hne].
      * rewrite Nat.sub_diag in E. discriminate.
      * split; [lia|].
        replace (p - s)%nat with (S (p - S s)) in E by lia. exact E.
Qed.

Lemma np_diff_nth {A : Type} (minus : A -> A -> A) (l : list A) (k : nat) :
  nth_error (np_diff minus l) k
  = match nth_error l k, nth_error l (S k) with
    | Some a, Some b => Some (minus b a)
    | _, _ => None
    end.
Proof.
  revert k. induction l as [|a [|b l] IH]; intros k.
  - now destruct k.
  - destruct k as [|[|k]]; reflexivity.
  - destruct k as [|k].
    + reflexivity.
    + change (np_diff minus (a :: b :: l)) with (minus b a :: np_diff minus (b :: l)).
      cbn [nth_error]. rewrite IH. reflexivity.
Qed.

Section CrossingPlaces.

Context {R : Type} `{Scalar R}.

Lemma crossing_mask_nth (x : list R) (up : bool) (k : nat) :
  nth_error (map (fun c => c =? indicator up) (crossings x up)) k = Some true
  <-> exists a b,
      nth_error (demean x) k = Some a
      /\ nth_error (demean x) (S k) = Some b
      /\ if up then flt fzero a = false /\ flt fzero b = true
         else flt a fzero = true /\ flt b fzero = false.
Proof.
  unfold crossings. rewrite map_map, nth_error_map, np_diff_nth.
  destruct up; rewrite !nth_error_map;
    destruct (nth_error (demean x) k) as [a|];
    destruct (nth_error (demean x) (S k)) as [b|]; cbn [option_map indicator];
    try (split; [discriminate|intros (a' & b' & Ea & Eb & _); discriminate]).
  - split.
    + intros E. exists a, b. split; [reflexivity|]. split; [reflexivity|].
      destruct (flt fzero a), (flt fzero b); cbn in E; try discriminate; auto.
    + intros (a' & b' & Ea & Eb & E1 & E2).
      injection Ea as Ea. injection Eb as Eb. subst a' b'.
      now rewrite E1, E2.
  - split.
    + intros E. exists a, b. split; [reflexivity|]. split; [reflexivity|].
      destruct (flt a fzero), (flt b fzero); cbn in E; try discriminate; auto.
    + intros (a' & b' & Ea & Eb & E1 & E2).
      injection Ea as Ea. injection Eb as Eb. subst a' b'.
      now rewrite E1, E2.
Qed.

End CrossingPlaces.

(** X3.  A position [p] is reported as a crossing exactly when, for
    [up = True], the demeaned signal is not positive at [p - 1] and
    positive at [p], and, for [up = False], negative at [p - 1] and not
    negative at [p].  In both directions the reported positions are
    places where the signal rises; with [up = False] they are the places
    where it leaves the negative side, not the places where it falls. *)
Theorem crossing_positions_places {R : Type} `{Scalar R} (x : list R)
        (up : bool) (p : nat) :
  In p (crossing_positions x up)
  <-> (1 <= p)%nat
      /\ exists a b,
          nth_error (demean x) (p - 1) = Some a
          /\ nth_error (demean x) p = Some b
          /\ if up then flt fzero a = false /\ flt fzero b = true
             else flt a fzero = true /\ flt b fzero = false.
Proof.
  unfold crossing_positions, np_where. rewrite in_map_iff. split.
  - intros [k [<- Hk]]. apply where_from_In in Hk. destruct Hk as [_ Hk].
    rewrite Nat.sub_0_r in Hk. apply crossing_mask_nth in Hk.
    split; [lia|]. replace (k + 1 - 1)%nat with k by lia.
    now replace (k + 1)%nat with (S k) by lia.
  - intros [Hp (a & b & Ea & Eb & Hc)]. exists (p - 1)%nat. split; [lia|].
    apply where_from_In. split; [lia|]. rewrite Nat.sub_0_r.
    apply crossing_mask_nth. exists a, b. split; [exact Ea|].
    split; [|exact Hc]. now replace (S (p - 1)) with p by lia.
Qed.

(** X4.  The crossing positions come in strictly increasing order and
    each lies between 1 and [len(x) - 1]: the first sample is never a
    crossing, and no position is reported twice. *)
Theorem crossing_positions_ordered {R : Type} `{Scalar R} (x : list R)
        (up : bool) :
  (forall i j a b, (i < j)%nat ->
                   nth_error (crossing_positions x up) i = Some a ->
                   nth_error (crossing_positions x up) j = Some b ->
                   (a < b)%nat)
  /\ (forall p, In p (crossing_positions x up) -> (1 <= p < length x)%nat).
Proof.
  split.
  - intros i j a b. apply increasing_nth, crossing_positions_increasing.
  - intros p Hp. split.
    + unfold crossing_positions in Hp. apply in_map_iff in Hp.
      destruct Hp as [k [<- _]]. lia.
    + pose proof (crossing_positions_bounds x up) as Hb.
      rewrite Forall_forall in Hb. now apply Hb.
Qed.

Lemma last_cons {A : Type} (a d : A) (l : list A) :
  last (a :: l) d = last l a.
Proof.
  revert a d. induction l as [|b l IH]; intros a d; [reflexivity|].
  change (last (a :: b :: l) d) with (last (b :: l) d).
  now rewrite (IH b d), (IH b a).
Qed.

Lemma last_cons_In {A : Type} (first : A) (rest : list A) :
  In (last rest first) (first :: rest).
Proof.
  revert first. induction rest as [|a rest IH]; intros first; [now left|].
  right. rewrite last_cons. apply IH.
Qed.



(** ** The maxima [find_maxima] extracts *)

Lemma setitem_inv {A : Type} (l l' : list A) (j : nat) (v : A) :
  setitem l j v = Ok l' ->
  nth_error l' j = Some v
  /\ (forall p, p <> j -> nth_error l' p = nth_error l p)
  /\ length l' = length l.
Proof.
  revert j l'. induction l as [|a l IH]; intros j l' E; [discriminate|].
  destruct j as [|j]; cbn [setitem] in E.
  - injection E as <-. split; [reflexivity|]. split; [|reflexivity].
    intros [|p] Hp; [contradiction|reflexivity].
  - destruct (setitem l j v) as [tl|] eqn:Etl; [|discriminate].
    cbn [bind] in E. injection E as <-.
    destruct (IH j tl Etl) as (Hj & Hframe & Hlen).
    split; [exact Hj|]. split; [|cbn; now rewrite Hlen].
    intros [|p] Hp; [reflexivity|]. cbn [nth_error]. apply Hframe. lia.
Qed.

Lemma slice_nat {A : Type} (l : list A) (a b : nat) :
  (a <= b <= length l)%nat ->
  slice l (Z.of_nat a) (Z.of_nat b) = firstn (b - a) (skipn a l).
Proof.
  intros Hab. unfold slice, clamp_fwd.
  assert (E1 : (Z.of_nat a <? 0) = false) by (apply Z.ltb_ge; lia).
  assert (E2 : (Z.of_nat b <? 0) = false) by (apply Z.ltb_ge; lia).
  assert (E3 : (Z.of_nat (length l) <? Z.of_nat a) = false)
    by (apply Z.ltb_ge; lia).
  assert (E4 : (Z.of_nat (length l) <? Z.of_nat b) = false)
    by (apply Z.ltb_ge; lia).
  rewrite !E1, !E2, E3, E4, Nat2Z.id. f_equal. lia.
Qed.

Lemma slice_nat_nth {A : Type} (l : list A) (a b q : nat) :
  (a <= b <= length l)%nat -> (q < b - a)%nat ->
  nth_error (slice l (Z.of_nat a) (Z.of_nat b)) q = nth_error l (a + q).
Proof.
  intros Hab Hq. rewrite slice_nat by assumption.
  rewrite nth_error_firstn.
  assert (E : (q <? b - a)%nat = true) by now apply Nat.ltb_lt.
  rewrite E. apply nth_error_skipn.
Qed.

Lemma slice_nat_length {A : Type} (l : list A) (a b : nat) :
  (a <= b <= length l)%nat ->
  length (slice l (Z.of_nat a) (Z.of_nat b)) = (b - a)%nat.
Proof.
  intros Hab. rewrite slice_nat by assumption.
  rewrite length_firstn, length_skipn. lia.
Qed.

Section PeakStructure.

Context {R : Type} `{Scalar R}.

Lemma global_loop_inv (x : list R) (ci : list nat) :
  forall (starts : list nat) (j : nat) (maxima : list R) (idx : list nat)
         (m' : list R) (i' : list nat),
    global_loop x ci j starts (maxima, idx) = Ok (m', i') ->
    (forall p, (p < j)%nat ->
               nth_error m' p = nth_error maxima p
               /\ nth_error i' p = nth_error idx p)
    /\ (forall i start,
           nth_error starts i = Some start ->
           exists stop w0 w,
             nth_error ci (j + i + 1) = Some stop
             /\ slice x (Z.of_nat start) (Z.of_nat stop) = w0 :: w
             /\ nth_error m' (j + i) = Some (fold_left np_maximum w w0)
             /\ nth_error i' (j + i)
                = Some (start + argmax_from w0 0 1 w)%nat).
Proof.
  induction starts as [|start rest IH]; intros j maxima idx m' i' E.
  - cbn [global_loop] in E. injection E as <- <-. split; [auto|].
    intros i start Hs. destruct i; discriminate.
  - cbn [global_loop fst snd] in E. rewrite getitem_nat in E.
    destruct (nth_error ci (j + 1)) as [stop|] eqn:Estop; [|discriminate].
    cbn [bind] in E.
    destruct (slice x (Z.of_nat start) (Z.of_nat stop)) as [|w0 w] eqn:Ew;
      [discriminate|].
    cbn [np_max np_argmax bind] in E.
    destruct (setitem maxima j (fold_left np_maximum w w0)) as [maxima1|] eqn:E1;
      [|discriminate].
    cbn [bind] in E.
    destruct (setitem idx j (start + argmax_from w0 0 1 w)%nat) as [idx1|] eqn:E2;
      [|discriminate].
    cbn [bind] in E.
    destruct (setitem_inv _ _ _ _ E1) as (Hm & Fm & _).
    destruct (setitem_inv _ _ _ _ E2) as (Hi & Fi & _).
    destruct (IH _ _ _ _ _ E) as [Hlow Hfilled].
    split.
    + intros p Hp. destruct (Hlow p) as [A B]; [lia|].
      rewrite A, B, Fm, Fi by lia. split; reflexivity.
    + intros [|i] s Hs.
      * cbn in Hs. injection Hs as <-. exists stop, w0, w.
        replace (j + 0 + 1)%nat with (j + 1)%nat by lia.
        replace (j + 0)%nat with j by lia.
        destruct (Hlow j) as [A B]; [lia|].
        rewrite A, B. auto.
      * cbn [nth_error] in Hs.
        destruct (Hfilled i s Hs) as (stop' & v0 & v & A & B & C & D).
        exists stop', v0, v.
        replace (j + S i + 1)%nat with (S j + i + 1)%nat by lia.
        replace (j + S i)%nat with (S j + i)%nat by lia. auto.
Qed.

Lemma closed_crossings_facts (x : list R) :
  crossing_positions x true <> [] ->
  increasing (closed_crossings x)
  /\ Forall (fun p => (p < length x)%nat) (closed_crossings x)
  /\ (length (closed_crossings x) - 1 <= length (crossing_positions x true))%nat
  /\ ((last (crossing_positions x true) 0 < length x - 1)%nat ->
      closed_crossings x
      = crossing_positions x true ++ [(length x - 1)%nat]).
Proof.
  intros Hne. unfold closed_crossings.
  pose proof (crossing_positions_increasing x true) as Hinc.
  pose proof (crossing_positions_bounds x true) as Hb.
  set (cp := crossing_positions x true) in *.
  assert (Hx : (0 < length x)%nat).
  { destruct cp as [|p cp'] eqn:E; [contradiction|]. inversion Hb; subst. lia. }
  destruct (Z.of_nat (last cp 0%nat) <? Z.of_nat (length x) - 1) eqn:E.
  - apply Z.ltb_lt in E. split; [|split; [|split]].
    + apply increasing_app_last; [assumption|].
      eapply Forall_impl; [|apply (increasing_le_last cp 0%nat Hinc)].
      cbn beta. intros a Ha. lia.
    + apply Forall_app. split; [assumption|]. constructor; [lia|constructor].
    + rewrite length_app. cbn. lia.
    + reflexivity.
  - apply Z.ltb_ge in E. repeat split; [assumption|assumption|lia|]. lia.
Qed.

(** [find_maxima] past the crossing test, step by step. *)
Lemma find_maxima_steps (x : list R) (local : bool) (threshold : option (pyobj R))
      (retind : bool) :
  (2 <= length (crossing_positions x true))%nat ->
  find_maxima x local threshold true retind
  = (found <- (if negb local
               then global_maxima x (closed_crossings x)
                      (Z.of_nat (length (crossing_positions x true)))
               else local_maxima x) ;;
     kept <- apply_threshold threshold found ;;
     sort_kept kept retind).
Proof.
  intros Hmany. unfold find_maxima, closed_crossings.
  rewrite crossings_sum. cbn [indicator]. rewrite Z.mul_1_l.
  assert (E : (Z.of_nat (length (crossing_positions x true)) <? 2) = false)
    by (apply Z.ltb_ge; lia).
  rewrite E.
  rewrite (getitem_last (crossing_positions x true) 0%nat)
    by (intros E'; rewrite E' in Hmany; cbn in Hmany; lia).
  cbn [bind]. unfold demean. rewrite length_map.
  destruct (if negb local then _ else _) as [[fm fi]|e]; reflexivity.
Qed.

End PeakStructure.

Section MaximumFacts.

Context {R : Type} `{Scalar R}.

Lemma argmax_from_bound (l : list R) :
  forall (mp : R) (best i : nat),
    (best < i)%nat -> (argmax_from mp best i l < i + length l)%nat.
Proof.
  induction l as [|a l IH]; intros mp best i Hb; cbn [argmax_from length].
  - lia.
  - destruct (isnan mp); [lia|].
    destruct (negb (fle a mp)).
    + specialize (IH a i (S i)). lia.
    + specialize (IH mp best (S i)). lia.
Qed.

Lemma fold_maximum_In (l : list R) (acc : R) :
  In (fold_left np_maximum l acc) (acc :: l).
Proof.
  revert acc. induction l as [|a l IH]; intros acc; [now left|].
  cbn [fold_left]. specialize (IH (np_maximum acc a)).
  unfold np_maximum in *.
  destruct (fle a acc || isnan acc); destruct IH as [E|IH]; cbn; auto.
Qed.

(** Without NaN the scan of [argmax] follows the scan of [max]: the
    position it ends on holds the maximum. *)
Lemma argmax_holds_maximum (l : list R) :
  forall (pre : list R) (mp : R) (best : nat),
    feq mp mp = true ->
    Forall (fun a => feq a a = true) l ->
    nth_error (pre ++ l) best = Some mp ->
    nth_error (pre ++ l) (argmax_from mp best (length pre) l)
    = Some (fold_left np_maximum l mp).
Proof.
  induction l as [|a l IH]; intros pre mp best Hmp Hl Hbest.
  - exact Hbest.
  - inversion Hl as [|? ? Ha Hl']; subst.
    cbn [argmax_from fold_left]. unfold np_maximum, isnan. rewrite Hmp.
    cbn [negb]. rewrite orb_false_r.
    replace (pre ++ a :: l) with ((pre ++ [a]) ++ l) in *
      by (rewrite <- app_assoc; reflexivity).
    replace (S (length pre)) with (length (pre ++ [a]))
      by (rewrite length_app; cbn; lia).
    destruct (fle a mp); cbn [negb].
    + now apply IH.
    + apply IH; [assumption|assumption|].
      rewrite nth_error_app1 by (rewrite length_app; cbn; lia).
      rewrite nth_error_app2 by lia. now rewrite Nat.sub_diag.
Qed.

Lemma fold_maximum_dominates (x : list R) :
  ordered_samples x ->
  forall (l : list R) (acc : R),
    In acc x -> incl l x ->
    In (fold_left np_maximum l acc) x
    /\ fle acc (fold_left np_maximum l acc) = true
    /\ forall a, In a l -> fle a (fold_left np_maximum l acc) = true.
Proof.
  intros (Hnan & Htot & Htrans).
  induction l as [|b l IH]; intros acc Hacc Hl.
  - cbn. split; [assumption|]. split; [|contradiction].
    destruct (Htot acc acc Hacc Hacc); assumption.
  - assert (Hb : In b x) by (apply Hl; now left).
    assert (Hl' : incl l x) by (intros a Ha; apply Hl; now right).
    cbn [fold_left]. unfold np_maximum at 2 4 6. unfold isnan.
    rewrite (Hnan acc Hacc). cbn [negb]. rewrite orb_false_r.
    destruct (fle b acc) eqn:E.
    + destruct (IH acc Hacc Hl') as (Hin & Hge & Hall).
      split; [assumption|]. split; [assumption|].
      intros a [<-|Ha]; [|now apply Hall].
      now apply (Htrans b acc _ Hb Hacc Hin).
    + destruct (IH b Hb Hl') as (Hin & Hge & Hall).
      split; [assumption|]. split.
      * apply (Htrans acc b _ Hacc Hb Hin); [|assumption].
        destruct (Htot acc b Hacc Hb) as [E'|E']; [assumption|congruence].
      * intros a [<-|Ha]; [assumption|now apply Hall].
Qed.

(** On comparable samples the scan of [argmax] ends on the first position
    holding the maximum: every sample before it is strictly smaller. *)
Lemma argmax_first (x : list R) :
  ordered_samples x ->
  forall (l pre : list R) (mp : R) (best : nat),
    incl (pre ++ l) x ->
    nth_error pre best = Some mp ->
    (forall q a, (q < best)%nat -> nth_error pre q = Some a ->
                 fle mp a = false) ->
    (forall q a, (best < q)%nat -> nth_error pre q = Some a ->
                 fle a mp = true) ->
    forall q a, (q < argmax_from mp best (length pre) l)%nat ->
                nth_error (pre ++ l) q = Some a ->
                fle (fold_left np_maximum l mp) a = false.
Proof.
  intros (Hnan & Htot & Htrans).
  induction l as [|c l IH]; intros pre mp best Hsub Hbest Hlow Hhigh q a Hq Ea.
  - cbn [argmax_from] in Hq. rewrite app_nil_r in Ea. cbn [fold_left].
    now apply (Hlow q).
  - assert (Hmp : In mp x).
    { apply Hsub, in_or_app. left. eapply nth_error_In; eauto. }
    assert (Hc : In c x) by (apply Hsub, in_or_app; right; now left).
    assert (Hb : (best < length pre)%nat)
      by (apply nth_error_Some; congruence).
    assert (Hnm : isnan mp = false)
      by (unfold isnan; now rewrite (Hnan mp Hmp)).
    assert (Emax : np_maximum mp c = if fle c mp then mp else c)
      by (unfold np_maximum; now rewrite Hnm, orb_false_r).
    cbn [argmax_from] in Hq. cbn [fold_left]. rewrite Hnm in Hq.
    rewrite Emax.
    replace (pre ++ c :: l) with ((pre ++ [c]) ++ l) in *
      by (rewrite <- app_assoc; reflexivity).
    replace (S (length pre)) with (length (pre ++ [c])) in Hq
      by (rewrite length_app; cbn; lia).
    destruct (fle c mp) eqn:Ecm; cbn [negb] in Hq.
    + refine (IH (pre ++ [c]) mp best Hsub _ _ _ q a Hq Ea).
      * rewrite nth_error_app1 by lia. exact Hbest.
      * intros q' a' Hq' Ea'. rewrite nth_error_app1 in Ea' by lia.
        now apply (Hlow q').
      * intros q' a' Hq' Ea'.
        destruct (Nat.lt_ge_cases q' (length pre)) as [Hin|Hout].
        -- rewrite nth_error_app1 in Ea' by lia. now apply (Hhigh q').
        -- rewrite nth_error_app2 in Ea' by lia.
           destruct (q' - length pre)%nat as [|d]; [|destruct d; discriminate].
           now injection Ea' as <-.
    + refine (IH (pre ++ [c]) c (length pre) Hsub _ _ _ q a Hq Ea).
      * rewrite nth_error_app2 by lia. now rewrite Nat.sub_diag.
      * intros q' a' Hq' Ea'. rewrite nth_error_app1 in Ea' by lia.
        assert (Ha' : In a' x).
        { apply Hsub, in_or_app. left. apply in_or_app. left.
          eapply nth_error_In; eauto. }
        destruct (fle c a') eqn:Eca; [exfalso|reflexivity].
        assert (Ham : fle a' mp = true).
        { destruct (Nat.lt_trichotomy q' best) as [Hlt|[->|Hgt]].
          - destruct (Htot a' mp Ha' Hmp) as [E|E]; [exact E|].
            rewrite (Hlow q' a' Hlt Ea') in E. discriminate.
          - rewrite Hbest in Ea'. injection Ea' as <-.
            destruct (Htot mp mp Hmp Hmp); assumption.
          - now apply (Hhigh q'). }
        rewrite (Htrans c a' mp Hc Ha' Hmp Eca Ham) in Ecm. discriminate.
      * intros q' a' Hq' Ea'.
        assert (Hn : nth_error (pre ++ [c]) q' = None).
        { apply nth_error_None. rewrite length_app. cbn. lia. }
        congruence.
Qed.

End MaximumFacts.

Section LocalMaxima.

Context {R : Type} `{Scalar R}.

Lemma descent_flags_nth (x : list R) (k : nat) :
  (k < length x)%nat ->
  nth_error (map (fun d => 1 * b2z (flt d fzero)) (np_diff fsub x) ++ [0]) k
  = Some (b2z (descends x k)).
Proof.
  intros Hk. unfold descends.
  destruct (nth_error x k) as [a|] eqn:Ea; [|apply nth_error_None in Ea; lia].
  destruct (Nat.eq_dec (S k) (length x)) as [Elast|Hin].
  - rewrite nth_error_app2 by (rewrite length_map, np_diff_length; lia).
    rewrite length_map, np_diff_length.
    replace (k - (length x - 1))%nat with 0%nat by lia.
    assert (Eb : nth_error x (S k) = None) by (apply nth_error_None; lia).
    now rewrite Eb.
  - rewrite nth_error_app1 by (rewrite length_map, np_diff_length; lia).
    rewrite nth_error_map, np_diff_nth, Ea.
    destruct (nth_error x (S k)) as [b|] eqn:Eb;
      [|apply nth_error_None in Eb; lia].
    cbn [option_map]. now rewrite Z.mul_1_l.
Qed.

Lemma turning_point_descends (x : list R) (i : nat) :
  turning_point x i
  <-> (1 <= i)%nat /\ descends x (i - 1) = false /\ descends x i = true.
Proof.
  unfold turning_point, descends. split.
  - intros [Hi (a & b & c & Ea & Eb & Ec & E1 & E2)]. split; [assumption|].
    replace (S (i - 1)) with i by lia.
    replace (S i) with (i + 1)%nat by lia.
    now rewrite Ea, Eb, Ec.
  - intros [Hi [E1 E2]]. split; [assumption|].
    replace (S (i - 1)) with i in E1 by lia.
    replace (S i) with (i + 1)%nat in E2 by lia.
    destruct (nth_error x i) as [b|] eqn:Eb; [|discriminate].
    destruct (nth_error x (i + 1)) as [c|] eqn:Ec; [|discriminate].
    destruct (nth_error x (i - 1)) as [a|] eqn:Ea.
    + exists a, b, c. auto.
    + apply nth_error_None in Ea.
      assert (Hb : (i < length x)%nat) by (apply nth_error_Some; congruence).
      lia.
Qed.

Lemma local_maxima_spec (x : list R) :
  exists idx,
    local_maxima x = Ok (map (fun i => nth i x fzero) idx, idx)
    /\ Forall (fun i => (i < length x)%nat) idx
    /\ forall i, In i idx <-> turning_point x i.
Proof.
  unfold local_maxima.
  set (ds := map (fun d => 1 * b2z (flt d fzero)) (np_diff fsub x) ++ [0]).
  set (mask := map (fun c => c =? 1) (0 :: np_diff Z.sub ds)).
  assert (Hiff : forall i, In i (np_where mask) <-> turning_point x i).
  { intros i. unfold np_where. rewrite where_from_In, Nat.sub_0_r.
    rewrite turning_point_descends. unfold mask.
    destruct i as [|k].
    - cbn. split; [intros [_ E]; discriminate|intros [Hi _]; lia].
    - cbn [map nth_error]. rewrite nth_error_map, np_diff_nth.
      replace (S k - 1)%nat with k by lia.
      destruct (Nat.lt_ge_cases (S k) (length x)) as [Hin|Hout].
      + unfold ds. rewrite !descent_flags_nth by lia. cbn [option_map].
        destruct (descends x k), (descends x (S k)); cbn; split;
          try (intros [_ E]; discriminate);
          try (intros [_ [E1 E2]]; discriminate);
          intros _; repeat split; lia.
      + split.
        * intros [_ E].
          assert (En : nth_error ds (S k) = None).
          { apply nth_error_None. unfold ds.
            rewrite length_app, length_map, np_diff_length. cbn. lia. }
          rewrite En in E. destruct (nth_error ds k); discriminate.
        * intros [_ [_ E]]. unfold descends in E.
          assert (En : nth_error x (S k) = None) by (apply nth_error_None; lia).
          rewrite En in E. discriminate. }
  assert (Hb : Forall (fun i => (i < length x)%nat) (np_where mask)).
  { apply Forall_forall. intros i Hi. apply Hiff in Hi.
    destruct Hi as [_ (a & b & c & _ & Eb & _)].
    apply nth_error_Some. congruence. }
  exists (np_where mask). split; [|split; assumption].
  fold ds. fold mask. now rewrite (take_nth fzero x _ Hb).
Qed.

End LocalMaxima.

Section GlobalMaxima.

Context {R : Type} `{Scalar R}.

(** The windows of the global branch are well formed: each start has a
    stop after it, inside the signal. *)
Lemma closed_crossings_windows (x : list R) :
  crossing_positions x true <> [] ->
  forall w start,
    nth_error (removelast (closed_crossings x)) w = Some start ->
    exists stop,
      nth_error (closed_crossings x) w = Some start
      /\ nth_error (closed_crossings x) (S w) = Some stop
      /\ (start < stop < length x)%nat.
Proof.
  intros Hne w start Hs.
  destruct (closed_crossings_facts x Hne) as (Hinc & Hb & _).
  apply removelast_nth in Hs. destruct Hs as [Hs Hw].
  destruct (nth_error (closed_crossings x) (S w)) as [stop|] eqn:Estop;
    [|apply nth_error_None in Estop; lia].
  exists stop. split; [assumption|]. split; [reflexivity|].
  split.
  - apply (increasing_nth _ w (S w) _ _ Hinc); auto.
  - rewrite Forall_forall in Hb. apply Hb. eapply nth_error_In; eauto.
Qed.

Lemma global_maxima_spec (x : list R) :
  (2 <= length (crossing_positions x true))%nat ->
  exists fm fi,
    global_maxima x (closed_crossings x)
                  (Z.of_nat (length (crossing_positions x true)))
    = Ok (fm, fi)
    /\ length fm = length (crossing_positions x true)
    /\ length fi = length (crossing_positions x true)
    /\ (forall w start,
           nth_error (removelast (closed_crossings x)) w = Some start ->
           exists stop w0 ws,
             nth_error (closed_crossings x) (S w) = Some stop
             /\ (start < stop < length x)%nat
             /\ slice x (Z.of_nat start) (Z.of_nat stop) = w0 :: ws
             /\ nth_error fm w = Some (fold_left np_maximum ws w0)
             /\ nth_error fi w = Some (start + argmax_from w0 0 1 ws)%nat)
    /\ (forall p, (length (closed_crossings x) - 1 <= p)%nat ->
                  (p < length (crossing_positions x true))%nat ->
                  nth_error fm p = Some fzero /\ nth_error fi p = Some 0%nat).
Proof.
  intros Hmany.
  assert (Hne : crossing_positions x true <> [])
    by (intros E; rewrite E in Hmany; cbn in Hmany; lia).
  destruct (closed_crossings_facts x Hne) as (Hinc & Hb & Hlen & _).
  unfold global_maxima. rewrite Nat2Z.id.
  set (k := length (crossing_positions x true)) in *.
  destruct (global_loop_returns x (closed_crossings x)
              (removelast (closed_crossings x)) 0
              (repeat fzero k) (repeat 0%nat k))
    as (fm & fi & E & Lm & Li & Fr).
  - intros i s Hs.
    destruct (closed_crossings_windows x Hne i s Hs) as (stop & _ & Es & Hlt).
    exists stop. replace (0 + i + 1)%nat with (S i) by lia.
    split; [assumption|]. lia.
  - rewrite repeat_length, removelast_length. lia.
  - now rewrite !repeat_length.
  - rewrite repeat_length in Lm, Li.
    exists fm, fi. split; [exact E|]. split; [exact Lm|]. split; [exact Li|].
    destruct (global_loop_inv _ _ _ _ _ _ _ _ E) as [_ Hfilled].
    split.
    + intros w start Hs.
      destruct (Hfilled w start Hs) as (stop & w0 & ws & A & B & C & D).
      destruct (closed_crossings_windows x Hne w start Hs)
        as (stop' & _ & Es & Hlt).
      replace (0 + w + 1)%nat with (S w) in A by lia.
      rewrite Es in A. injection A as ->.
      exists stop, w0, ws. cbn [Nat.add] in C, D. auto.
    + intros p Hp Hk. rewrite removelast_length in Fr.
      destruct (Fr p) as [A B]; [lia|].
      rewrite A, B. now rewrite !(nth_error_repeat _ Hk).
Qed.

(** What [find_maxima] returns past the crossing test, in terms of the
    candidates its branch extracted: those the threshold keeps, up to
    order. *)
Lemma find_maxima_result (x : list R) (local : bool)
      (threshold : option (pyobj R)) :
  (2 <= length (crossing_positions x true))%nat ->
  (threshold = None \/ exists v, threshold = Some (PyFloat v)) ->
  exists fm fi m i,
    (if negb local
     then global_maxima x (closed_crossings x)
            (Z.of_nat (length (crossing_positions x true)))
     else local_maxima x) = Ok (fm, fi)
    /\ length fm = length fi
    /\ (forall retind,
           find_maxima x local threshold true retind
           = Ok (m, if retind then Some i else None))
    /\ length m = length i
    /\ Permutation (combine m i)
         (filter (fun p => match threshold with
                           | Some (PyFloat v) => fle v (fst p)
                           | _ => true
                           end) (combine fm fi)).
Proof.
  intros Hmany Hthr.
  assert (Hfound : exists fm fi,
             (if negb local
              then global_maxima x (closed_crossings x)
                     (Z.of_nat (length (crossing_positions x true)))
              else local_maxima x) = Ok (fm, fi)
             /\ length fm = length fi).
  { destruct local; cbn [negb].
    - destruct (local_maxima_spec x) as (idx & E & _).
      eexists. eexists. split; [exact E|]. apply length_map.
    - destruct (global_maxima_spec x Hmany) as (fm & fi & E & Lm & Li & _).
      exists fm, fi. split; [exact E|]. congruence. }
  destruct Hfound as (fm & fi & Efound & Hlen).
  exists fm, fi.
  destruct Hthr as [-> | [v ->]].
  - destruct (sort_kept_returns fm fi Hlen) as (m & i & E & L & P).
    exists m, i. split; [exact Efound|]. split; [exact Hlen|].
    split; [|split; [exact L|]].
    + intros retind. rewrite find_maxima_steps by assumption.
      rewrite Efound. cbn [bind apply_threshold]. apply E.
    + rewrite P. clear. induction (combine fm fi) as [|p l IH];
        cbn [filter]; [reflexivity|]. now constructor.
  - destruct (combine_compress (fun a => fle v a) fm fi Hlen) as [Ec Lc].
    destruct (sort_kept_returns _ _ Lc) as (m & i & E & L & P).
    exists m, i. split; [exact Efound|]. split; [exact Hlen|].
    split; [|split; [exact L|]].
    + intros retind. rewrite find_maxima_steps by assumption.
      rewrite Efound. cbn [bind apply_threshold fst snd]. apply E.
    + now rewrite P, Ec.
Qed.

End GlobalMaxima.

(** ** float64: the order of the samples and NaN *)

Lemma SFcompare_refl (s : spec_float) :
  s <> S754_nan -> SFcompare s s = Some Eq.
Proof.
  destruct s as [b|b| |b m e]; intros Hs; try reflexivity; try contradiction.
  - now destruct b.
  - cbn. rewrite Z.compare_refl, Pos.compare_cont_refl. now destruct b.
Qed.

Lemma SFcompare_swap (a b : spec_float) :
  SFcompare b a = option_map CompOpp (SFcompare a b).
Proof.
  destruct a as [s1|s1| |s1 m1 e1], b as [s2|s2| |s2 m2 e2]; cbn;
    try reflexivity;
    try (destruct s1; reflexivity); try (destruct s2; reflexivity);
    try (destruct s1, s2; reflexivity).
  rewrite (Z.compare_antisym e1 e2).
  change (PosDef.Pos.compare_cont Eq m2 m1) with (Pos.compare m2 m1).
  change (PosDef.Pos.compare_cont Eq m1 m2) with (Pos.compare m1 m2).
  rewrite (Pos.compare_antisym m1 m2).
  destruct s1, s2; cbn; try reflexivity;
    destruct (e1 ?= e2); cbn; try reflexivity;
    destruct (Pos.compare m1 m2); reflexivity.
Qed.

Lemma SFcompare_defined (a b : spec_float) :
  a <> S754_nan -> b <> S754_nan -> SFcompare a b <> None.
Proof.
  intros Ha Hb. destruct a, b; cbn; try discriminate; contradiction.
Qed.

Lemma SFleb_total (a b : spec_float) :
  a <> S754_nan -> b <> S754_nan -> SFleb a b = true \/ SFleb b a = true.
Proof.
  intros Ha Hb. unfold SFleb. rewrite (SFcompare_swap a b).
  pose proof (SFcompare_defined a b Ha Hb) as Hd.
  destruct (SFcompare a b) as [[| |]|]; cbn; auto; contradiction.
Qed.

Lemma SFleb_trans (a b c : spec_float) :
  SFleb a b = true -> SFleb b c = true -> SFleb a c = true.
Proof.
  unfold SFleb.
  destruct a as [s1|s1| |s1 m1 e1], b as [s2|s2| |s2 m2 e2],
           c as [s3|s3| |s3 m3 e3]; cbn;
    try discriminate; try reflexivity;
    try (destruct s1; try discriminate; try reflexivity;
         destruct s2; try discriminate; try reflexivity;
         destruct s3; try discriminate; try reflexivity; fail);
    try (destruct s1, s2; discriminate || reflexivity || idtac; fail).
  all: destruct s1, s2, s3; try discriminate; try reflexivity;
    try (intros; assumption).
  all: change (PosDef.Pos.compare_cont Eq) with Pos.compare;
    destruct (Z.compare_spec e1 e2), (Z.compare_spec e2 e3),
             (Z.compare_spec e1 e3);
    try lia; try discriminate; try reflexivity; subst;
    destruct (Pos.compare_spec m1 m2), (Pos.compare_spec m2 m3),
             (Pos.compare_spec m1 m3);
    cbn; try lia; try discriminate; try reflexivity.
Qed.

Lemma float_isnan (a : float) :
  isnan a = true <-> Prim2SF a = S754_nan.
Proof.
  unfold isnan. cbn [feq float64]. rewrite FloatAxioms.eqb_spec. unfold SFeqb.
  split.
  - intros E. destruct (Prim2SF a) eqn:Ea; try reflexivity;
      rewrite SFcompare_refl in E by discriminate; discriminate.
  - intros ->. reflexivity.
Qed.

Lemma float_not_nan (a : float) :
  feq a a = true <-> Prim2SF a <> S754_nan.
Proof.
  rewrite <- float_isnan. unfold isnan. destruct (feq a a); cbn; split;
    congruence.
Qed.

Lemma float_leb_not_nan (a b : float) :
  fle a b = true -> feq a a = true /\ feq b b = true.
Proof.
  cbn [fle float64]. rewrite FloatAxioms.leb_spec. unfold SFleb. intros E.
  rewrite !float_not_nan.
  destruct (Prim2SF a), (Prim2SF b); cbn in E; try discriminate;
    split; discriminate.
Qed.

(** float64 samples without a NaN are comparable with each other. *)
Lemma float_ordered_samples (x : list float) :
  (forall a, In a x -> feq a a = true) -> ordered_samples x.
Proof.
  intros Hnan. split; [exact Hnan|]. split.
  - intros a b Ha Hb. cbn [fle float64]. rewrite !FloatAxioms.leb_spec.
    apply SFleb_total; apply float_not_nan; auto.
  - intros a b c _ _ _. cbn [fle float64]. rewrite !FloatAxioms.leb_spec.
    apply SFleb_trans.
Qed.

(** numpy's sorting order on float64, read backwards: [b] does not come
    before [a] exactly when [a <= b] or [b] is a NaN. *)
Lemma float_sort_order (a b : float) :
  sort_lt b a = false <-> fle a b = true \/ isnan b = true.
Proof.
  unfold sort_lt.
  destruct (isnan a) eqn:Na; destruct (isnan b) eqn:Nb; cbn [negb andb].
  - rewrite orb_false_r. apply float_isnan in Nb.
    cbn [flt float64]. rewrite FloatAxioms.ltb_spec, Nb. cbn. tauto.
  - rewrite orb_true_r. apply float_isnan in Na.
    cbn [fle float64]. rewrite FloatAxioms.leb_spec, Na.
    split; [discriminate|]. intros [E|E]; discriminate.
  - rewrite orb_false_r. apply float_isnan in Nb.
    cbn [flt float64]. rewrite FloatAxioms.ltb_spec, Nb. cbn. tauto.
  - rewrite orb_false_r.
    assert (Ha : Prim2SF a <> S754_nan)
      by (intros E; apply float_isnan in E; congruence).
    assert (Hb : Prim2SF b <> S754_nan)
      by (intros E; apply float_isnan in E; congruence).
    cbn [flt fle float64]. rewrite FloatAxioms.ltb_spec, FloatAxioms.leb_spec.
    unfold SFltb, SFleb. rewrite (SFcompare_swap (Prim2SF a) (Prim2SF b)).
    pose proof (SFcompare_defined _ _ Ha Hb) as Hd.
    destruct (SFcompare (Prim2SF a) (Prim2SF b)) as [[| |]|]; cbn;
      try contradiction; split; auto; try discriminate.
    intros [E|E]; discriminate.
Qed.

Lemma float_sort_asym (a b : float) :
  sort_lt a b = true -> sort_lt b a = false.
Proof.
  intros E. apply float_sort_order. unfold sort_lt in E.
  destruct (isnan b) eqn:Nb; [now right|left].
  cbn [andb] in E. rewrite orb_false_r in E.
  cbn [flt fle float64] in *.
  rewrite FloatAxioms.ltb_spec in E. rewrite FloatAxioms.leb_spec.
  unfold SFltb in E. unfold SFleb.
  destruct (SFcompare (Prim2SF a) (Prim2SF b)) as [[| |]|];
    discriminate || reflexivity.
Qed.

Lemma float_sort_trans (a b c : float) :
  sort_lt b a = false -> sort_lt c b = false -> sort_lt c a = false.
Proof.
  rewrite !float_sort_order. intros [Hab|Nb] [Hbc|Nc]; auto.
  - left. cbn [fle float64] in *.
    rewrite FloatAxioms.leb_spec in *. eapply SFleb_trans; eauto.
  - apply float_leb_not_nan in Hbc. destruct Hbc as [Hb _].
    unfold isnan in Nb. rewrite Hb in Nb. discriminate.
Qed.

Lemma float_add_nan (a b : float) :
  isnan a = true \/ isnan b = true -> isnan (fadd a b) = true.
Proof.
  rewrite !float_isnan. cbn [fadd float64]. rewrite FloatAxioms.add_spec.
  intros [E|E]; rewrite E; [reflexivity|].
  destruct (Prim2SF a); reflexivity.
Qed.

Lemma float_sub_nan (a b : float) :
  isnan b = true -> isnan (fsub a b) = true.
Proof.
  rewrite !float_isnan. cbn [fsub float64]. rewrite FloatAxioms.sub_spec.
  intros E. rewrite E. destruct (Prim2SF a); reflexivity.
Qed.

Lemma float_div_nan (a b : float) :
  isnan a = true -> isnan (fdiv a b) = true.
Proof.
  rewrite !float_isnan. cbn [fdiv float64]. rewrite FloatAxioms.div_spec.
  intros E. now rewrite E.
Qed.

Lemma float_lt_nan (a b : float) :
  isnan a = true \/ isnan b = true -> flt a b = false.
Proof.
  rewrite !float_isnan. cbn [flt float64]. rewrite FloatAxioms.ltb_spec.
  intros [E|E]; rewrite E; [reflexivity|].
  destruct (Prim2SF a); reflexivity.
Qed.

Lemma float_sum_nan (l : list float) (acc : float) :
  isnan acc = true \/ (exists a, In a l /\ isnan a = true) ->
  isnan (fold_left fadd l acc) = true.
Proof.
  revert acc. induction l as [|b l IH]; intros acc Hn; cbn [fold_left].
  - destruct Hn as [E|[a [[] _]]]. exact E.
  - apply IH. destruct Hn as [E|[a [[<-|Ha] Na]]].
    + left. apply float_add_nan. now left.
    + left. apply float_add_nan. now right.
    + right. now exists a.
Qed.

Lemma where_from_none (s : nat) (mask : list bool) :
  (forall k, nth_error mask k <> Some true) -> where_from s mask = [].
Proof.
  intros Hnone. destruct (where_from s mask) as [|p l] eqn:E; [reflexivity|].
  assert (Hp : In p (where_from s mask)) by (rewrite E; now left).
  apply where_from_In in Hp. destruct Hp as [_ Hp]. now apply Hnone in Hp.
Qed.

(** A NaN among the samples makes the mean a NaN and every demeaned
    sample with it: no comparison with zero holds, no crossing is seen. *)
Lemma float_nan_no_crossing (x : list float) (up : bool) :
  (exists a, In a x /\ isnan a = true) -> crossing_positions x up = [].
Proof.
  intros Hnan.
  assert (Hmean : isnan (np_mean x) = true).
  { unfold np_mean. apply float_div_nan. unfold np_sum.
    apply float_sum_nan. now right. }
  assert (Hall : forall k b, nth_error (demean x) k = Some b -> isnan b = true).
  { intros k b Eb. unfold demean in Eb. rewrite nth_error_map in Eb.
    destruct (nth_error x k) as [a|]; [|discriminate].
    injection Eb as <-. now apply float_sub_nan. }
  unfold crossing_positions, np_where. rewrite where_from_none; [reflexivity|].
  intros k Ek. apply crossing_mask_nth in Ek.
  destruct Ek as (a & b & Ea & Eb & Hc).
  apply Hall in Ea. apply Hall in Eb.
  destruct up; destruct Hc as [H1 H2].
  - rewrite float_lt_nan in H2 by now right. discriminate.
  - rewrite float_lt_nan in H1 by now left. discriminate.
Qed.

Lemma float_crossing_samples (x : list float) (up : bool) :
  crossing_positions x up <> [] -> forall a, In a x -> feq a a = true.
Proof.
  intros Hne a Ha. destruct (feq a a) eqn:E; [reflexivity|].
  exfalso. apply Hne. apply float_nan_no_crossing. exists a.
  split; [exact Ha|]. unfold isnan. now rewrite E.
Qed.

(** X6.  A single NaN among float64 samples hides every crossing, in
    both directions: the mean is a NaN, so is every demeaned sample, and
    no comparison with zero holds.  [find_maxima] then returns the empty
    result and [average_frequency] fails on [i[-1]] with [IndexError]. *)
Theorem nan_sample_hides_crossings (x : list float) (up : bool) :
  (exists a, In a x /\ isnan a = true) ->
  crossing_positions x up = []
  /\ (forall local threshold retind,
         find_maxima x local threshold up retind
         = Ok ([], if retind then Some [] else None))
  /\ (forall t, average_frequency t x up = Raise IndexError).
Proof.
  intros Hnan. pose proof (float_nan_no_crossing x up Hnan) as E.
  split; [exact E|]. split.
  - intros local threshold retind. unfold find_maxima.
    rewrite crossings_sum, E. cbn [length Z.of_nat]. rewrite Z.mul_0_r.
    cbn. now destruct retind.
  - intros t. now apply average_frequency_no_crossing.
Qed.

Lemma nan_sample_hides_crossings_witness :
  crossing_positions [-1; 1; nan; 1; -1; 1]%float true = []
  /\ find_maxima [-1; 1; nan; 1; -1; 1]%float false None true true
     = Ok ([], Some [])
  /\ average_frequency [0; 1; 2; 3; 4; 5]%float [-1; 1; nan; 1; -1; 1]%float
                       true
     = Raise IndexError.
Proof.
  destruct (nan_sample_hides_crossings [-1; 1; nan; 1; -1; 1]%float true)
    as (E & Hf & Ha).
  - exists nan. split; [cbn; tauto|reflexivity].
  - split; [exact E|]. split; [apply (Hf false None true)|apply Ha].
Defined.

(** ** The order of the returned maxima *)

Lemma map_fst_combine {A B : Type} (a : list A) (b : list B) :
  length a = length b -> map fst (combine a b) = a.
Proof.
  revert b. induction a as [|u a IH]; intros [|v b] Hl; cbn in *;
    try discriminate; [reflexivity|].
  f_equal. apply IH. lia.
Qed.

Lemma combine_seq_nth {A : Type} (l : list A) (s : nat) (v : A) (j : nat) :
  In (v, j) (combine l (seq s (length l))) ->
  (s <= j)%nat /\ nth_error l (j - s) = Some v.
Proof.
  revert s. induction l as [|a l IH]; intros s Hin; [contradiction|].
  cbn [length seq combine In] in Hin. destruct Hin as [E|Hin].
  - injection E as <- <-. rewrite Nat.sub_diag. split; [lia|reflexivity].
  - apply IH in Hin. destruct Hin as [Hs Hn]. split; [lia|].
    replace (j - s)%nat with (S (j - S s)) by lia. exact Hn.
Qed.

Lemma strongly_sorted_nth {A : Type} (rel : A -> A -> Prop) (l : list A) :
  StronglySorted rel l ->
  forall p q a b, (p < q)%nat ->
                  nth_error l p = Some a -> nth_error l q = Some b -> rel a b.
Proof.
  induction 1 as [|c l Hs IH Hall]; intros p q a b Hpq Ha Hb.
  - destruct p; discriminate.
  - destruct q as [|q]; [lia|]. cbn [nth_error] in Hb.
    destruct p as [|p].
    + injection Ha as <-. rewrite Forall_forall in Hall. apply Hall.
      eapply nth_error_In; eauto.
    + cbn [nth_error] in Ha. apply (IH p q); auto. lia.
Qed.

Lemma strongly_sorted_map {A B : Type} (f : A -> B) (rel : B -> B -> Prop)
      (l : list A) :
  StronglySorted (fun u v => rel (f u) (f v)) l -> StronglySorted rel (map f l).
Proof.
  induction 1 as [|c l Hs IH Hall]; cbn [map]; constructor; [exact IH|].
  now apply Forall_map.
Qed.

Section SortFacts.

Context {R : Type} `{Scalar R}.

Hypothesis sort_asym : forall a b : R, sort_lt a b = true -> sort_lt b a = false.
Hypothesis sort_trans :
  forall a b c : R,
    sort_lt b a = false -> sort_lt c b = false -> sort_lt c a = false.

Lemma insert_sorted_sorted (p : R * nat) (l : list (R * nat)) :
  StronglySorted (fun u v => sort_lt (fst v) (fst u) = false) l ->
  StronglySorted (fun u v => sort_lt (fst v) (fst u) = false)
                 (insert_sorted p l).
Proof.
  induction 1 as [|q l Hs IH Hall]; cbn [insert_sorted].
  - constructor; constructor.
  - destruct (sort_lt (fst p) (fst q)) eqn:E.
    + constructor; [now constructor|].
      constructor; [now apply sort_asym|].
      eapply Forall_impl; [|exact Hall]. cbn beta. intros r Hr.
      apply (sort_trans _ (fst q)); [now apply sort_asym|exact Hr].
    + constructor; [exact IH|].
      eapply Permutation_Forall;
        [symmetry; apply insert_sorted_perm|].
      now constructor.
Qed.

Lemma insertion_sorted (ps acc : list (R * nat)) :
  StronglySorted (fun u v => sort_lt (fst v) (fst u) = false) acc ->
  StronglySorted (fun u v => sort_lt (fst v) (fst u) = false)
                 (fold_left (fun acc p => insert_sorted p acc) ps acc).
Proof.
  revert acc. induction ps as [|p ps IH]; intros acc Hacc; [exact Hacc|].
  cbn [fold_left]. apply IH. now apply insert_sorted_sorted.
Qed.

(** The values taken in the order of [np.argsort] are sorted, and they
    are the values given. *)
Lemma sort_kept_ascending (km : list R) (ki : list nat) (retind : bool)
      (m : list R) (oi : option (list nat)) :
  sort_kept (km, ki) retind = Ok (m, oi) ->
  StronglySorted (fun a b => sort_lt b a = false) m /\ Permutation m km.
Proof.
  unfold sort_kept. cbn [fst snd].
  rewrite (take_nth fzero km _ (np_argsort_bounds km)). cbn [bind].
  intros E.
  assert (Em : m = map (fun j => nth j km fzero) (np_argsort km)).
  { destruct (take ki (np_argsort km)) as [i|]; [|discriminate].
    cbn [bind] in E. destruct retind; now injection E as <- _. }
  clear E. subst m. unfold np_argsort.
  set (sorted := fold_left (fun acc p => insert_sorted p acc)
                           (combine km (seq 0 (length km))) []).
  assert (Hperm : Permutation sorted (combine km (seq 0 (length km)))).
  { unfold sorted. rewrite (insertion_perm _ []). now rewrite app_nil_r. }
  assert (Efst : map (fun j => nth j km fzero) (map snd sorted)
                 = map fst sorted).
  { rewrite map_map. apply map_ext_in. intros [v j] Hin. cbn [fst snd].
    apply (Permutation_in _ Hperm) in Hin. apply combine_seq_nth in Hin.
    destruct Hin as [_ Hn]. rewrite Nat.sub_0_r in Hn.
    now apply nth_error_nth. }
  rewrite Efst. split.
  - apply strongly_sorted_map. apply insertion_sorted. constructor.
  - rewrite (Permutation_map fst Hperm).
    rewrite map_fst_combine; [reflexivity|]. now rewrite length_seq.
Qed.

End SortFacts.

(** ** What the returned maxima are *)

Lemma combine_In_nth {A B : Type} (a : list A) (b : list B) (u : A) (v : B) :
  In (u, v) (combine a b)
  <-> exists w, nth_error a w = Some u /\ nth_error b w = Some v.
Proof.
  split.
  - revert b. induction a as [|a0 a IH]; intros [|b0 b] Hin;
      try contradiction.
    cbn [combine In] in Hin. destruct Hin as [E|Hin].
    + injection E as <- <-. now exists 0%nat.
    + destruct (IH b Hin) as [w [Ha Hb]]. now exists (S w).
  - intros [w [Ha Hb]]. apply (nth_error_In _ w).
    now apply combine_nth_error.
Qed.

Lemma removelast_nth_rev {A : Type} (l : list A) (i : nat) (s : A) :
  nth_error l i = Some s -> (S i < length l)%nat ->
  nth_error (removelast l) i = Some s.
Proof.
  revert i. induction l as [|a [|b l] IH]; intros i Hs Hi.
  - destruct i; discriminate.
  - cbn in Hi. lia.
  - change (removelast (a :: b :: l)) with (a :: removelast (b :: l)).
    destruct i as [|i]; [exact Hs|].
    cbn [nth_error] in *. apply IH; [exact Hs|]. cbn [length] in *. lia.
Qed.

Lemma slice_nat_In {A : Type} (l : list A) (a b : nat) (v : A) :
  (a <= b <= length l)%nat ->
  In v (slice l (Z.of_nat a) (Z.of_nat b)) -> In v l.
Proof.
  intros Hab Hin. apply In_nth_error in Hin. destruct Hin as [q Hq].
  assert (Hlt : (q < b - a)%nat).
  { rewrite <- (slice_nat_length l a b Hab). apply nth_error_Some. congruence. }
  rewrite (slice_nat_nth l a b q Hab Hlt) in Hq.
  eapply nth_error_In; eauto.
Qed.

Lemma filter_all {A : Type} (l : list A) : filter (fun _ => true) l = l.
Proof. induction l as [|a l IH]; cbn [filter]; [reflexivity|now f_equal]. Qed.

Section PeakResults.

Context {R : Type} `{Scalar R}.

(** One window of the global branch: the position [argmax] reports lies
    in the window and the value [max] reports is a sample of the signal;
    on comparable samples the position holds that value, and no sample
    of the window is larger. *)
Lemma window_scan (x : list R) (start stop : nat) (w0 : R) (ws : list R) :
  (start < stop <= length x)%nat ->
  slice x (Z.of_nat start) (Z.of_nat stop) = w0 :: ws ->
  (start + argmax_from w0 0 1 ws < stop)%nat
  /\ In (fold_left np_maximum ws w0) x
  /\ (ordered_samples x ->
      nth_error x (start + argmax_from w0 0 1 ws)
      = Some (fold_left np_maximum ws w0)
      /\ window_maximum x start stop (start + argmax_from w0 0 1 ws)
      /\ forall p a, (start <= p < start + argmax_from w0 0 1 ws)%nat ->
                     nth_error x p = Some a ->
                     fle (fold_left np_maximum ws w0) a = false).
Proof.
  intros Hss Ew.
  assert (Hab : (start <= stop <= length x)%nat) by lia.
  pose proof (slice_nat_length x start stop Hab) as Hlen.
  rewrite Ew in Hlen. cbn [length] in Hlen.
  pose proof (argmax_from_bound ws w0 0 1 ltac:(lia)) as Hbound.
  assert (Hsub : incl (w0 :: ws) x).
  { intros a Ha. rewrite <- Ew in Ha. eapply slice_nat_In; eauto. }
  split; [lia|]. split.
  - apply Hsub. apply fold_maximum_In.
  - intros Hord.
    assert (Hnan : forall a, In a x -> feq a a = true) by apply Hord.
    assert (Hpos : nth_error x (start + argmax_from w0 0 1 ws)
                   = Some (fold_left np_maximum ws w0)).
    { rewrite <- (slice_nat_nth x start stop) by (assumption || lia).
      rewrite Ew.
      apply (argmax_holds_maximum ws [w0] w0 0).
      - apply Hnan, Hsub. now left.
      - apply Forall_forall. intros a Ha. apply Hnan, Hsub. now right.
      - reflexivity. }
    split; [exact Hpos|]. split; [split; [lia|]|].
    + intros p a b Hp Ea Eb. rewrite Hpos in Eb. injection Eb as <-.
      assert (Hin : In a (w0 :: ws)).
      { rewrite <- Ew. apply (nth_error_In _ (p - start)).
        rewrite slice_nat_nth by (assumption || lia).
        now replace (start + (p - start))%nat with p by lia. }
      destruct (fold_maximum_dominates x Hord ws w0) as (_ & Hacc & Hall).
      * apply Hsub. now left.
      * intros c Hc. apply Hsub. now right.
      * destruct Hin as [<-|Hin]; [exact Hacc|now apply Hall].
    + intros p a Hp Ea.
      refine (argmax_first x Hord ws [w0] w0 0 Hsub eq_refl _ _
                (p - start) a _ _).
      * intros q c Hq. lia.
      * intros q c Hq Ec. destruct q as [|[|q]]; [lia|discriminate..].
      * cbn [length]. lia.
      * change ([w0] ++ ws) with (w0 :: ws). rewrite <- Ew.
        rewrite slice_nat_nth by (assumption || lia).
        now replace (start + (p - start))%nat with p by lia.
Qed.

(** The candidates of the global branch, slot by slot. *)
Lemma global_maxima_slots (x : list R) :
  (2 <= length (crossing_positions x true))%nat ->
  exists fm fi,
    global_maxima x (closed_crossings x)
                  (Z.of_nat (length (crossing_positions x true)))
    = Ok (fm, fi)
    /\ length fm = length (crossing_positions x true)
    /\ length fi = length (crossing_positions x true)
    /\ (forall w start stop,
           nth_error (closed_crossings x) w = Some start ->
           nth_error (closed_crossings x) (S w) = Some stop ->
           exists v j,
             nth_error fm w = Some v /\ nth_error fi w = Some j
             /\ (start <= j < stop)%nat /\ (stop < length x)%nat
             /\ In v x
             /\ (ordered_samples x ->
                 nth_error x j = Some v
                 /\ window_maximum x start stop j
                 /\ forall p a, (start <= p < j)%nat ->
                                nth_error x p = Some a ->
                                fle v a = false))
    /\ (forall p, (length (closed_crossings x) - 1 <= p)%nat ->
                  (p < length (crossing_positions x true))%nat ->
                  nth_error fm p = Some fzero /\ nth_error fi p = Some 0%nat).
Proof.
  intros Hmany.
  destruct (global_maxima_spec x Hmany)
    as (fm & fi & E & Lm & Li & Hfilled & Hframe).
  exists fm, fi. split; [exact E|]. split; [exact Lm|]. split; [exact Li|].
  split; [|exact Hframe].
  intros w start stop Hs Hstop.
  assert (Hw : (S w < length (closed_crossings x))%nat)
    by (apply nth_error_Some; congruence).
  destruct (Hfilled w start (removelast_nth_rev _ _ _ Hs Hw))
    as (stop' & w0 & ws & Es & Hlt & Ew & Em & Ei).
  rewrite Hstop in Es. injection Es as <-.
  destruct (window_scan x start stop w0 ws ltac:(lia) Ew) as (Hj & Hin & Hord).
  eexists. eexists. split; [exact Em|]. split; [exact Ei|].
  split; [lia|]. split; [lia|]. split; [exact Hin|exact Hord].
Qed.

(** The candidates of either branch are samples of the signal, or the
    filler of an unfilled slot, at positions inside the signal. *)
Lemma candidates_in_signal (x : list R) (local : bool) (fm : list R)
      (fi : list nat) :
  (2 <= length (crossing_positions x true))%nat ->
  (if negb local
   then global_maxima x (closed_crossings x)
          (Z.of_nat (length (crossing_positions x true)))
   else local_maxima x) = Ok (fm, fi) ->
  Forall (fun v => In v x \/ v = fzero) fm
  /\ Forall (fun j => (j < length x)%nat) fi.
Proof.
  intros Hmany E.
  assert (Hx : (0 < length x)%nat).
  { pose proof (crossing_positions_bounds x true) as Hb.
    destruct (crossing_positions x true) as [|p l]; [cbn in Hmany; lia|].
    inversion Hb; subst. lia. }
  destruct local; cbn [negb] in E.
  - destruct (local_maxima_spec x) as (idx & E' & Hb & _).
    rewrite E' in E. injection E as <- <-. split; [|exact Hb].
    apply Forall_map. eapply Forall_impl; [|exact Hb]. cbn beta.
    intros j Hj. left. now apply nth_In.
  - destruct (global_maxima_slots x Hmany)
      as (fm' & fi' & E' & Lm & Li & Hfilled & Hframe).
    rewrite E' in E. injection E as <- <-.
    assert (Hslot : forall p, (p < length (crossing_positions x true))%nat ->
              exists v j, nth_error fm' p = Some v /\ nth_error fi' p = Some j
                          /\ (In v x \/ v = fzero) /\ (j < length x)%nat).
    { intros p Hp.
      destruct (Nat.lt_ge_cases p (length (closed_crossings x) - 1))
        as [Hin|Hout].
      - destruct (nth_error (closed_crossings x) p) as [start|] eqn:Es;
          [|apply nth_error_None in Es; lia].
        destruct (nth_error (closed_crossings x) (S p)) as [stop|] eqn:Et;
          [|apply nth_error_None in Et; lia].
        destruct (Hfilled p start stop Es Et)
          as (v & j & Ev & Ej & Hj & Hstop & Hv & _).
        exists v, j. repeat split; auto; lia.
      - destruct (Hframe p Hout Hp) as [Ev Ej].
        exists fzero, 0%nat. repeat split; auto. }
    split; apply Forall_forall.
    + intros v Hv. apply In_nth_error in Hv. destruct Hv as [p Ep].
      assert (Hp : (p < length fm')%nat) by (apply nth_error_Some; congruence).
      destruct (Hslot p ltac:(lia)) as (v' & j & Ev & _ & Hv' & _).
      congruence.
    + intros j Hj. apply In_nth_error in Hj. destruct Hj as [p Ep].
      assert (Hp : (p < length fi')%nat) by (apply nth_error_Some; congruence).
      destruct (Hslot p ltac:(lia)) as (v & j' & _ & Ej & _ & Hj').
      congruence.
Qed.

(** The pairs [find_maxima] returns past the crossing test are the
    candidates of its branch the threshold keeps. *)
Lemma find_maxima_pairs (x : list R) (local : bool)
      (threshold : option (pyobj R)) :
  (2 <= length (crossing_positions x true))%nat ->
  (threshold = None \/ exists v, threshold = Some (PyFloat v)) ->
  exists fm fi m i,
    (if negb local
     then global_maxima x (closed_crossings x)
            (Z.of_nat (length (crossing_positions x true)))
     else local_maxima x) = Ok (fm, fi)
    /\ length fm = length fi
    /\ (forall retind,
           find_maxima x local threshold true retind
           = Ok (m, if retind then Some i else None))
    /\ length m = length i
    /\ (threshold = None -> length m = length fm)
    /\ (forall v j,
           In (v, j) (combine m i)
           <-> In (v, j) (combine fm fi)
               /\ match threshold with
                  | Some (PyFloat t) => fle t v = true
                  | _ => True
                  end).
Proof.
  intros Hmany Hthr.
  destruct (find_maxima_result x local threshold Hmany Hthr)
    as (fm & fi & m & i & E & Lf & Hret & Lm & P).
  exists fm, fi, m, i.
  split; [exact E|]. split; [exact Lf|]. split; [exact Hret|].
  split; [exact Lm|]. split.
  - intros ->. rewrite filter_all in P. apply Permutation_length in P.
    rewrite !length_combine in P. lia.
  - intros v j. split.
    + intros Hin. apply (Permutation_in _ P) in Hin.
      apply filter_In in Hin. destruct Hin as [Hin Hk]. split; [exact Hin|].
      cbn [fst] in Hk. destruct threshold as [[t|z|s]|]; auto.
    + intros [Hin Hk]. apply (Permutation_in _ (Permutation_sym P)).
      apply filter_In. split; [exact Hin|]. cbn [fst].
      destruct threshold as [[t|z|s]|]; auto.
Qed.

End PeakResults.

Lemma compress_In {A : Type} (mask : list bool) (l : list A) (v : A) :
  In v (compress mask l) -> In v l.
Proof.
  revert l. induction mask as [|b mask IH]; intros [|a l] Hin;
    try (destruct b); cbn [compress] in Hin; try contradiction.
  - destruct Hin as [<-|Hin]; [now left|right; now apply IH].
  - right. now apply IH.
Qed.

Lemma strongly_sorted_among {A : Type} (rel rel' : A -> A -> Prop)
      (l : list A) :
  (forall a b, In a l -> In b l -> rel a b -> rel' a b) ->
  StronglySorted rel l -> StronglySorted rel' l.
Proof.
  intros Himp Hs. induction Hs as [|c l Hs IH Hall]; constructor.
  - apply IH. intros a b Ha Hb. apply Himp; now right.
  - rewrite Forall_forall in *. intros b Hb.
    apply Himp; [now left|now right|now apply Hall].
Qed.

Lemma combine_map_In {A B : Type} (f : B -> A) (l : list B) (v : A) (j : B) :
  In (v, j) (combine (map f l) l) <-> In j l /\ v = f j.
Proof.
  induction l as [|b l IH]; cbn [map combine In]; [tauto|].
  rewrite IH. split.
  - intros [E|[Hin E]]; [injection E as <- <-; auto|auto].
  - intros [[<-|Hin] ->]; auto.
Qed.

(** X7.  With at least two up-crossings and a threshold that is absent
    or a float, [find_maxima] returns, in both modes: as many positions
    as values, every position inside the signal, every value a sample
    of the signal or the [0.0] of an unfilled slot.  In the global mode
    without threshold the number of maxima is the number of
    up-crossings. *)
Theorem find_maxima_positions {R : Type} `{Scalar R} (x : list R)
        (local : bool) (threshold : option (pyobj R)) :
  (2 <= length (crossing_positions x true))%nat ->
  (threshold = None \/ exists v, threshold = Some (PyFloat v)) ->
  exists m i,
    (forall retind,
        find_maxima x local threshold true retind
        = Ok (m, if retind then Some i else None))
    /\ length m = length i
    /\ Forall (fun j => (j < length x)%nat) i
    /\ Forall (fun v => In v x \/ v = fzero) m
    /\ (local = false -> threshold = None ->
        length m = length (crossing_positions x true)).
Proof.
  intros Hmany Hthr.
  destruct (find_maxima_pairs x local threshold Hmany Hthr)
    as (fm & fi & m & i & E & Lf & Hret & Lm & Hnone & Hpairs).
  destruct (candidates_in_signal x local fm fi Hmany E) as [Hv Hj].
  rewrite Forall_forall in Hv, Hj.
  exists m, i. split; [exact Hret|]. split; [exact Lm|].
  split; [|split].
  - apply Forall_forall. intros j Hin. apply In_nth_error in Hin.
    destruct Hin as [p Ep].
    destruct (nth_error m p) as [v|] eqn:Ev.
    + assert (Hin : In (v, j) (combine m i))
        by (apply combine_In_nth; eauto).
      apply Hpairs in Hin. destruct Hin as [Hin _].
      apply in_combine_r in Hin. now apply Hj.
    + apply nth_error_None in Ev.
      assert (p < length i)%nat by (apply nth_error_Some; congruence). lia.
  - apply Forall_forall. intros v Hin. apply In_nth_error in Hin.
    destruct Hin as [p Ep].
    destruct (nth_error i p) as [j|] eqn:Ej.
    + assert (Hin : In (v, j) (combine m i))
        by (apply combine_In_nth; eauto).
      apply Hpairs in Hin. destruct Hin as [Hin _].
      apply in_combine_l in Hin. now apply Hv.
    + apply nth_error_None in Ej.
      assert (p < length m)%nat by (apply nth_error_Some; congruence). lia.
  - intros -> ->. rewrite (Hnone eq_refl). cbn [negb] in E.
    destruct (global_maxima_slots x Hmany) as (fm' & fi' & E' & L' & _).
    rewrite E' in E. injection E as <- <-. exact L'.
Qed.

Lemma find_maxima_positions_witness :
  let x := [-1; 1; 3; -1; 1; 2; -1; 5; 7; 6; 0]%float in
  exists m i,
    (forall retind,
        find_maxima x false None true retind
        = Ok (m, if retind then Some i else None))
    /\ length m = length i
    /\ Forall (fun j => (j < length x)%nat) i
    /\ Forall (fun v => In v x \/ v = fzero) m
    /\ length m = length (crossing_positions x true).
Proof.
  cbv zeta.
  destruct (find_maxima_positions
              [-1; 1; 3; -1; 1; 2; -1; 5; 7; 6; 0]%float false None)
    as (m & i & Hret & Hlen & Hi & Hm & Hcount).
  - vm_compute. lia.
  - now left.
  - exists m, i. repeat split; auto.
Defined.

(** X8.  In the local mode, past the crossing test, the returned pairs
    of a value and a position are exactly: the positions [j] where the
    signal does not descend into [j] and descends out of it, each with
    the sample [x[j]], restricted to the values not below the threshold
    when one is given.  The crossings play no part beyond the test. *)
Theorem find_maxima_local_turning_points {R : Type} `{Scalar R} (x : list R)
        (threshold : option (pyobj R)) :
  (2 <= length (crossing_positions x true))%nat ->
  (threshold = None \/ exists v, threshold = Some (PyFloat v)) ->
  exists m i,
    (forall retind,
        find_maxima x true threshold true retind
        = Ok (m, if retind then Some i else None))
    /\ length m = length i
    /\ forall v j,
        In (v, j) (combine m i)
        <-> turning_point x j /\ nth_error x j = Some v
            /\ match threshold with
               | Some (PyFloat t) => fle t v = true
               | _ => True
               end.
Proof.
  intros Hmany Hthr.
  destruct (find_maxima_pairs x true threshold Hmany Hthr)
    as (fm & fi & m & i & E & Lf & Hret & Lm & _ & Hpairs).
  cbn [negb] in E.
  destruct (local_maxima_spec x) as (idx & E' & Hb & Hturn).
  rewrite E' in E. injection E as <- <-.
  rewrite Forall_forall in Hb.
  exists m, i. split; [exact Hret|]. split; [exact Lm|].
  intros v j. rewrite Hpairs, combine_map_In, Hturn. split.
  - intros [[Ht ->] Hk]. split; [exact Ht|]. split; [|exact Hk].
    apply nth_error_nth'. apply Hb. now apply Hturn.
  - intros (Ht & Ev & Hk). split; [|exact Hk]. split; [exact Ht|].
    symmetry. now apply nth_error_nth.
Qed.

Lemma find_maxima_local_turning_points_witness :
  let x := [-1; 1; 3; -1; 1; 2; -1; 5; 7; 6; 0]%float in
  exists m i,
    (forall retind,
        find_maxima x true (Some (PyFloat 2.5%float)) true retind
        = Ok (m, if retind then Some i else None))
    /\ length m = length i
    /\ forall v j,
        In (v, j) (combine m i)
        <-> turning_point x j /\ nth_error x j = Some v
            /\ fle 2.5%float v = true.
Proof.
  cbv zeta.
  apply (find_maxima_local_turning_points
           [-1; 1; 3; -1; 1; 2; -1; 5; 7; 6; 0]%float
           (Some (PyFloat 2.5%float))).
  - vm_compute. lia.
  - right. now exists 2.5%float.
Defined.

(** X9.  In the global mode without threshold, on float64 samples with
    at least two up-crossings.  The stretches are the half-open ranges
    [start <= p < stop] between consecutive entries of
    [crossing_indices], that is the up-crossings followed, when the last
    of them comes before the last sample, by [len(x) - 1]; [stop] is left
    out of its stretch, so the last sample belongs to no stretch.  One
    maximum is returned per up-crossing, and no returned position is the
    last one: the last sample is never examined.  Every stretch has
    among the returned pairs the first position of the stretch holding
    its largest sample (no sample of the stretch is larger, no earlier
    one as large), with the sample there as value.  When the last
    crossing comes before the last sample, every returned value is the
    sample at its position and the largest of such a stretch. *)
Theorem find_maxima_global_maxima (x : list float) :
  (2 <= length (crossing_positions x true))%nat ->
  exists m i,
    (forall retind,
        find_maxima x false None true retind
        = Ok (m, if retind then Some i else None))
    /\ length m = length (crossing_positions x true)
    /\ length i = length (crossing_positions x true)
    /\ Forall (fun j => (j < length x - 1)%nat) i
    /\ (forall w start stop,
           nth_error (closed_crossings x) w = Some start ->
           nth_error (closed_crossings x) (S w) = Some stop ->
           (stop <= length x - 1)%nat
           /\ exists v j,
               In (v, j) (combine m i)
               /\ nth_error x j = Some v
               /\ window_maximum x start stop j
               /\ forall p a, (start <= p < j)%nat ->
                              nth_error x p = Some a ->
                              fle v a = false)
    /\ ((last (crossing_positions x true) 0 < length x - 1)%nat ->
        forall v j,
          In (v, j) (combine m i) ->
          nth_error x j = Some v
          /\ exists w start stop,
              nth_error (closed_crossings x) w = Some start
              /\ nth_error (closed_crossings x) (S w) = Some stop
              /\ window_maximum x start stop j).
Proof.
  intros Hmany.
  assert (Hne : crossing_positions x true <> [])
    by (intros E; rewrite E in Hmany; cbn in Hmany; lia).
  assert (Hord : ordered_samples x)
    by (apply float_ordered_samples, (float_crossing_samples x true Hne)).
  assert (Hx : (2 <= length x)%nat).
  { pose proof (crossing_positions_bounds x true) as Hb.
    pose proof (crossing_positions_increasing x true) as Hinc.
    destruct (crossing_positions x true) as [|a [|b tl]];
      cbn in Hmany; try lia.
    destruct Hinc as [Hab _]. inversion Hab; subst.
    inversion Hb as [|? ? _ Hb']; subst. inversion Hb'; subst. lia. }
  destruct (find_maxima_pairs x false None Hmany (or_introl eq_refl))
    as (fm & fi & m & i & E & Lf & Hret & Lm & Hnone & Hpairs).
  cbn [negb] in E.
  destruct (global_maxima_slots x Hmany)
    as (fm' & fi' & E' & L1 & L2 & Hfilled & Hframe).
  rewrite E' in E. injection E as <- <-.
  specialize (Hnone eq_refl).
  exists m, i. split; [exact Hret|]. split; [lia|]. split; [lia|].
  split; [|split].
  - apply Forall_forall. intros j Hj. apply In_nth_error in Hj.
    destruct Hj as [q Eq].
    destruct (nth_error m q) as [v|] eqn:Ev;
      [|apply nth_error_None in Ev;
        assert (q < length i)%nat by (apply nth_error_Some; congruence); lia].
    assert (Hin : In (v, j) (combine m i)) by (apply combine_In_nth; eauto).
    apply Hpairs in Hin. destruct Hin as [Hin _].
    apply combine_In_nth in Hin. destruct Hin as (w & Ew & Ej).
    assert (Hw : (w < length fi')%nat) by (apply nth_error_Some; congruence).
    destruct (Nat.lt_ge_cases (S w) (length (closed_crossings x)))
      as [Hwin|Hout].
    + destruct (nth_error (closed_crossings x) w) as [start|] eqn:Es;
        [|apply nth_error_None in Es; lia].
      destruct (nth_error (closed_crossings x) (S w)) as [stop|] eqn:Et;
        [|apply nth_error_None in Et; lia].
      destruct (Hfilled w start stop Es Et)
        as (v' & j' & _ & Ej' & Hj' & Hstop & _).
      rewrite Ej in Ej'. injection Ej' as <-. lia.
    + destruct (Hframe w ltac:(lia) ltac:(lia)) as [_ Ej'].
      rewrite Ej in Ej'. injection Ej' as ->. lia.
  - intros w start stop Es Et.
    destruct (Hfilled w start stop Es Et)
      as (v & j & Ev & Ej & _ & Hstop & _ & Hgen).
    destruct (Hgen Hord) as (Hxj & Hmax & Hfirst).
    split; [lia|].
    exists v, j. split; [|split; [|split]; assumption].
    apply Hpairs. split; [|exact I]. apply combine_In_nth. eauto.
  - intros Hclosed v j Hin.
    apply Hpairs in Hin. destruct Hin as [Hin _].
    apply combine_In_nth in Hin. destruct Hin as (w & Ev & Ej).
    destruct (closed_crossings_facts x Hne) as (_ & _ & _ & Hci).
    specialize (Hci Hclosed).
    assert (Hw : (w < length fm')%nat) by (apply nth_error_Some; congruence).
    assert (Hlen : length (closed_crossings x)
                   = S (length (crossing_positions x true)))
      by (rewrite Hci, length_app; cbn; lia).
    destruct (nth_error (closed_crossings x) w) as [start|] eqn:Es;
      [|apply nth_error_None in Es; lia].
    destruct (nth_error (closed_crossings x) (S w)) as [stop|] eqn:Et;
      [|apply nth_error_None in Et; lia].
    destruct (Hfilled w start stop Es Et)
      as (v' & j' & Ev' & Ej' & _ & _ & _ & Hgen).
    destruct (Hgen Hord) as (Hxj & Hmax & _).
    rewrite Ev in Ev'. injection Ev' as <-.
    rewrite Ej in Ej'. injection Ej' as <-.
    split; [exact Hxj|]. exists w, start, stop. auto.
Qed.

Lemma find_maxima_global_maxima_witness :
  let x := [-1; 1; -1; 1; 2; 3]%float in
  exists m i,
    (forall retind,
        find_maxima x false None true retind
        = Ok (m, if retind then Some i else None))
    /\ length m = length (crossing_positions x true)
    /\ length i = length (crossing_positions x true)
    /\ Forall (fun j => (j < length x - 1)%nat) i
    /\ (forall w start stop,
           nth_error (closed_crossings x) w = Some start ->
           nth_error (closed_crossings x) (S w) = Some stop ->
           (stop <= length x - 1)%nat
           /\ exists v j,
               In (v, j) (combine m i)
               /\ nth_error x j = Some v
               /\ window_maximum x start stop j
               /\ forall p a, (start <= p < j)%nat ->
                              nth_error x p = Some a ->
                              fle v a = false)
    /\ ((last (crossing_positions x true) 0 < length x - 1)%nat ->
        forall v j,
          In (v, j) (combine m i) ->
          nth_error x j = Some v
          /\ exists w start stop,
              nth_error (closed_crossings x) w = Some start
              /\ nth_error (closed_crossings x) (S w) = Some stop
              /\ window_maximum x start stop j).
Proof.
  cbv zeta.
  apply (find_maxima_global_maxima [-1; 1; -1; 1; 2; 3]%float).
  vm_compute. lia.
Defined.

(** On the signal of that example the largest sample is the last one,
    [x[5] = 3]; the stretches are [1 <= p < 3] and [3 <= p < 5], and the
    maximum reported for the second is [x[4] = 2]. *)
Lemma find_maxima_leaves_out_last_sample :
  closed_crossings [-1; 1; -1; 1; 2; 3]%float = [1; 3; 5]%nat
  /\ find_maxima [-1; 1; -1; 1; 2; 3]%float false None true true
     = Ok ([1; 2]%float, Some [1; 4]%nat).
Proof. split; reflexivity. Qed.

(** X10.  Whatever the arguments, the values [find_maxima] returns on
    float64 samples come in ascending order: each is [<=] every later
    one, and none is a NaN. *)
Theorem find_maxima_ascending (x : list float) (local : bool)
        (threshold : option (pyobj float)) (up retind : bool)
        (m : list float) (oi : option (list nat)) :
  find_maxima x local threshold up retind = Ok (m, oi) ->
  StronglySorted (fun a b => fle a b = true) m
  /\ Forall (fun v => isnan v = false) m.
Proof.
  intros E.
  destruct (sumZ (crossings x up) <? 2) eqn:Etest.
  - unfold find_maxima in E. rewrite Etest in E.
    destruct retind; injection E as <- _; split; constructor.
  - apply Z.ltb_ge in Etest.
    assert (Hup : up = true).
    { destruct up; [reflexivity|]. pose proof (down_sum_nonpositive x). lia. }
    subst up.
    assert (Hmany : (2 <= length (crossing_positions x true))%nat).
    { rewrite crossings_sum in Etest. cbn [indicator] in Etest. lia. }
    assert (Hne : crossing_positions x true <> [])
      by (intros E'; rewrite E' in Hmany; cbn in Hmany; lia).
    rewrite find_maxima_steps in E by assumption.
    destruct (if negb local then _ else _) as [[fm fi]|e] eqn:Eb;
      [|discriminate].
    cbn [bind] in E.
    destruct (candidates_in_signal x local fm fi Hmany Eb) as [Hv _].
    destruct (apply_threshold threshold (fm, fi)) as [[km ki]|e] eqn:Ek;
      [|discriminate].
    cbn [bind] in E.
    assert (Hkm : forall v, In v km -> In v fm).
    { intros v Hin. unfold apply_threshold in Ek.
      destruct threshold as [[t|z|s]|]; try discriminate.
      - injection Ek as <- _. cbn [fst] in Hin. now apply compress_In in Hin.
      - now injection Ek as <- _. }
    destruct (sort_kept_ascending float_sort_asym float_sort_trans
                km ki retind m oi E) as [Hs Hp].
    assert (Hnum : forall b, In b m -> isnan b = false).
    { intros b Hb.
      assert (Hin : In b x \/ b = fzero).
      { rewrite Forall_forall in Hv. apply Hv, Hkm.
        now apply (Permutation_in _ Hp). }
      unfold isnan. destruct Hin as [Hin| ->]; [|reflexivity].
      now rewrite (float_crossing_samples x true Hne b Hin). }
    split; [|now apply Forall_forall].
    apply (strongly_sorted_among (fun a b : float => sort_lt b a = false));
      [|exact Hs].
    intros a b _ Hb Hab. cbv beta in Hab.
    apply float_sort_order in Hab. destruct Hab as [Hab|Nb]; [exact Hab|].
    rewrite (Hnum b Hb) in Nb. discriminate.
Qed.

Lemma find_maxima_ascending_witness :
  StronglySorted (fun a b => fle a b = true) [2; 3; 7]%float
  /\ Forall (fun v => isnan v = false) [2; 3; 7]%float.
Proof.
  apply (find_maxima_ascending
           [-1; 1; 3; -1; 1; 2; -1; 5; 7; 6; 0]%float true None true true
           [2; 3; 7]%float (Some [5; 2; 8]%nat)).
  reflexivity.
Defined.

(** ** The returned positions are distinct *)

Lemma increasing_NoDup (l : list nat) : increasing l -> NoDup l.
Proof.
  induction l as [|a l IH]; intros Hinc; constructor.
  - destruct Hinc as [Ha _]. rewrite Forall_forall in Ha.
    intros Hin. specialize (Ha a Hin). lia.
  - apply IH. apply Hinc.
Qed.

Lemma NoDup_kept_positions {A B : Type} (keep : A * B -> bool)
      (a : list A) (b : list B) :
  NoDup b -> NoDup (map snd (filter keep (combine a b))).
Proof.
  revert b. induction a as [|u a IH]; intros [|v b] Hb; try constructor.
  inversion Hb as [|? ? Hv Hb']; subst. cbn [combine filter].
  destruct (keep (u, v)); [|now apply IH].
  cbn [map snd]. constructor; [|now apply IH].
  intros Hin. apply Hv. apply in_map_iff in Hin.
  destruct Hin as [[u' v'] [E Hin]]. cbn [snd] in E. subst v'.
  apply filter_In in Hin. destruct Hin as [Hin _].
  now apply in_combine_r in Hin.
Qed.

Section DistinctPositions.

Context {R : Type} `{Scalar R}.

Lemma closed_crossings_from_one (x : list R) :
  (length (crossing_positions x true) <= length (closed_crossings x))%nat
  /\ Forall (fun p => (1 <= p)%nat) (closed_crossings x).
Proof.
  assert (Hcp : Forall (fun p => (1 <= p)%nat) (crossing_positions x true)).
  { unfold crossing_positions. rewrite Forall_map. apply Forall_forall.
    intros k _. lia. }
  unfold closed_crossings.
  destruct (Z.of_nat (last (crossing_positions x true) 0%nat)
            <? Z.of_nat (length x) - 1) eqn:E.
  - apply Z.ltb_lt in E. split; [rewrite length_app; lia|].
    apply Forall_app. split; [exact Hcp|]. constructor; [lia|constructor].
  - split; [lia|exact Hcp].
Qed.

(** The candidates of either branch sit at distinct positions. *)
Lemma candidate_positions_distinct (x : list R) (local : bool) (fm : list R)
      (fi : list nat) :
  (2 <= length (crossing_positions x true))%nat ->
  (if negb local
   then global_maxima x (closed_crossings x)
          (Z.of_nat (length (crossing_positions x true)))
   else local_maxima x) = Ok (fm, fi) ->
  NoDup fi.
Proof.
  intros Hmany E.
  assert (Hne : crossing_positions x true <> [])
    by (intros E'; rewrite E' in Hmany; cbn in Hmany; lia).
  destruct local; cbn [negb] in E.
  - unfold local_maxima in E.
    destruct (take x _) as [mx|]; [|discriminate].
    cbn [bind] in E. injection E as _ <-.
    apply increasing_NoDup. apply where_from_increasing.
  - destruct (global_maxima_slots x Hmany)
      as (fm' & fi' & E' & Lm & Li & Hfilled & Hframe).
    rewrite E' in E. injection E as <- <-.
    destruct (closed_crossings_facts x Hne) as (Hinc & _).
    destruct (closed_crossings_from_one x) as [Hlen Hone].
    rewrite Forall_forall in Hone.
    assert (Hlt : forall p q jp jq,
               (p < q)%nat -> nth_error fi' p = Some jp ->
               nth_error fi' q = Some jq -> jp <> jq).
    { intros p q jp jq Hpq Ep Eq.
      assert (Hq : (q < length fi')%nat) by (apply nth_error_Some; congruence).
      destruct (nth_error (closed_crossings x) p) as [sp|] eqn:Esp;
        [|apply nth_error_None in Esp; lia].
      destruct (nth_error (closed_crossings x) (S p)) as [tp|] eqn:Etp;
        [|apply nth_error_None in Etp; lia].
      destruct (Hfilled p sp tp Esp Etp) as (vp & jp' & _ & Ejp & Hjp & _).
      rewrite Ep in Ejp. injection Ejp as <-.
      assert (Hsp : (1 <= sp)%nat)
        by (apply Hone; eapply nth_error_In; eauto).
      destruct (Nat.lt_ge_cases (S q) (length (closed_crossings x)))
        as [Hin|Hout].
      - destruct (nth_error (closed_crossings x) q) as [sq|] eqn:Esq;
          [|apply nth_error_None in Esq; lia].
        destruct (nth_error (closed_crossings x) (S q)) as [tq|] eqn:Etq;
          [|apply nth_error_None in Etq; lia].
        destruct (Hfilled q sq tq Esq Etq) as (vq & jq' & _ & Ejq & Hjq & _).
        rewrite Eq in Ejq. injection Ejq as <-.
        assert (Hle : (tp <= sq)%nat).
        { destruct (Nat.eq_dec (S p) q) as [<-|Hne'].
          - rewrite Etp in Esq. injection Esq as <-. lia.
          - pose proof (increasing_nth _ (S p) q tp sq Hinc
                          ltac:(lia) Etp Esq). lia. }
        lia.
      - destruct (Hframe q ltac:(lia) ltac:(lia)) as [_ Ejq].
        rewrite Eq in Ejq. injection Ejq as ->. lia. }
    apply NoDup_nth_error. intros p q Hp Epq.
    destruct (nth_error fi' p) as [jp|] eqn:Ep;
      [|apply nth_error_None in Ep; lia].
    destruct (Nat.lt_trichotomy p q) as [Hpq|[Heq|Hqp]]; [|exact Heq|].
    + exfalso. now apply (Hlt p q jp jp Hpq Ep).
    + exfalso. symmetry in Epq. now apply (Hlt q p jp jp Hqp Epq Ep).
Qed.

End DistinctPositions.

(** X11.  With at least two up-crossings and a threshold that is absent
    or a float, the positions [find_maxima] returns are pairwise
    distinct, in both modes: no sample is reported twice.  In the global
    mode this includes the position 0 of an unfilled slot, which no
    stretch between crossings contains. *)
Theorem find_maxima_positions_distinct {R : Type} `{Scalar R} (x : list R)
        (local : bool) (threshold : option (pyobj R)) :
  (2 <= length (crossing_positions x true))%nat ->
  (threshold = None \/ exists v, threshold = Some (PyFloat v)) ->
  exists m i,
    (forall retind,
        find_maxima x local threshold true retind
        = Ok (m, if retind then Some i else None))
    /\ NoDup i.
Proof.
  intros Hmany Hthr.
  destruct (find_maxima_result x local threshold Hmany Hthr)
    as (fm & fi & m & i & E & Lf & Hret & Lm & P).
  exists m, i. split; [exact Hret|].
  rewrite <- (map_snd_combine m i Lm).
  eapply Permutation_NoDup;
    [symmetry; apply Permutation_map; exact P|].
  apply NoDup_kept_positions.
  now apply (candidate_positions_distinct x local fm fi).
Qed.

Lemma find_maxima_positions_distinct_witness :
  let x := [-2; 2; -1; 0; -3; 4]%float in
  exists m i,
    (forall retind,
        find_maxima x false None true retind
        = Ok (m, if retind then Some i else None))
    /\ NoDup i.
Proof.
  cbv zeta.
  apply (find_maxima_positions_distinct [-2; 2; -1; 0; -3; 4]%float false None).
  - vm_compute. lia.
  - now left.
Defined.

(** ** The filters on arrays they refuse *)

(** X12.  On the empty real array the padded length
    [int(pow(2, ceil(log(0) / log(2))))] is 0 and the transform refuses
    it: each of the five filters raises [ValueError], whatever the
    cut-off frequencies or thresholds. *)
Theorem filters_refuse_empty_signal {R : Type} `{Scalar R}
        (rfft irfft : list R -> nat -> list R)
        (fft ifft : list (R * R) -> nat -> list (R * R))
        (np_hypot : R -> R -> R)
        (dt fc flow fupp : R) (thresholds : R * R) :
  lowpass rfft irfft fft ifft (RealSig []) dt fc = Raise ValueError
  /\ highpass rfft irfft fft ifft (RealSig []) dt fc = Raise ValueError
  /\ bandpass rfft irfft fft ifft (RealSig []) dt flow fupp = Raise ValueError
  /\ bandblock rfft irfft fft ifft (RealSig []) dt flow fupp = Raise ValueError
  /\ threshold rfft irfft fft ifft np_hypot (RealSig []) thresholds
     = Raise ValueError.
Proof. destruct thresholds. repeat split; reflexivity. Qed.

(** X13.  An array of complex dtype whose imaginary parts are all zero
    passes the test [np.all(np.isreal(x))], is sent to the real
    transform, and is refused there for its dtype: each of the five
    filters raises [TypeError]. *)
Theorem filters_refuse_complex_dtype_of_real_values {R : Type} `{Scalar R}
        (rfft irfft : list R -> nat -> list R)
        (fft ifft : list (R * R) -> nat -> list (R * R))
        (np_hypot : R -> R -> R)
        (l : list (R * R)) (dt fc flow fupp : R) (thresholds : R * R) :
  forallb (fun c => feq (snd c) fzero) l = true ->
  lowpass rfft irfft fft ifft (ComplexSig l) dt fc = Raise TypeError
  /\ highpass rfft irfft fft ifft (ComplexSig l) dt fc = Raise TypeError
  /\ bandpass rfft irfft fft ifft (ComplexSig l) dt flow fupp = Raise TypeError
  /\ bandblock rfft irfft fft ifft (ComplexSig l) dt flow fupp
     = Raise TypeError
  /\ threshold rfft irfft fft ifft np_hypot (ComplexSig l) thresholds
     = Raise TypeError.
Proof.
  intros Hreal. destruct thresholds.
  unfold lowpass, highpass, bandpass, bandblock, threshold.
  cbn [all_isreal]. rewrite Hreal. repeat split; reflexivity.
Qed.

Lemma filters_refuse_complex_dtype_of_real_values_witness :
  let x := ComplexSig [(1, 0); (-2.5, 0); (4, -0)]%float in
  let hypot := fun a b : float => PrimFloat.sqrt (a * a + b * b)%float in
  (lowpass rfft2 irfft2 fft2 ifft2 x 0.5 1)%float = Raise TypeError
  /\ (highpass rfft2 irfft2 fft2 ifft2 x 0.5 1)%float = Raise TypeError
  /\ (bandpass rfft2 irfft2 fft2 ifft2 x 0.5 0.25 2)%float = Raise TypeError
  /\ (bandblock rfft2 irfft2 fft2 ifft2 x 0.5 0.25 2)%float = Raise TypeError
  /\ (threshold rfft2 irfft2 fft2 ifft2 hypot x (0, 1))%float
     = Raise TypeError.
Proof.
  cbv zeta.
  apply (filters_refuse_complex_dtype_of_real_values rfft2 irfft2 fft2 ifft2).
  reflexivity.
Defined.

(** ** [lowpass] and [highpass] *)

Section CutoffFacts.

Context {R : Type} `{Scalar R}.




(** Where every bin is within the cut-off the low-pass mask is all
    ones. *)
Lemma lowpass_mask_ones (f : list R) (fc : R) :
  Forall (fun fi => fle (fabs fi) fc = true) f ->
  lowpass_mask f fc = ones (length f).
Proof.
  unfold lowpass_mask, zeros, ones.
  induction 1 as [|a f Ha Hf IH]; cbn [length repeat map assign_where].
  - reflexivity.
  - now rewrite Ha, IH.
Qed.

Lemma zip_with_mul_ones (fa : list R) :
  (forall a, fmul a fone = a) ->
  zip_with fmul fa (ones (length fa)) = fa.
Proof.
  intros Hone. unfold ones.
  induction fa as [|a fa IH]; cbn [length repeat zip_with]; [reflexivity|].
  now rewrite Hone, IH.
Qed.



End CutoffFacts.



(** X15.  A low-pass filter whose cut-off is at or above every bin
    frequency changes nothing: for a non-empty signal stored as real,
    with [a * 1.0 = a] on the transform and an inverse transform that
    undoes the transform on the padded length, [lowpass] returns the
    signal itself. *)
Theorem lowpass_above_all_bins {R : Type} `{Scalar R}
        (rfft irfft : list R -> nat -> list R)
        (fft ifft : list (R * R) -> nat -> list (R * R))
        (x : list R) (dt fc : R) :
  x <> [] ->
  (forall a, fmul a fone = a) ->
  (forall l, length (rfft l (nfft_of (length x))) = nfft_of (length x)) ->
  (forall l, (length l <= nfft_of (length x))%nat ->
             irfft (rfft l (nfft_of (length x))) (nfft_of (length x))
             = l ++ zeros (nfft_of (length x) - length l)) ->
  Forall (fun fi => fle (fabs fi) (if feq fc fzero then feps else fc) = true)
         (rfftfreq (nfft_of (length x)) dt) ->
  lowpass rfft irfft fft ifft (RealSig x) dt fc = Ok (RealSig x).
Proof.
  intros Hne Hone Hlen Hinv Hall.
  assert (Hn : length x <> 0%nat) by (destruct x; [contradiction|discriminate]).
  unfold lowpass, real_branch, fftpack_rfft, fftpack_irfft.
  cbn [all_isreal sig_size]. rewrite (nfft_of_pos _ Hn). cbn [bind].
  rewrite (lowpass_mask_ones _ _ Hall), rfftfreq_length.
  rewrite <- (Hlen x) at 2. rewrite (zip_with_mul_ones _ Hone).
  rewrite Hinv by apply nfft_of_ge.
  rewrite slice_prefix, firstn_app, firstn_all, Nat.sub_diag. cbn [firstn].
  now rewrite app_nil_r.
Qed.

Lemma lowpass_above_all_bins_witness :
  lowpass rfft2 irfft2 fft2 ifft2
          (RealSig [Q2Qc (3 # 2); Q2Qc (-1 # 4)]) (Q2Qc (1 # 2)) (Q2Qc 1)
  = Ok (RealSig [Q2Qc (3 # 2); Q2Qc (-1 # 4)]).
Proof.
  apply (lowpass_above_all_bins rfft2 irfft2 fft2 ifft2
           [Q2Qc (3 # 2); Q2Qc (-1 # 4)] (Q2Qc (1 # 2)) (Q2Qc 1)).
  - discriminate.
  - intros a. cbn [fmul fone rationals]. ring.
  - intros l. apply rfft2_length.
  - change (nfft_of (length [Q2Qc (3 # 2); Q2Qc (-1 # 4)])) with 2%nat.
    intros [|a [|b [|c l]]] Hl; cbn [length] in Hl; try lia;
      cbn [rfft2 irfft2 resize firstn length Nat.sub repeat app zeros
           fadd fsub fdiv of_int fzero rationals];
      rewrite exact_two;
      (f_equal; [|f_equal]); field; exact exact_two_nonzero.
  - repeat constructor.
Defined.

(** ** The length of what [smooth] returns *)

Lemma slice_length {A : Type} (l : list A) (a b : Z) :
  length (slice l a b)
  = Z.to_nat (clamp_fwd (Z.of_nat (length l)) b
              - clamp_fwd (Z.of_nat (length l)) a).
Proof.
  unfold slice. rewrite length_firstn, length_skipn.
  set (n := Z.of_nat (length l)).
  assert (Ha : 0 <= clamp_fwd n a <= n).
  { unfold clamp_fwd.
    destruct (a <? 0) eqn:E0;
      [destruct (a + n <? 0) eqn:E1; [lia|destruct (n <? a + n) eqn:E2]
      |destruct (a <? 0) eqn:E1; [discriminate|destruct (n <? a) eqn:E2]];
      rewrite ?Z.ltb_lt, ?Z.ltb_ge in *; lia. }
  assert (Hb : 0 <= clamp_fwd n b <= n).
  { unfold clamp_fwd.
    destruct (b <? 0) eqn:E0;
      [destruct (b + n <? 0) eqn:E1; [lia|destruct (n <? b + n) eqn:E2]
      |destruct (b <? 0) eqn:E1; [discriminate|destruct (n <? b) eqn:E2]];
      rewrite ?Z.ltb_lt, ?Z.ltb_ge in *; lia. }
  lia.
Qed.

Lemma slice_rev_length {A : Type} (l : list A) (a b : Z) :
  length (slice_rev l a b)
  = Z.to_nat (clamp_bwd (Z.of_nat (length l)) a
              - clamp_bwd (Z.of_nat (length l)) b).
Proof.
  unfold slice_rev. rewrite length_rev, length_firstn, length_skipn.
  set (n := Z.of_nat (length l)).
  assert (Ha : -1 <= clamp_bwd n a <= n - 1).
  { unfold clamp_bwd.
    destruct (a <? 0) eqn:E0;
      [destruct (a + n <? 0) eqn:E1; [lia|destruct (n <=? a + n) eqn:E2]
      |destruct (a <? 0) eqn:E1; [discriminate|destruct (n <=? a) eqn:E2]];
      rewrite ?Z.ltb_lt, ?Z.ltb_ge, ?Z.leb_le, ?Z.leb_gt in *; lia. }
  assert (Hb : -1 <= clamp_bwd n b <= n - 1).
  { unfold clamp_bwd.
    destruct (b <? 0) eqn:E0;
      [destruct (b + n <? 0) eqn:E1; [lia|destruct (n <=? b + n) eqn:E2]
      |destruct (b <? 0) eqn:E1; [discriminate|destruct (n <=? b) eqn:E2]];
      rewrite ?Z.ltb_lt, ?Z.ltb_ge, ?Z.leb_le, ?Z.leb_gt in *; lia. }
  lia.
Qed.

Lemma clamp_fwd_inside (n i : Z) : 0 <= i <= n -> clamp_fwd n i = i.
Proof.
  intros Hi. unfold clamp_fwd.
  assert (E0 : (i <? 0) = false) by (apply Z.ltb_ge; lia).
  assert (E1 : (n <? i) = false) by (apply Z.ltb_ge; lia).
  now rewrite !E0, E1.
Qed.

Lemma clamp_fwd_from_end (n i : Z) :
  i < 0 -> 0 <= i + n -> clamp_fwd n i = i + n.
Proof.
  intros Hi Hn. unfold clamp_fwd.
  assert (E0 : (i <? 0) = true) by (apply Z.ltb_lt; lia).
  assert (E1 : (i + n <? 0) = false) by (apply Z.ltb_ge; lia).
  assert (E2 : (n <? i + n) = false) by (apply Z.ltb_ge; lia).
  now rewrite E0, E1, E2.
Qed.

Lemma clamp_bwd_inside (n i : Z) : 0 <= i < n -> clamp_bwd n i = i.
Proof.
  intros Hi. unfold clamp_bwd.
  assert (E0 : (i <? 0) = false) by (apply Z.ltb_ge; lia).
  assert (E1 : (n <=? i) = false) by (apply Z.leb_gt; lia).
  now rewrite !E0, E1.
Qed.

Lemma clamp_bwd_past_end (n i : Z) : 0 <= n <= i -> clamp_bwd n i = n - 1.
Proof.
  intros Hi. unfold clamp_bwd.
  assert (E0 : (i <? 0) = false) by (apply Z.ltb_ge; lia).
  assert (E1 : (n <=? i) = true) by (apply Z.leb_le; lia).
  now rewrite !E0, E1.
Qed.

Lemma clamp_bwd_from_end (n i : Z) :
  i < 0 -> 0 <= i + n -> clamp_bwd n i = i + n.
Proof.
  intros Hi Hn. unfold clamp_bwd.
  assert (E0 : (i <? 0) = true) by (apply Z.ltb_lt; lia).
  assert (E1 : (i + n <? 0) = false) by (apply Z.ltb_ge; lia).
  assert (E2 : (n <=? i + n) = false) by (apply Z.leb_gt; lia).
  now rewrite E0, E1, E2.
Qed.

Section SmoothFacts.

Context {R : Type} `{Scalar R}.

Lemma conv_full_length (a v : list R) :
  length (conv_full a v) = (length a + length v - 1)%nat.
Proof. unfold conv_full. now rewrite length_map, length_seq. Qed.

(** [np.convolve] of a kernel with a longer signal, mode by mode. *)
Lemma np_convolve_length (kernel s : list R) (mode : string) :
  (1 <= length kernel < length s)%nat ->
  (mode = "valid"%string ->
   exists y, np_convolve kernel s mode = Ok y
             /\ length y = (length s - length kernel + 1)%nat)
  /\ (mode = "same"%string ->
      exists y, np_convolve kernel s mode = Ok y /\ length y = length s)
  /\ (mode = "full"%string ->
      exists y, np_convolve kernel s mode = Ok y
                /\ length y = (length s + length kernel - 1)%nat).
Proof.
  intros Hlen. unfold np_convolve.
  destruct kernel as [|k0 kernel]; [cbn in Hlen; lia|].
  destruct s as [|s0 s]; [cbn in Hlen; lia|].
  assert (E : (length (k0 :: kernel) <? length (s0 :: s))%nat = true)
    by (apply Nat.ltb_lt; lia).
  rewrite E.
  set (a := s0 :: s) in *. set (v := k0 :: kernel) in *.
  pose proof (conv_full_length a v) as Hfull.
  split; [|split]; intros ->; cbn [String.eqb Ascii.eqb Bool.eqb andb];
    eexists; (split; [reflexivity|]).
  - rewrite slice_length, Hfull.
    rewrite !clamp_fwd_inside by lia. lia.
  - rewrite slice_length, Hfull.
    assert (Hhalf : 0 <= (Z.of_nat (length v) - 1) / 2
                    <= Z.of_nat (length v) - 1).
    { split; [apply Z.div_pos; lia|].
      apply Z.div_le_upper_bound; lia. }
    rewrite !clamp_fwd_inside by lia. lia.
  - rewrite Hfull. lia.
Qed.

End SmoothFacts.

(** X16.  The number of samples [smooth] returns for a 1-D signal of
    [n] samples and a window of [3 <= window_len <= n] points (the
    rectangular window, or a named window numpy returns with
    [window_len] points).  Mode "same" gives [n] samples when
    [window_len < n] and [n - 1] when [window_len = n]; mode "valid"
    gives [n + window_len - 1] samples, more than the signal has; mode
    "full" gives [n + window_len - 1] samples when [window_len < n] and
    [2 n - 2] when [window_len = n]. *)
Theorem smooth_output_length {R : Type} `{Scalar R}
        (np_named_window : string -> Z -> result (list R))
        (l : list R) (window_len : Z) (window mode : string) :
  3 <= window_len <= Z.of_nat (length l) ->
  In window known_windows ->
  (window <> "rectangular"%string ->
   exists w, np_named_window window window_len = Ok w
             /\ Z.of_nat (length w) = window_len) ->
  (mode = "same"%string ->
   exists y, smooth np_named_window (array1 l) window_len window mode
             = Ok (array1 y)
             /\ Z.of_nat (length y)
                = if window_len <? Z.of_nat (length l)
                  then Z.of_nat (length l) else Z.of_nat (length l) - 1)
  /\ (mode = "valid"%string ->
      exists y, smooth np_named_window (array1 l) window_len window mode
                = Ok (array1 y)
                /\ Z.of_nat (length y) = Z.of_nat (length l) + window_len - 1)
  /\ (mode = "full"%string ->
      exists y, smooth np_named_window (array1 l) window_len window mode
                = Ok (array1 y)
                /\ Z.of_nat (length y)
                   = if window_len <? Z.of_nat (length l)
                     then Z.of_nat (length l) + window_len - 1
                     else 2 * Z.of_nat (length l) - 2).
Proof.
  intros Hwl Hknown Hnamed.
  set (n := Z.of_nat (length l)) in *.
  assert (Hw : exists w,
             (if String.eqb window "rectangular"
              then Ok (repeat fone (Z.to_nat window_len))
              else np_named_window window window_len) = Ok w
             /\ Z.of_nat (length w) = window_len).
  { destruct (String.eqb window "rectangular") eqn:E.
    - eexists. split; [reflexivity|]. rewrite repeat_length. lia.
    - apply Hnamed. intros ->. rewrite String.eqb_refl in E. discriminate. }
  destruct Hw as (w & Ew & Lw).
  assert (Hk : existsb (String.eqb window) known_windows = true).
  { apply existsb_exists. exists window. split; [exact Hknown|].
    apply String.eqb_refl. }
  assert (E1 : (n <? window_len) = false) by (apply Z.ltb_ge; lia).
  assert (E2 : (window_len <? 3) = false) by (apply Z.ltb_ge; lia).
  assert (Hfirst : exists x_first, getitem l 0 = Ok x_first).
  { change 0 with (Z.of_nat 0). rewrite getitem_nat.
    destruct l as [|a l']; [cbn in n; lia|]. now exists a. }
  assert (Hlast : exists x_last, getitem l (-1) = Ok x_last).
  { destruct l as [|a l']; [cbn in n; lia|].
    exists (last (a :: l') a). apply getitem_last. discriminate. }
  destruct Hfirst as [x_first Efirst]. destruct Hlast as [x_last Elast].
  assert (Hhead : Z.of_nat (length (slice_rev l window_len 1))
                  = if window_len <? n then window_len - 1 else n - 2).
  { rewrite slice_rev_length. fold n.
    rewrite (clamp_bwd_inside n 1) by lia.
    destruct (window_len <? n) eqn:E.
    - apply Z.ltb_lt in E. rewrite clamp_bwd_inside by lia. lia.
    - apply Z.ltb_ge in E. rewrite clamp_bwd_past_end by lia. lia. }
  assert (Htail : Z.of_nat (length (slice_rev l (-1) (- window_len)))
                  = window_len - 1).
  { rewrite slice_rev_length. fold n.
    rewrite (clamp_bwd_from_end n (-1)) by lia.
    rewrite (clamp_bwd_from_end n (- window_len)) by lia. lia. }
  assert (Hvhead : Z.of_nat (length (slice_rev l (window_len - 1) 0))
                   = window_len - 1).
  { rewrite slice_rev_length. fold n.
    rewrite !clamp_bwd_inside by lia. lia. }
  unfold smooth. change (size (array1 l)) with n.
  cbn [ndim array1 flat Nat.eqb negb].
  rewrite E1, E2, Hk. cbn [negb]. rewrite Ew. cbn [bind].
  set (kernel := map (fun a => fdiv a (np_sum w)) w).
  assert (Lk : Z.of_nat (length kernel) = window_len)
    by (unfold kernel; now rewrite length_map).
  split; [|split]; intros ->; cbn [String.eqb Ascii.eqb Bool.eqb andb].
  - rewrite Efirst, Elast. cbn [bind].
    match goal with
    | |- context [np_convolve kernel ?s _] => set (padded := s)
    end.
    assert (Lp : Z.of_nat (length padded)
                 = n + (if window_len <? n then window_len - 1 else n - 2)
                   + (window_len - 1)).
    { unfold padded. rewrite !length_app, !length_map. fold n. lia. }
    destruct (np_convolve_length kernel padded "same") as (_ & Hsame & _).
    { destruct (window_len <? n); lia. }
    destruct (Hsame eq_refl) as (y & Ey & Ly).
    rewrite Ey. cbn [bind]. eexists. split; [reflexivity|].
    rewrite slice_length, Ly.
    rewrite (clamp_fwd_inside _ (window_len - 1))
      by (destruct (window_len <? n); lia).
    rewrite (clamp_fwd_from_end _ (- window_len + 1))
      by (destruct (window_len <? n); lia).
    destruct (window_len <? n) eqn:E;
      [apply Z.ltb_lt in E|apply Z.ltb_ge in E]; lia.
  - match goal with
    | |- context [np_convolve kernel ?s _] => set (padded := s)
    end.
    assert (Lp : Z.of_nat (length padded) = n + 2 * (window_len - 1)).
    { unfold padded. rewrite !length_app. fold n. lia. }
    destruct (np_convolve_length kernel padded "valid") as (Hvalid & _).
    { lia. }
    destruct (Hvalid eq_refl) as (y & Ey & Ly).
    rewrite Ey. cbn [bind]. eexists. split; [reflexivity|]. lia.
  - rewrite Efirst, Elast. cbn [bind].
    match goal with
    | |- context [np_convolve kernel ?s _] => set (padded := s)
    end.
    assert (Lp : Z.of_nat (length padded)
                 = n + (if window_len <? n then window_len - 1 else n - 2)
                   + (window_len - 1)).
    { unfold padded. rewrite !length_app, !length_map. fold n. lia. }
    destruct (np_convolve_length kernel padded "full") as (_ & _ & Hfull).
    { destruct (window_len <? n); lia. }
    destruct (Hfull eq_refl) as (y & Ey & Ly).
    rewrite Ey. cbn [bind]. eexists. split; [reflexivity|].
    rewrite slice_length, Ly.
    rewrite (clamp_fwd_inside _ (window_len - 1))
      by (destruct (window_len <? n); lia).
    rewrite (clamp_fwd_from_end _ (- window_len + 1))
      by (destruct (window_len <? n); lia).
    destruct (window_len <? n) eqn:E;
      [apply Z.ltb_lt in E|apply Z.ltb_ge in E]; lia.
Qed.

Lemma smooth_output_length_witness :
  let x := [1; 2; 4; 8; 16]%float in
  let no_window := fun (_ : string) (_ : Z) => Raise AttributeError in
  (exists y, smooth no_window (array1 x) 3 "rectangular" "same"
             = Ok (array1 y)
             /\ Z.of_nat (length y) = 5)
  /\ (exists y, smooth no_window (array1 x) 3 "rectangular" "valid"
                = Ok (array1 y)
                /\ Z.of_nat (length y) = 7)
  /\ (exists y, smooth no_window (array1 x) 5 "rectangular" "same"
                = Ok (array1 y)
                /\ Z.of_nat (length y) = 4).
Proof.
  cbv zeta.
  assert (Hknown : In "rectangular"%string known_windows) by now left.
  split; [|split].
  - refine (proj1 (smooth_output_length
                     (fun _ _ => Raise AttributeError)
                     [1; 2; 4; 8; 16]%float 3 "rectangular" "same"
                     _ Hknown _) eq_refl).
    + cbn. lia.
    + intros Hw. now contradiction Hw.
  - refine (proj1 (proj2 (smooth_output_length
                            (fun _ _ => Raise AttributeError)
                            [1; 2; 4; 8; 16]%float 3 "rectangular" "valid"
                            _ Hknown _)) eq_refl).
    + cbn. lia.
    + intros Hw. now contradiction Hw.
  - refine (proj1 (smooth_output_length
                     (fun _ _ => Raise AttributeError)
                     [1; 2; 4; 8; 16]%float 5 "rectangular" "same"
                     _ Hknown _) eq_refl).
    + cbn. lia.
    + intros Hw. now contradiction Hw.
Defined.

(** ** The window name of [taper] *)

Lemma lower_ascii_idempotent (c : ascii) :
  lower_ascii (lower_ascii c) = lower_ascii c.
Proof.
  destruct c as [[|] [|] [|] [|] [|] [|] [|] [|]]; vm_compute; reflexivity.
Qed.

Lemma lower_idempotent (s : string) : lower (lower s) = lower s.
Proof.
  induction s as [|c s IH]; cbn [lower]; [reflexivity|].
  now rewrite lower_ascii_idempotent, IH.
Qed.

(** X17.  [taper] reads the window name without regard to the case of
    its letters: a name and its lower-case form give the same call, be
    it a window [taper] builds itself or one it asks numpy for. *)
Theorem taper_window_name_case {R : Type} `{Scalar R}
        (np_named_window : string -> Z -> result (list R))
        (np_kaiser : Z -> R -> result (list R))
        (np_cos np_sin : R -> R) (np_pi : R)
        (x : list R) (window : string) (alpha : R) :
  taper np_named_window np_kaiser np_cos np_sin np_pi x window alpha
  = taper np_named_window np_kaiser np_cos np_sin np_pi x (lower window) alpha.
Proof. unfold taper. now rewrite lower_idempotent. Qed.

(** ** The first autocorrelation coefficient *)

(** X18.  The first value [autocorrelation] yields for a non-empty
    series is the coefficient of lag 0: the products of lag 0 are the
    squares that make up [c0], so the value is [round(c0 / c0, 3)], with
    [c0] the mean square deviation of the series. *)
Theorem autocorrelation_lag_zero {R : Type} `{Scalar R} (series : list R) :
  series <> [] ->
  let mean := np_mean series in
  let c0 := fdiv (np_sum (map (fun a => let d := fsub a mean in fmul d d)
                              series))
                 (of_int (Z.of_nat (length series))) in
  hd_error (autocorrelation series) = Some (round3 (fdiv c0 c0)).
Proof.
  intros Hne. cbv zeta. unfold autocorrelation, arange.
  set (mean := np_mean series).
  set (c0 := fdiv _ _).
  assert (Hhd : forall (f : Z -> R) (n : nat),
             n <> 0%nat ->
             hd_error (map f (map Z.of_nat (seq 0 n))) = Some (f 0)).
  { intros f [|n] Hn; [contradiction|reflexivity]. }
  rewrite Hhd by (destruct series; [contradiction|discriminate]).
  f_equal. unfold acf_r. rewrite Z.sub_0_r.
  rewrite !slice_prefix, firstn_all.
  assert (Ezip : forall (mu : R) (l : list R),
             zip_with fmul (map (fun a => fsub a mu) l)
                      (map (fun a => fsub a mu) l)
             = map (fun a => let d := fsub a mu in fmul d d) l).
  { intros mu l. induction l as [|b l IH]; cbn [map zip_with];
      [reflexivity|]. now rewrite IH. }
  rewrite Ezip. reflexivity.
Qed.

Lemma autocorrelation_lag_zero_witness :
  hd_error (autocorrelation [1; 2; 3; 6]%float) = Some 1%float.
Proof.
  assert (Hne : [1; 2; 3; 6]%float <> []) by discriminate.
  pose proof (autocorrelation_lag_zero [1; 2; 3; 6]%float Hne) as E.
  vm_compute in E |- *. exact E.
Defined.

(** ** The unfilled slot on a signal of floats *)

Lemma find_maxima_unfilled_slot_witness :
  let x := [-2; 2; -1; 0; -3; 4]%float in
  exists m i,
    (forall retind,
        find_maxima x false None true retind
        = Ok (m, if retind then Some i else None))
    /\ In (fzero, 0%nat) (combine m i).
Proof.
  cbv zeta.
  apply (find_maxima_unfilled_slot [-2; 2; -1; 0; -3; 4]%float).
  - vm_compute. lia.
  - reflexivity.
Defined.

(** ** The moving average of a constant signal *)

Lemma firstn_incl {A : Type} (k : nat) (l : list A) (v : A) :
  In v (firstn k l) -> In v l.
Proof.
  intros Hin. rewrite <- (firstn_skipn k l). apply in_or_app. now left.
Qed.

Lemma skipn_incl {A : Type} (k : nat) (l : list A) (v : A) :
  In v (skipn k l) -> In v l.
Proof.
  intros Hin. rewrite <- (firstn_skipn k l). apply in_or_app. now right.
Qed.

Lemma slice_incl {A : Type} (l : list A) (a b : Z) (v : A) :
  In v (slice l a b) -> In v l.
Proof. unfold slice. intros Hin. eapply skipn_incl, firstn_incl, Hin. Qed.

Lemma slice_rev_incl {A : Type} (l : list A) (a b : Z) (v : A) :
  In v (slice_rev l a b) -> In v l.
Proof.
  unfold slice_rev. intros Hin. apply in_rev in Hin.
  eapply skipn_incl, firstn_incl, Hin.
Qed.

Lemma slice_nth_inside {A : Type} (l : list A) (a b : Z) (q : nat) :
  0 <= a <= Z.of_nat (length l) ->
  (q < length (slice l a b))%nat ->
  nth_error (slice l a b) q = nth_error l (Z.to_nat a + q).
Proof.
  intros Ha Hq. rewrite slice_length in Hq. unfold slice.
  rewrite (clamp_fwd_inside _ a) in * by lia.
  rewrite nth_error_firstn.
  assert (E : (q <? Z.to_nat (clamp_fwd (Z.of_nat (length l)) b - a))%nat
              = true) by now apply Nat.ltb_lt.
  rewrite E. apply nth_error_skipn.
Qed.

Section ConstantSignal.

Context {R : Type} `{Scalar R}.

(** An entry of the full convolution where the kernel overlaps the
    signal completely. *)
Lemma conv_full_nth (a v : list R) (k : nat) :
  (length v - 1 <= k <= length a - 1)%nat -> (1 <= length v)%nat ->
  (1 <= length a)%nat ->
  nth_error (conv_full a v) k
  = Some (np_sum (map (fun j => fmul (nth j a fzero) (nth (k - j) v fzero))
                      (seq (k + 1 - length v) (length v)))).
Proof.
  intros Hk Hv Ha. unfold conv_full.
  rewrite nth_error_map, nth_error_seq.
  assert (E : (k <? length a + length v - 1)%nat = true)
    by (apply Nat.ltb_lt; lia).
  rewrite E. cbn [option_map Nat.add].
  replace (Nat.min k (length a - 1) + 1 - (k + 1 - length v))%nat
    with (length v) by lia.
  reflexivity.
Qed.

Lemma conv_full_constant (c t : R) (la lv k : nat) :
  (lv - 1 <= k <= la - 1)%nat -> (1 <= lv)%nat -> (1 <= la)%nat ->
  nth_error (conv_full (repeat c la) (repeat t lv)) k
  = Some (np_sum (repeat (fmul c t) lv)).
Proof.
  intros Hk Hv Ha.
  rewrite conv_full_nth by (rewrite ?repeat_length; lia).
  rewrite !repeat_length. do 2 f_equal.
  transitivity (map (fun _ : nat => fmul c t) (seq (k + 1 - lv) lv)).
  - apply map_ext_in. intros j Hj. apply in_seq in Hj.
    assert (Ec : nth j (repeat c la) fzero = c)
      by (apply nth_error_nth, nth_error_repeat; lia).
    assert (Et : nth (k - j) (repeat t lv) fzero = t)
      by (apply nth_error_nth, nth_error_repeat; lia).
    now rewrite Ec, Et.
  - now rewrite map_const, length_seq.
Qed.

End ConstantSignal.

(** In arithmetic without round-off the weights of the moving average
    add up to one: what the statement below asks of the scalars holds
    for every rational sample and every window length. *)
Lemma rationals_sum_repeat (t acc : Qc) (k : nat) :
  fold_left Qcplus (repeat t k) acc
  = (acc + Exact.of_int (Z.of_nat k) * t)%Qc.
Proof.
  revert acc. induction k as [|k IH]; intros acc.
  - cbn [repeat fold_left Z.of_nat].
    replace (Exact.of_int 0) with (Q2Qc 0)
      by (apply Qc_is_canon; reflexivity).
    ring.
  - cbn [repeat fold_left]. rewrite IH, Nat2Z.inj_succ, <- Z.add_1_r.
    rewrite <- exact_of_int_succ. cbn [fadd fone rationals]. ring.
Qed.

Lemma rationals_average (c : Qc) (wl : nat) :
  (0 < wl)%nat ->
  np_sum (repeat (fmul c (fdiv fone (np_sum (repeat fone wl)))) wl) = c
  /\ fsub (fmul (of_int 2) c) c = c.
Proof.
  intros Hwl. split.
  - unfold np_sum. cbn [fadd fmul fdiv fone fzero rationals].
    rewrite !rationals_sum_repeat.
    assert (Hnz : Exact.of_int (Z.of_nat wl) <> Q2Qc 0).
    { intros E. apply (f_equal this) in E.
      unfold Exact.of_int, Q2Qc in E. cbn [this] in E.
      assert (E' : Qred (inject_Z (Z.of_nat wl)) == Qred 0) by now rewrite E.
      rewrite !Qred_correct in E'. unfold Qeq, inject_Z in E'. cbn in E'.
      lia. }
    field. exact Hnz.
  - cbn [fsub fmul of_int rationals]. rewrite exact_two. ring.
Qed.

(** X19.  The moving average leaves a constant signal as it is: for a
    signal of [n] equal samples [c] and [3 <= window_len < n], where
    [2 c - c] is [c] and adding up [window_len] copies of
    [c * (1 / window_len)] gives [c] without round-off, [smooth] with
    the rectangular window in mode "same" returns the signal, padding
    and edges included. *)
Theorem smooth_keeps_constant_signal {R : Type} `{Scalar R}
        (np_named_window : string -> Z -> result (list R))
        (c : R) (n : nat) (window_len : Z) :
  3 <= window_len < Z.of_nat n ->
  fsub (fmul (of_int 2) c) c = c ->
  np_sum (repeat (fmul c (fdiv fone
                               (np_sum (repeat fone (Z.to_nat window_len)))))
                 (Z.to_nat window_len))
  = c ->
  smooth np_named_window (array1 (repeat c n)) window_len "rectangular" "same"
  = Ok (array1 (repeat c n)).
Proof.
  intros Hwl Hpad Havg.
  set (wl := Z.to_nat window_len).
  assert (Ewl : window_len = Z.of_nat wl) by (unfold wl; lia).
  unfold smooth.
  change (size (array1 (repeat c n))) with (Z.of_nat (length (repeat c n))).
  rewrite repeat_length. cbn [ndim array1 flat Nat.eqb negb].
  assert (E1 : (Z.of_nat n <? window_len) = false) by (apply Z.ltb_ge; lia).
  assert (E2 : (window_len <? 3) = false) by (apply Z.ltb_ge; lia).
  rewrite E1, E2. cbn [known_windows existsb String.eqb Ascii.eqb Bool.eqb
                       andb orb negb bind].
  fold wl. rewrite map_repeat.
  set (t := fdiv fone (np_sum (repeat fone wl))).
  assert (Efirst : getitem (repeat c n) 0 = Ok c).
  { change 0 with (Z.of_nat 0). rewrite getitem_nat.
    rewrite nth_error_repeat by lia. reflexivity. }
  assert (Elast : getitem (repeat c n) (-1) = Ok c).
  { destruct n as [|n']; [lia|].
    rewrite (getitem_last (repeat c (S n')) c) by discriminate.
    f_equal. cbn [repeat]. rewrite last_cons.
    apply (repeat_spec (S n') c). apply last_cons_In. }
  rewrite Efirst, Elast. cbn [bind].
  match goal with
  | |- context [np_convolve _ ?s _] => set (padded := s)
  end.
  assert (Lhead : length (slice_rev (repeat c n) window_len 1) = (wl - 1)%nat).
  { rewrite slice_rev_length, repeat_length.
    rewrite !clamp_bwd_inside by lia. lia. }
  assert (Ltail : length (slice_rev (repeat c n) (-1) (- window_len))
                  = (wl - 1)%nat).
  { rewrite slice_rev_length, repeat_length.
    rewrite (clamp_bwd_from_end _ (-1)) by lia.
    rewrite (clamp_bwd_from_end _ (- window_len)) by lia. lia. }
  assert (Lp : length padded = (n + 2 * (wl - 1))%nat).
  { unfold padded. rewrite !length_app, !length_map, repeat_length. lia. }
  assert (Ep : padded = repeat c (n + 2 * (wl - 1))).
  { rewrite <- Lp. apply Forall_eq_repeat. unfold padded.
    repeat (apply Forall_app; split).
    - apply Forall_map, Forall_forall. intros a Ha.
      apply slice_rev_incl, repeat_spec in Ha. subst a. now symmetry.
    - apply Forall_forall. intros a Ha. apply repeat_spec in Ha. now subst a.
    - apply Forall_map, Forall_forall. intros a Ha.
      apply slice_rev_incl, repeat_spec in Ha. subst a. now symmetry. }
  rewrite Ep. clear Ep Lp padded Lhead Ltail.
  set (la := (n + 2 * (wl - 1))%nat).
  unfold np_convolve.
  destruct (repeat t wl) as [|t0 tl] eqn:Ek;
    [apply (f_equal (@length R)) in Ek; rewrite repeat_length in Ek;
     cbn in Ek; lia|].
  destruct (repeat c la) as [|c0 cl] eqn:Es;
    [apply (f_equal (@length R)) in Es; rewrite repeat_length in Es;
     cbn in Es; lia|].
  rewrite <- Ek, <- Es. rewrite !repeat_length.
  assert (E3 : (wl <? la)%nat = true) by (apply Nat.ltb_lt; lia).
  rewrite E3. cbv beta iota zeta. rewrite !repeat_length.
  cbn [String.eqb Ascii.eqb Bool.eqb andb bind].
  set (full := conv_full (repeat c la) (repeat t wl)).
  assert (Lfull : length full = (la + wl - 1)%nat)
    by (unfold full; now rewrite conv_full_length, !repeat_length).
  set (h := (Z.of_nat wl - 1) / 2).
  assert (Hh : 0 <= h <= Z.of_nat wl - 1).
  { unfold h. split; [apply Z.div_pos; lia|].
    apply Z.div_le_upper_bound; lia. }
  set (same := slice full h (h + Z.of_nat la)).
  assert (Lsame : length same = la).
  { unfold same. rewrite slice_length, Lfull.
    rewrite !clamp_fwd_inside by lia. lia. }
  f_equal. f_equal. apply nth_error_ext. intros q.
  assert (Lres : length (slice same (window_len - 1) (- window_len + 1)) = n).
  { rewrite slice_length, Lsame.
    rewrite (clamp_fwd_inside _ (window_len - 1)) by lia.
    rewrite (clamp_fwd_from_end _ (- window_len + 1)) by lia. lia. }
  destruct (Nat.lt_ge_cases q n) as [Hq|Hq].
  - rewrite slice_nth_inside by lia.
    unfold same at 1. rewrite slice_nth_inside; [|lia|fold same; lia].
    unfold full. rewrite conv_full_constant by lia.
    rewrite nth_error_repeat by lia. f_equal. exact Havg.
  - assert (E4 : nth_error (repeat c n) q = None)
      by (apply nth_error_None; rewrite repeat_length; lia).
    rewrite E4. apply nth_error_None. lia.
Qed.

Lemma smooth_keeps_constant_signal_witness :
  smooth (fun _ _ => Raise AttributeError)
         (array1 [3; 3; 3; 3; 3; 3]%float) 4 "rectangular" "same"
  = Ok (array1 [3; 3; 3; 3; 3; 3]%float).
Proof.
  apply (smooth_keeps_constant_signal (fun _ _ => Raise AttributeError)
           3%float 6 4).
  - cbn. lia.
  - reflexivity.
  - reflexivity.
Defined.
